(** * Maze solver: grid model, BFS/DFS search, generation and retry loop

    A shallow embedding of [maze_solver_interactive.py] and the proofs of the
    properties its specification states about it.

    Modelling conventions.
    - A Python [int] is a [Z]; a coordinate [Coord = Tuple[int, int]] is a
      pair of [Z].  A Python [float] is an IEEE binary64 [float].
    - A Python [str] is a [string] holding its UTF-8 encoding.
    - [dict] is [gmap], [set] is [gset], [list] and [deque] are [list].
    - A Python exception is a [Raise] result.  A [while] loop, and the
      recursion of [dfs], are driven by a fuel argument; running out of fuel
      is the distinct result [OutOfFuel].  For [dfs] the fuel is the depth
      of recursion the interpreter allows.  The theorems show that a
      function returns once the fuel reaches an explicit bound, and that
      more fuel never changes a result.
    - The random source is a state with a [random()] step; the generator
      and the loop of [main] thread it. *)

From Stdlib Require Import ZArith Floats Ascii String Sorted.
From stdpp Require Import gmap strings list fin_maps.

Local Open Scope Z_scope.
#[local] Set Warnings "-clear-no-such-hyp".

(** ** Results of fallible computations *)

Inductive exn : Type :=
  | IndexError
  | KeyError
  | ValueError (msg : string).

Inductive result (A : Type) : Type :=
  | Ok (a : A)
  | Raise (e : exn)
  | OutOfFuel.

Arguments Ok {A} a.
Arguments Raise {A} e.
Arguments OutOfFuel {A}.

#[global] Instance result_bind : MBind result := λ A B k x,
  match x with
  | Ok a => k a
  | Raise e => Raise e
  | OutOfFuel => OutOfFuel
  end.

(** A [for] loop whose body may raise: the state is threaded through the
    items in order, and the first failure aborts the loop. *)
Fixpoint for_each {A S : Type} (body : A → S → result S) (items : list A) (s : S)
  : result S :=
  match items with
  | [] => Ok s
  | x :: rest => s' ← body x s; for_each body rest s'
  end.

(** ** Python sequence indexing

    [l[i]] counts a negative [i] from the end and raises [IndexError]
    outside [-len(l) <= i < len(l)]. *)

Definition len {A : Type} (l : list A) : Z := Z.of_nat (length l).

Definition norm_index {A : Type} (l : list A) (i : Z) : option nat :=
  let j := if i <? 0 then i + len l else i in
  if (0 <=? j) && (j <? len l) then Some (Z.to_nat j) else None.

Definition getitem {A : Type} (l : list A) (i : Z) : result A :=
  match norm_index l i with
  | Some j => match l !! j with Some x => Ok x | None => Raise IndexError end
  | None => Raise IndexError
  end.

Definition setitem {A : Type} (l : list A) (i : Z) (x : A) : result (list A) :=
  match norm_index l i with
  | Some j => Ok (<[j := x]> l)
  | None => Raise IndexError
  end.

(** [g[r][c] = x] on a list of rows: the row object is fetched and updated
    in place, so the grid sees the new row at the same position. *)
Definition setitem2 {A : Type} (g : list (list A)) (r c : Z) (x : A)
  : result (list (list A)) :=
  row ← getitem g r;
  row' ← setitem row c x;
  setitem g r row'.

Definition getitem2 {A : Type} (g : list (list A)) (r c : Z) : result A :=
  row ← getitem g r; getitem row c.

(** ** The grid model *)

Abbreviation Coord := (Z * Z)%type.

Record Maze : Type := mkMaze {
  grid : list (list string);
  start : Coord;
  end_ : Coord
}.

Definition WALL : string := "#".
Definition OPEN : string := ".".

(** The four moves, in the order the source tries them: down, up, right,
    left (rows grow downwards). *)
Definition directions : list (Z * Z) := [(1, 0); (-1, 0); (0, 1); (0, -1)].

Fixpoint neighbors_dirs (m : Maze) (r c : Z) (ds : list (Z * Z))
  : result (list Coord) :=
  match ds with
  | [] => Ok []
  | (dr, dc) :: ds' =>
      let nr := r + dr in
      let nc := c + dc in
      if (0 <=? nr) && (nr <? len (grid m)) then
        row0 ← getitem (grid m) 0;
        if (0 <=? nc) && (nc <? len row0) then
          cell ← getitem2 (grid m) nr nc;
          rest ← neighbors_dirs m r c ds';
          if decide (cell ≠ WALL) then Ok ((nr, nc) :: rest) else Ok rest
        else neighbors_dirs m r c ds'
      else neighbors_dirs m r c ds'
  end.

(** [Maze.neighbors]: the generator's items, in the order they are yielded.
    The grid is not written to while a generator is consumed, and an
    exception raised while producing an item ends the search that consumes
    it, so the items are computed at once. *)
Definition neighbors (m : Maze) (rc : Coord) : result (list Coord) :=
  let '(r, c) := rc in neighbors_dirs m r c directions.

(** *** Bounds, open cells and well-formed grids *)

Definition nrows (m : Maze) : Z := len (grid m).

Definition ncols (m : Maze) : Z :=
  match grid m with
  | [] => 0
  | row0 :: _ => len row0
  end.

Definition in_bounds (m : Maze) (p : Coord) : Prop :=
  0 <= p.1 < nrows m ∧ 0 <= p.2 < ncols m.

(** The cell of a list of rows at non-negative coordinates. *)
Definition grid_get (g : list (list string)) (p : Coord) : option string :=
  g !! Z.to_nat p.1 ≫= (.!! Z.to_nat p.2).

Definition cell_at (m : Maze) (p : Coord) : option string := grid_get (grid m) p.

Definition is_open (m : Maze) (p : Coord) : Prop :=
  in_bounds m p ∧ ∃ s, cell_at m p = Some s ∧ s ≠ WALL.

Definition in_boundsb (m : Maze) (p : Coord) : bool :=
  (0 <=? p.1) && (p.1 <? nrows m) && (0 <=? p.2) && (p.2 <? ncols m).

Definition is_openb (m : Maze) (p : Coord) : bool :=
  in_boundsb m p &&
  match cell_at m p with
  | Some s => bool_decide (s ≠ WALL)
  | None => false
  end.

(** Every row is as long as the first one. *)
Definition rectangular (m : Maze) : Prop :=
  Forall (fun row => len row = ncols m) (grid m).

(** Two cells are 4-adjacent: exactly one of row and column differs, by
    exactly one. *)
Definition adjacent (p q : Coord) : Prop :=
  (p.2 = q.2 ∧ (q.1 = p.1 + 1 ∨ q.1 = p.1 - 1)) ∨
  (p.1 = q.1 ∧ (q.2 = p.2 + 1 ∨ q.2 = p.2 - 1)).

(** The four adjacent cells of [(r, c)], in the order down, up, right, left. *)
Definition around (rc : Coord) : list Coord :=
  [(rc.1 + 1, rc.2); (rc.1 - 1, rc.2); (rc.1, rc.2 + 1); (rc.1, rc.2 - 1)].

(** ** Path reconstruction

    [reconstruct_path] walks the parent map from [end] back to [start],
    appending each cell, and reverses the list at the end.  The lookup
    [parents[cur]] raises [KeyError] on a cell without an entry. *)

Fixpoint reconstruct_loop (fuel : nat) (parents : gmap Coord Coord)
    (start : Coord) (cur : Coord) (path : list Coord) : result (list Coord) :=
  match fuel with
  | O => OutOfFuel
  | S fuel' =>
      if decide (cur ≠ start) then
        match parents !! cur with
        | Some p => reconstruct_loop fuel' parents start p (path ++ [p])
        | None => Raise KeyError
        end
      else Ok (reverse path)
  end.

Definition reconstruct_path (fuel : nat) (parents : gmap Coord Coord)
    (end_ start : Coord) : result (list Coord) :=
  reconstruct_loop fuel parents start end_ [end_].

(** ** Breadth-first search *)

Record bfs_state : Type := mkBfs {
  bfs_q : list Coord;
  bfs_parents : gmap Coord Coord;
  bfs_visited : gset Coord
}.

(** The body of [for nb in maze.neighbors(cur)]. *)
Definition bfs_visit (cur : Coord) (st : bfs_state) (nb : Coord) : bfs_state :=
  if decide (nb ∉ bfs_visited st) then
    {| bfs_visited := {[nb]} ∪ bfs_visited st;
       bfs_parents := <[nb := cur]> (bfs_parents st);
       bfs_q := bfs_q st ++ [nb] |}
  else st.

(** The [while q:] loop; the state on entry holds the whole queue. *)
Fixpoint bfs_loop (fuel : nat) (m : Maze) (st : bfs_state)
  : result (option (list Coord) * gset Coord) :=
  match fuel with
  | O => OutOfFuel
  | S fuel' =>
      match bfs_q st with
      | [] => Ok (None, bfs_visited st)
      | cur :: q' =>
          if decide (cur = end_ m) then
            path ← reconstruct_path fuel (bfs_parents st) (end_ m) (start m);
            Ok (Some path, bfs_visited st)
          else
            nbs ← neighbors m cur;
            bfs_loop fuel' m
              (foldl (bfs_visit cur)
                 {| bfs_q := q'; bfs_parents := bfs_parents st;
                    bfs_visited := bfs_visited st |} nbs)
      end
  end.

Definition bfs (fuel : nat) (m : Maze) : result (option (list Coord) * gset Coord) :=
  bfs_loop fuel m
    {| bfs_q := [start m]; bfs_parents := ∅; bfs_visited := {[start m]} |}.

(** ** Depth-first search with backtracking

    The three variables shared by the nested function [dfs] are the state it
    threads.  The fuel bounds the depth of the recursion. *)

Record dfs_state : Type := mkDfs {
  dfs_visited : gset Coord;
  dfs_parents : gmap Coord Coord;
  dfs_found : bool
}.

Fixpoint dfs (fuel : nat) (m : Maze) (u : Coord) (st : dfs_state) : result dfs_state :=
  match fuel with
  | O => OutOfFuel
  | S fuel' =>
      if dfs_found st then Ok st
      else
        let st1 := {| dfs_visited := {[u]} ∪ dfs_visited st;
                      dfs_parents := dfs_parents st;
                      dfs_found := dfs_found st |} in
        if decide (u = end_ m) then
          Ok {| dfs_visited := dfs_visited st1;
                dfs_parents := dfs_parents st1;
                dfs_found := true |}
        else
          nbs ← neighbors m u;
          for_each
            (fun v s =>
               if decide (v ∉ dfs_visited s) then
                 dfs fuel' m v
                   {| dfs_visited := dfs_visited s;
                      dfs_parents := <[v := u]> (dfs_parents s);
                      dfs_found := dfs_found s |}
               else Ok s)
            nbs st1
  end.

Definition dfs_backtracking (fuel : nat) (m : Maze)
  : result (option (list Coord) * gset Coord) :=
  st ← dfs fuel m (start m)
         {| dfs_visited := ∅; dfs_parents := ∅; dfs_found := false |};
  if dfs_found st then
    path ← reconstruct_path fuel (dfs_parents st) (end_ m) (start m);
    Ok (Some path, dfs_visited st)
  else Ok (None, dfs_visited st).

(** The dispatch on [algo] in [main]: ["bfs"] selects [bfs], anything else
    [dfs_backtracking]. *)
Definition search (fuel : nat) (algo : string) (m : Maze)
  : result (option (list Coord) * gset Coord) :=
  if decide (algo = "bfs") then bfs fuel m else dfs_backtracking fuel m.

(** ** Rendering with the path and visited overlays *)

(** U+00B7 MIDDLE DOT, in UTF-8. *)
Definition MIDDOT : string := String "194"%char (String "183"%char EmptyString).
Definition STAR : string := "*".
Definition NEWLINE : string := String "010"%char EmptyString.

Definition mark_visited (rc : Coord) (g : list (list string))
  : result (list (list string)) :=
  cell ← getitem2 g rc.1 rc.2;
  if decide (cell = OPEN) then setitem2 g rc.1 rc.2 MIDDOT else Ok g.

Definition mark_path (rc : Coord) (g : list (list string))
  : result (list (list string)) :=
  cell ← getitem2 g rc.1 rc.2;
  if decide (cell ∉ ["S"; "E"]) then setitem2 g rc.1 rc.2 STAR else Ok g.

Definition mark_endpoint (label : string) (rc : Coord) (g : list (list string))
  : result (list (list string)) :=
  cell ← getitem2 g rc.1 rc.2;
  if decide (cell ≠ STAR) then setitem2 g rc.1 rc.2 label else Ok g.

(** The character grid [g] that [draw_with_path] builds before joining it.
    An empty set and an empty list are falsy, like [None]; a set is iterated
    in the order of its [elements]. *)
Definition draw_cells (m : Maze) (path : option (list Coord))
    (visited : option (gset Coord)) : result (list (list string)) :=
  let g := grid m in
  g ← match visited with
      | Some vs => if decide (vs ≠ ∅) then for_each mark_visited (elements vs) g
                   else Ok g
      | None => Ok g
      end;
  g ← match path with
      | Some p => if decide (p ≠ []) then for_each mark_path p g else Ok g
      | None => Ok g
      end;
  g ← mark_endpoint "S" (start m) g;
  mark_endpoint "E" (end_ m) g.

Definition draw_with_path (m : Maze) (path : option (list Coord))
    (visited : option (gset Coord)) : result string :=
  g ← draw_cells m path visited;
  Ok (String.concat NEWLINE (map (String.concat "") g)).

(** ** Maze generation and the retry loop *)

Definition coord_in_range (rows cols : Z) (p : Coord) : bool :=
  (0 <=? p.1) && (p.1 <? rows) && (0 <=? p.2) && (p.2 <? cols).

Definition density_in_range (density : float) : bool :=
  (0 <=? density)%float && (density <? 1)%float.

Definition max_tries : Z := 200.

(** What [main] holds when its loop is left: the last maze, the result of
    the search on it and the attempt counter. *)
Record outcome : Type := mkOutcome {
  out_maze : Maze;
  out_path : option (list Coord);
  out_visited : gset Coord;
  out_attempt : Z
}.

(** The random source is any state with a [random()] step that returns a
    float and the next state. *)

Section Generator.

Variable Rng : Type.
Variable rng_random : Rng → float * Rng.

(** One row: [cols] draws, left to right. *)
Fixpoint random_row (cols : nat) (density : float) (rng : Rng)
  : list string * Rng :=
  match cols with
  | O => ([], rng)
  | S cols' =>
      let '(x, rng1) := rng_random rng in
      let cell := if (x <? density)%float then WALL else OPEN in
      let '(rest, rng2) := random_row cols' density rng1 in
      (cell :: rest, rng2)
  end.

(** The rows, top to bottom. *)
Fixpoint random_rows (rows cols : nat) (density : float) (rng : Rng)
  : list (list string) * Rng :=
  match rows with
  | O => ([], rng)
  | S rows' =>
      let '(row, rng1) := random_row cols density rng in
      let '(rest, rng2) := random_rows rows' cols density rng1 in
      (row :: rest, rng2)
  end.

(** [Maze.random]; on success the advanced random source is returned with
    the maze. *)
Definition Maze_random (rows cols : Z) (start end_ : Coord) (density : float)
    (rng : Rng) : result (Maze * Rng) :=
  if (rows <=? 1) || (cols <=? 1) then
    Raise (ValueError "rows and cols must be >= 2")
  else if negb (coord_in_range rows cols start) then
    Raise (ValueError "start out of bounds")
  else if negb (coord_in_range rows cols end_) then
    Raise (ValueError "end out of bounds")
  else if decide (start = end_) then
    Raise (ValueError "start and end cannot be the same cell")
  else if negb (density_in_range density) then
    Raise (ValueError "density must be in [0.0, 1.0)")
  else
    let '(g, rng') := random_rows (Z.to_nat rows) (Z.to_nat cols) density rng in
    g ← setitem2 g start.1 start.2 OPEN;
    g ← setitem2 g end_.1 end_.2 OPEN;
    Ok (mkMaze g start end_, rng').

(** The [while True:] loop of [main].  [Ok None] is the early [return]
    after an exception of [Maze.random]; [iters] is the fuel of this loop
    and [fuel] the fuel handed to each search. *)
Fixpoint main_loop (iters fuel : nat) (rows cols : Z) (start end_ : Coord)
    (density : float) (algo : string) (ensure : bool) (attempt : Z) (rng : Rng)
  : result (option outcome) :=
  match iters with
  | O => OutOfFuel
  | S iters' =>
      let attempt := attempt + 1 in
      match Maze_random rows cols start end_ density rng with
      | Raise _ => Ok None
      | OutOfFuel => OutOfFuel
      | Ok (maze, rng') =>
          '(path, visited) ← search fuel algo maze;
          if bool_decide (path ≠ None) || negb ensure || (max_tries <=? attempt)
          then Ok (Some (mkOutcome maze path visited attempt))
          else main_loop iters' fuel rows cols start end_ density algo ensure
                 attempt rng'
      end
  end.

End Generator.

(** ** The layout export of [main]

    The text [main] writes to the file the user names: the maze's own grid
    with [S] and [E] written over the start and end cells. *)

Definition export_cells (m : Maze) : result (list (list string)) :=
  let g := grid m in
  g ← setitem2 g (start m).1 (start m).2 "S";
  setitem2 g (end_ m).1 (end_ m).2 "E".

Definition export_layout (m : Maze) : result string :=
  g ← export_cells m;
  Ok (String.concat NEWLINE (map (String.concat "") g)).


(** ** Console input

    [input(prompt)] takes the next line of the input, without its newline,
    and raises [EOFError] when the input has ended; what is printed is not
    modelled.  The builtins [str.strip], [str.lower], [int] and [float] are
    parameters: [int] and [float] give [None] where Python raises
    [ValueError]. *)

Inductive reply (A : Type) : Type :=
  | Answer (a : A) (rest : list string)
  | EOFError
  | UncaughtValueError.

Arguments Answer {A} a rest.
Arguments EOFError {A}.
Arguments UncaughtValueError {A}.

Definition reply_bind {A B : Type} (r : reply A) (k : A → list string → reply B)
  : reply B :=
  match r with
  | Answer a rest => k a rest
  | EOFError => EOFError
  | UncaughtValueError => UncaughtValueError
  end.

(** [s.split(sep)] for a separator of one character. *)
Fixpoint split_on (sep : ascii) (s : string) : list string :=
  match s with
  | EmptyString => [EmptyString]
  | String c rest =>
      if decide (c = sep) then EmptyString :: split_on sep rest
      else match split_on sep rest with
           | part :: parts => String c part :: parts
           | [] => [String c EmptyString]
           end
  end.

Section Console.

Variable strip : string → string.
Variable lower : string → string.
Variable int_of : string → option Z.
Variable float_of : string → option float.

Fixpoint ask_int (min_val max_val : option Z) (lines : list string) : reply Z :=
  match lines with
  | [] => EOFError
  | line :: rest =>
      let s := strip line in
      match int_of s with
      | Some v =>
          if match min_val with Some lo => v <? lo | None => false end
          then ask_int min_val max_val rest
          else if match max_val with Some hi => v >? hi | None => false end
          then ask_int min_val max_val rest
          else Answer v rest
      | None => ask_int min_val max_val rest
      end
  end.

Fixpoint ask_coord (lines : list string) : reply Coord :=
  match lines with
  | [] => EOFError
  | line :: rest =>
      let s := strip line in
      match split_on ","%char s with
      | [r_str; c_str] =>
          match int_of r_str with
          | Some r =>
              match int_of c_str with
              | Some c => Answer (r, c) rest
              | None => ask_coord rest
              end
          | None => ask_coord rest
          end
      | _ => ask_coord rest
      end
  end.

Fixpoint ask_float (min_val max_val : float) (lines : list string) : reply float :=
  match lines with
  | [] => EOFError
  | line :: rest =>
      let s := strip line in
      match float_of s with
      | Some v =>
          if negb ((min_val <=? v)%float && (v <=? max_val)%float)
          then ask_float min_val max_val rest
          else Answer v rest
      | None => ask_float min_val max_val rest
      end
  end.

Fixpoint ask_choice (choices : list string) (lines : list string) : reply string :=
  match lines with
  | [] => EOFError
  | line :: rest =>
      let choices_lower := lower <$> choices in
      let s := lower (strip line) in
      if decide (s ∈ choices_lower) then Answer s rest
      else ask_choice choices rest
  end.

(** The seed line of [main]: an empty answer is [None]; [int] is not
    guarded there, so its [ValueError] ends the program. *)
Definition ask_seed (lines : list string) : reply (option Z) :=
  match lines with
  | [] => EOFError
  | line :: rest =>
      let seed_in := strip line in
      if decide (seed_in ≠ EmptyString) then
        match int_of seed_in with
        | Some seed => Answer (Some seed) rest
        | None => UncaughtValueError
        end
      else Answer None rest
  end.

(** What [main] has read when its loop starts. *)
Record main_params : Type := mkParams {
  p_rows : Z;
  p_cols : Z;
  p_start : Coord;
  p_end : Coord;
  p_density : float;
  p_algo : string;
  p_ensure : bool;
  p_show_visited : bool;
  p_seed : option Z
}.

(** 0.99, the largest density [main] accepts, as the float it denotes. *)
Definition max_density : float := 0x1.fae147ae147aep-1%float.

Definition read_params (lines : list string) : reply main_params :=
  reply_bind (ask_int (Some 2) None lines) (λ rows lines,
  reply_bind (ask_int (Some 2) None lines) (λ cols lines,
  reply_bind (ask_coord lines) (λ start lines,
  reply_bind (ask_coord lines) (λ end_ lines,
  reply_bind (ask_float 0 max_density lines) (λ density lines,
  reply_bind (ask_choice ["bfs"; "dfs"] lines) (λ algo lines,
  reply_bind (ask_choice ["y"; "n"] lines) (λ ensure lines,
  reply_bind (ask_choice ["y"; "n"] lines) (λ show_visited lines,
  reply_bind (ask_seed lines) (λ seed lines,
  Answer (mkParams rows cols start end_ density algo
            (bool_decide (ensure = "y")) (bool_decide (show_visited = "y")) seed)
         lines))))))))).

End Console.


(** * Specification-side notions *)

(** [v] is a cell the search may step to from [u]. *)
Definition nbr (m : Maze) (u v : Coord) : Prop := adjacent u v ∧ is_open m v.

Fixpoint adjacent_chain (p : list Coord) : Prop :=
  match p with
  | a :: rest => match rest with
                 | b :: _ => adjacent a b ∧ adjacent_chain rest
                 | [] => True
                 end
  | [] => True
  end.

(** A path of the grid: open cells, each 4-adjacent to the next, from
    [start] to [end]. *)
Definition is_path (m : Maze) (p : list Coord) : Prop :=
  head p = Some (start m) ∧ last p = Some (end_ m) ∧
  Forall (is_open m) p ∧ adjacent_chain p.

(** The number of steps of a path. *)
Definition edge_count (p : list Coord) : nat := Nat.pred (length p).

(** [walk m a b n]: [b] is reached from [a] in [n] steps through open cells. *)
Inductive walk (m : Maze) (a : Coord) : Coord → nat → Prop :=
  | walk_here : is_open m a → walk m a a 0
  | walk_step b c n : walk m a b n → nbr m b c → walk m a c (S n).

(** ** Fuel

    [approx r r']: [r'] is what [r] becomes with more fuel: the same
    result, unless [r] ran out of fuel. *)
Definition approx {A : Type} (r r' : result A) : Prop := r = OutOfFuel ∨ r = r'.


(** ** Invariants of the searches

    Both searches grow a tree rooted at [start]: every visited cell other
    than [start] has a visited parent from which it is one step away.  The
    depth [d] of a cell in that tree is ghost state of the proofs. *)

Definition tree_inv (m : Maze) (par : gmap Coord Coord) (vis : gset Coord)
    (d : Coord → nat) : Prop :=
  d (start m) = 0%nat ∧
  ∀ v, v ∈ vis → v ≠ start m →
    ∃ u, par !! v = Some u ∧ u ∈ vis ∧ nbr m u v ∧ d v = S (d u).

(** [d] with the depth of one cell replaced. *)
Definition upd (d : Coord → nat) (y : Coord) (n : nat) : Coord → nat :=
  λ v, if decide (v = y) then n else d v.

(** [branch m vis d p v]: [p] is the branch of the tree from [start] down
    to [v]. *)
Inductive branch (m : Maze) (vis : gset Coord) (d : Coord → nat)
  : list Coord → Coord → Prop :=
  | branch_root : start m ∈ vis → branch m vis d [start m] (start m)
  | branch_snoc p u v :
      branch m vis d p u → v ∈ vis → nbr m u v → d v = S (d u) →
      branch m vis d (p ++ [v]) v.

(** The cells a search can ever visit: the in-bounds cells, and [start]. *)
Definition cell_list (m : Maze) : list Coord :=
  r ← seqZ 0 (nrows m); (λ c, (r, c)) <$> seqZ 0 (ncols m).

Definition cells (m : Maze) : gset Coord := {[start m]} ∪ list_to_set (cell_list m).

(** Fuel that suffices for either search on [m]: three times the number of
    cells of the grid, plus three. *)
Definition enough_fuel (m : Maze) : nat := 3 * S (Z.to_nat (nrows m * ncols m)).

(** What decreases along [bfs_loop]. *)
Definition bfs_measure (m : Maze) (st : bfs_state) : nat :=
  2 * size (cells m ∖ bfs_visited st) + length (bfs_q st).

(** The invariant of [while q:].  [done] is the set of cells already taken
    from the queue. *)
Record bfs_inv (m : Maze) (d : Coord → nat) (done : gset Coord) (st : bfs_state)
  : Prop := mkBfsInv {
  bi_tree : tree_inv m (bfs_parents st) (bfs_visited st) d;
  bi_start : start m ∈ bfs_visited st;
  bi_cover : ∀ v, v ∈ bfs_visited st ↔ v ∈ done ∨ v ∈ bfs_q st;
  bi_cells : bfs_visited st ⊆ cells m;
  bi_sorted : StronglySorted (λ a b, d a ≤ d b)%nat (bfs_q st);
  bi_near : ∀ h v, head (bfs_q st) = Some h → v ∈ bfs_q st → (d v ≤ S (d h))%nat;
  bi_done_le : ∀ v w, v ∈ done → w ∈ bfs_q st → (d v ≤ d w)%nat;
  bi_closed : ∀ x y, x ∈ done → nbr m x y →
                y ∈ bfs_visited st ∧ (d y ≤ S (d x))%nat;
  bi_not_end : end_ m ∉ done
}.

(** The invariant of the inner [for] loop while [x], just taken from the
    queue, is expanded; [handled] are the neighbours already seen. *)
Record bfs_mid (m : Maze) (d : Coord → nat) (done : gset Coord) (x : Coord)
    (handled : list Coord) (st : bfs_state) : Prop := mkBfsMid {
  bm_tree : tree_inv m (bfs_parents st) (bfs_visited st) d;
  bm_start : start m ∈ bfs_visited st;
  bm_cover : ∀ v, v ∈ bfs_visited st ↔ v ∈ done ∨ v = x ∨ v ∈ bfs_q st;
  bm_cells : bfs_visited st ⊆ cells m;
  bm_sorted : StronglySorted (λ a b, d a ≤ d b)%nat (x :: bfs_q st);
  bm_near : ∀ v, v ∈ bfs_q st → (d v ≤ S (d x))%nat;
  bm_done_le : ∀ v, v ∈ done → (d v ≤ d x)%nat;
  bm_closed : ∀ x' y, x' ∈ done → nbr m x' y →
                y ∈ bfs_visited st ∧ (d y ≤ S (d x'))%nat;
  bm_not_end : end_ m ∉ done;
  bm_handled : ∀ y, y ∈ handled → y ∈ bfs_visited st ∧ (d y ≤ S (d x))%nat
}.

(** The invariant of [dfs] on the three shared variables. *)
Record dfs_inv (m : Maze) (d : Coord → nat) (st : dfs_state) : Prop := mkDfsInv {
  di_tree : tree_inv m (dfs_parents st) (dfs_visited st) d;
  di_cells : dfs_visited st ⊆ cells m;
  di_found : dfs_found st = true → end_ m ∈ dfs_visited st
}.

(** What holds when [dfs(u)] is called: once [found] is set nothing is asked
    of [u]; before, [u] is unvisited and is either [start] or a cell whose
    parent entry was just written by a visited neighbour. *)
Definition dfs_call_ok (m : Maze) (u : Coord) (st : dfs_state) : Prop :=
  (dfs_found st = true → start m ∈ dfs_visited st) ∧
  (dfs_found st = false →
     (u ∉ dfs_visited st) ∧ u ∈ cells m ∧
     (u = start m ∨
      (start m ∈ dfs_visited st ∧
       ∃ p, dfs_parents st !! u = Some p ∧ p ∈ dfs_visited st ∧ nbr m p u))).


(** What a finished search guarantees about its result: the visited cells
    form a tree rooted at [start]; a returned path is the branch of [end]. *)
Definition search_post (m : Maze) (res : option (list Coord) * gset Coord) : Prop :=
  ∃ (d : Coord → nat) (par : gmap Coord Coord),
    tree_inv m par res.2 d ∧ start m ∈ res.2 ∧ res.2 ⊆ cells m ∧
    match res.1 with
    | Some p => branch m res.2 d p (end_ m)
    | None => True
    end.

(** What [bfs] guarantees besides: the branch of [end] is no longer than
    any walk to [end], and a failed search has visited every reachable cell. *)
Definition bfs_post (m : Maze) (res : option (list Coord) * gset Coord) : Prop :=
  ∃ (d : Coord → nat) (par : gmap Coord Coord),
    tree_inv m par res.2 d ∧ start m ∈ res.2 ∧ res.2 ⊆ cells m ∧
    match res.1 with
    | Some p => branch m res.2 d p (end_ m) ∧
                ∀ n, walk m (start m) (end_ m) n → (d (end_ m) ≤ n)%nat
    | None => (end_ m ∉ res.2) ∧ ∀ v n, walk m (start m) v n → v ∈ res.2
    end.


(** A simple path from [start] to [end]: in-bounds open cells, consecutive
    ones 4-adjacent, none repeated. *)
Definition valid_simple_path (m : Maze) (p : list Coord) : Prop :=
  head p = Some (start m) ∧ last p = Some (end_ m) ∧
  Forall (in_bounds m) p ∧ Forall (is_open m) p ∧
  adjacent_chain p ∧ NoDup p.

(** A small grid used to instantiate the theorems:
<<
    S . .
    . # .
    . . E
>> *)
Definition sample_maze : Maze :=
  mkMaze [["."; "."; "."]; ["."; "#"; "."]; ["."; "."; "."]] (0, 0) (2, 2).


(** ** Grids as values *)

(** The row lengths of a list of rows. *)
Definition shape (g : list (list string)) : list nat := length <$> g.

(** [p] names a cell of [g]. *)
Definition inside (g : list (list string)) (p : Coord) : Prop :=
  0 <= p.1 ∧ 0 <= p.2 ∧ is_Some (grid_get g p).

(** [g] with the cell at [p] replaced, when there is such a cell. *)
Definition grid_set (g : list (list string)) (p : Coord) (x : string)
  : list (list string) :=
  match g !! Z.to_nat p.1 with
  | Some row => <[Z.to_nat p.1 := <[Z.to_nat p.2 := x]> row]> g
  | None => g
  end.

(** Every cell is a wall or open, as in a generated grid. *)
Definition plain_grid (m : Maze) : Prop :=
  Forall (Forall (λ s, s = WALL ∨ s = OPEN)) (grid m).

(** ** The rendering *)

Definition path_cells (path : option (list Coord)) : list Coord := default [] path.

Definition overlay_cells (visited : option (gset Coord)) : gset Coord :=
  default ∅ visited.

(** What the rendering shows at cell [c], where the grid has [s]: the path
    mark wins over the endpoint letters, these over the visited mark. *)
Definition overlay_char (m : Maze) (path : option (list Coord))
    (visited : option (gset Coord)) (c : Coord) (s : string) : string :=
  if decide (c ∈ path_cells path) then STAR
  else if decide (c = end_ m) then "E"
  else if decide (c = start m) then "S"
  else if decide (c ∈ overlay_cells visited ∧ s = OPEN) then MIDDOT
  else s.

(** The path [bfs] finds on [sample_maze]. *)
Definition sample_path : list Coord := [(0, 0); (1, 0); (2, 0); (2, 1); (2, 2)].


(** ** The generator's parameters and the random source *)

Definition density_valid (density : float) : Prop :=
  (0 <=? density)%float = true ∧ (density <? 1)%float = true.

Definition coord_valid (rows cols : Z) (p : Coord) : Prop :=
  0 <= p.1 < rows ∧ 0 <= p.2 < cols.

(** A valid parameter bundle of the generator. *)
Definition valid_params (rows cols : Z) (start end_ : Coord) (density : float)
  : Prop :=
  2 <= rows ∧ 2 <= cols ∧ coord_valid rows cols start ∧
  coord_valid rows cols end_ ∧ start ≠ end_ ∧ density_valid density.

Section RandomSource.

Variable Rng : Type.
Variable rng_random : Rng → float * Rng.

(** The source after [n] draws, and the value of its [k]-th next draw
    (counted from 0). *)
Fixpoint rng_skip (n : nat) (rng : Rng) : Rng :=
  match n with
  | O => rng
  | S n' => rng_skip n' (rng_random rng).2
  end.

Definition draw (k : nat) (rng : Rng) : float := (rng_random (rng_skip k rng)).1.

(** The cell decided by the [k]-th draw. *)
Definition drawn_cell (density : float) (rng : Rng) (k : nat) : string :=
  if (draw k rng <? density)%float then WALL else OPEN.

(** The source as one generate-plus-search cycle leaves it, the source
    before cycle [j] (counted from 0), and what cycle [j] produces. *)
Definition next_cycle_rng (rows cols : Z) (start end_ : Coord) (density : float)
    (rng : Rng) : Rng :=
  match Maze_random Rng rng_random rows cols start end_ density rng with
  | Ok (_, rng') => rng'
  | _ => rng
  end.

Fixpoint cycle_rng (rows cols : Z) (start end_ : Coord) (density : float)
    (j : nat) (rng : Rng) : Rng :=
  match j with
  | O => rng
  | S j' => cycle_rng rows cols start end_ density j'
              (next_cycle_rng rows cols start end_ density rng)
  end.

Definition nth_cycle (fuel : nat) (rows cols : Z) (start end_ : Coord)
    (density : float) (algo : string) (j : nat) (rng : Rng)
  : result (Maze * option (list Coord) * gset Coord) :=
  '(m, _) ← Maze_random Rng rng_random rows cols start end_ density
              (cycle_rng rows cols start end_ density j rng);
  '(path, visited) ← search fuel algo m;
  Ok (m, path, visited).

End RandomSource.


(** Two sources, possibly of different kinds, that produce the same
    sequence of draws: what two sources seeded alike are to each other. *)
Definition same_draws {R1 R2 : Type} (random1 : R1 → float * R1)
    (random2 : R2 → float * R2) (a : R1) (b : R2) : Prop :=
  ∀ k, draw R1 random1 k a = draw R2 random2 k b.

(** The maze of a generation result, without the random source. *)
Definition maze_of {R : Type} (r : result (Maze * R)) : result Maze :=
  '(m, _) ← r; Ok m.


(** A small deterministic random source used to instantiate the theorems:
    the state counts the draws, and the draws repeat 0.125, 0.75, 0.5,
    0.875. *)
Definition sample_draws : list float := [0.125; 0.75; 0.5; 0.875]%float.

Definition counter_random (n : nat) : float * nat :=
  (nth (n mod 4) sample_draws 0%float, S n).

(** The same draws from a source whose state is an integer. *)
Definition zcounter_random (z : Z) : float * Z :=
  (nth (Z.to_nat z mod 4) sample_draws 0%float, z + 1).


(** ** Further notions *)

(** [l] follows the parent map: each element is the recorded parent of the
    next one, and no element after the first is [s]. *)
Fixpoint linked (parents : gmap Coord Coord) (s : Coord) (l : list Coord) : Prop :=
  match l with
  | a :: rest => match rest with
                 | b :: _ => parents !! b = Some a ∧ b ≠ s ∧ linked parents s rest
                 | [] => True
                 end
  | [] => True
  end.

(** The number of unit moves between two cells when nothing is in the way. *)
Definition manhattan (p q : Coord) : nat :=
  Z.to_nat (Z.abs (q.1 - p.1) + Z.abs (q.2 - p.2)).

(** No cell of the grid is a wall. *)
Definition wall_free (m : Maze) : Prop :=
  Forall (Forall (λ s, s ≠ WALL)) (grid m).

(** [stack] holds the cells whose expansion is not finished: every other
    visited cell has all its neighbours visited. *)
Definition closed_except (m : Maze) (stack vis : gset Coord) : Prop :=
  ∀ x y, x ∈ vis → x ∉ stack → nbr m x y → y ∈ vis.



Definition blocked_maze : Maze :=
  mkMaze [["."; "."; "."]; ["#"; "#"; "#"]; ["."; "."; "."]] (0, 0) (2, 2).


(** [v] respects the optional bounds of [ask_int]. *)
Definition int_in_range (min_val max_val : option Z) (v : Z) : Prop :=
  (∀ lo, min_val = Some lo → lo <= v) ∧ (∀ hi, max_val = Some hi → v <= hi).


Section ConsoleSpec.

Variable strip : string → string.
Variable lower : string → string.
Variable int_of : string → option Z.
Variable float_of : string → option float.

(** What each prompt makes of one line: the value it answers with, or
    [None] when it asks again. *)
Definition accept_int (min_val max_val : option Z) (line : string) : option Z :=
  match int_of (strip line) with
  | Some v =>
      if match min_val with Some lo => v <? lo | None => false end then None
      else if match max_val with Some hi => v >? hi | None => false end then None
      else Some v
  | None => None
  end.

Definition accept_coord (line : string) : option Coord :=
  match split_on ","%char (strip line) with
  | [r_str; c_str] =>
      match int_of r_str, int_of c_str with
      | Some r, Some c => Some (r, c)
      | _, _ => None
      end
  | _ => None
  end.

Definition accept_float (min_val max_val : float) (line : string) : option float :=
  match float_of (strip line) with
  | Some v => if (min_val <=? v)%float && (v <=? max_val)%float
              then Some v else None
  | None => None
  end.

Definition accept_choice (choices : list string) (line : string) : option string :=
  if decide (lower (strip line) ∈ lower <$> choices)
  then Some (lower (strip line)) else None.

End ConsoleSpec.

(** A sample console for examples: [strip] removes blanks at both ends,
    [lower] folds ASCII capitals, [int] reads decimal digits with an
    optional minus sign and [float] a handful of literals. *)
Fixpoint lstrip (s : string) : string :=
  match s with
  | String " " rest => lstrip rest
  | _ => s
  end.

Definition sample_strip (s : string) : string :=
  String.rev (lstrip (String.rev (lstrip s))).

Definition lower_ascii (c : ascii) : ascii :=
  let n := nat_of_ascii c in
  if (65 <=? n)%nat && (n <=? 90)%nat then ascii_of_nat (n + 32) else c.

Fixpoint sample_lower (s : string) : string :=
  match s with
  | EmptyString => EmptyString
  | String c rest => String (lower_ascii c) (sample_lower rest)
  end.

Definition digit_of (c : ascii) : option Z :=
  let n := Z.of_nat (nat_of_ascii c) in
  if (48 <=? n) && (n <=? 57) then Some (n - 48) else None.

Fixpoint digits_of (acc : Z) (s : string) : option Z :=
  match s with
  | EmptyString => Some acc
  | String c rest =>
      match digit_of c with
      | Some d => digits_of (10 * acc + d) rest
      | None => None
      end
  end.

Definition sample_int_of (s : string) : option Z :=
  match s with
  | EmptyString => None
  | String "-" EmptyString => None
  | String "-" rest => Z.opp <$> digits_of 0 rest
  | _ => digits_of 0 s
  end.

Definition sample_float_of (s : string) : option float :=
  if decide (s = "0.25") then Some 0.25%float
  else if decide (s = "0.5") then Some 0.5%float
  else if decide (s = "1.5") then Some 1.5%float
  else if decide (s = "nan") then Some PrimFloat.nan
  else if decide (s = "inf") then Some PrimFloat.infinity
  else None.

(** Answers to the nine prompts of [main], with some the prompts refuse. *)
Definition sample_lines : list string :=
  ["1"; " 3 "; "three"; "3"; "0;0"; "0,0"; "2,2"; "nan"; "1.5"; "0.25";
   "a*"; "BFS"; "y"; "N"; ""; "maze.txt"].

(** The same answers with a seed that is not an integer. *)
Definition sample_lines_bad_seed : list string :=
  ["3"; "3"; "0,0"; "2,2"; "0.25"; "bfs"; "y"; "n"; "12a"].


(** * Proofs *)

(** ** Indexing *)

Lemma norm_index_nonneg {A : Type} (l : list A) (i : Z) :
  0 <= i < len l → norm_index l i = Some (Z.to_nat i).
Proof.
  intros Hi. unfold norm_index.
  destruct (Z.ltb_spec i 0) as [?|_]; [lia|].
  destruct (Z.leb_spec 0 i), (Z.ltb_spec i (len l)); simpl; auto; lia.
Qed.

Lemma getitem_lookup {A : Type} (l : list A) (i : Z) (x : A) :
  0 <= i → l !! Z.to_nat i = Some x → getitem l i = Ok x.
Proof.
  intros Hi Hx. unfold getitem.
  rewrite norm_index_nonneg, Hx; [done|].
  apply lookup_lt_Some in Hx. unfold len. lia.
Qed.

Lemma getitem_in_range {A : Type} (l : list A) (i : Z) :
  0 <= i < len l → ∃ x, l !! Z.to_nat i = Some x ∧ getitem l i = Ok x.
Proof.
  intros Hi. destruct (lookup_lt_is_Some_2 l (Z.to_nat i)) as [x Hx].
  { unfold len in Hi. lia. }
  exists x. split; [done|]. apply getitem_lookup; [lia|done].
Qed.

Lemma setitem_in_range {A : Type} (l : list A) (i : Z) (x : A) :
  0 <= i < len l → setitem l i x = Ok (<[Z.to_nat i := x]> l).
Proof. intros Hi. unfold setitem. by rewrite norm_index_nonneg. Qed.

(** ** Bounds and open cells *)

Lemma in_boundsb_spec (m : Maze) (p : Coord) :
  in_boundsb m p = true ↔ in_bounds m p.
Proof.
  unfold in_boundsb, in_bounds.
  rewrite !andb_true_iff, !Z.leb_le, !Z.ltb_lt. tauto.
Qed.

Lemma is_openb_spec (m : Maze) (p : Coord) :
  is_openb m p = true ↔ is_open m p.
Proof.
  unfold is_openb, is_open.
  rewrite andb_true_iff, in_boundsb_spec.
  destruct (cell_at m p) as [s|]; split.
  - intros [Hb Hs]. apply bool_decide_eq_true in Hs. eauto.
  - intros [Hb (s' & [= <-] & Hs)]. split; [done|]. by apply bool_decide_eq_true.
  - intros [_ [=]].
  - intros [_ (s' & [=] & _)].
Qed.

Lemma rectangular_row (m : Maze) (r : Z) (row : list string) :
  rectangular m → grid m !! Z.to_nat r = Some row → len row = ncols m.
Proof.
  intros Hrect Hrow. unfold rectangular in Hrect.
  rewrite Forall_forall in Hrect. apply Hrect.
  eapply list_elem_of_lookup_2. exact Hrow.
Qed.

Lemma in_bounds_cell (m : Maze) (p : Coord) :
  rectangular m → in_bounds m p →
  ∃ s, cell_at m p = Some s ∧ getitem2 (grid m) p.1 p.2 = Ok s.
Proof.
  intros Hrect [Hr Hc]. unfold nrows in Hr.
  destruct (getitem_in_range (grid m) p.1 Hr) as (row & Hrow & Hget).
  pose proof (rectangular_row m p.1 row Hrect Hrow) as Hlen.
  destruct (getitem_in_range row p.2) as (s & Hs & Hget'); [lia|].
  exists s. unfold cell_at, grid_get, getitem2. rewrite Hrow, Hget. simpl. by rewrite Hs.
Qed.

Lemma getitem_first_row (m : Maze) (r : Z) :
  0 <= r < len (grid m) → ∃ row0, getitem (grid m) 0 = Ok row0 ∧ len row0 = ncols m.
Proof.
  intros Hr. unfold ncols. destruct (grid m) as [|row0 rest].
  - unfold len in Hr. simpl in Hr. lia.
  - exists row0. split; [|done]. by apply getitem_lookup.
Qed.

(** ** [neighbors] *)

Lemma neighbors_dirs_cons (m : Maze) (r c dr dc : Z) (ds : list (Z * Z)) :
  rectangular m →
  neighbors_dirs m r c ((dr, dc) :: ds) =
    (rest ← neighbors_dirs m r c ds;
     Ok (if is_openb m (r + dr, c + dc) then (r + dr, c + dc) :: rest else rest)).
Proof.
  intros Hrect. simpl neighbors_dirs.
  assert (Hskip : in_boundsb m (r + dr, c + dc) = false →
    neighbors_dirs m r c ds =
      (rest ← neighbors_dirs m r c ds;
       Ok (if is_openb m (r + dr, c + dc) then (r + dr, c + dc) :: rest else rest))).
  { intros Hb. unfold is_openb. rewrite Hb. simpl.
    by destruct (neighbors_dirs m r c ds). }
  destruct ((0 <=? r + dr) && (r + dr <? len (grid m))) eqn:Hr.
  - apply andb_true_iff in Hr as [Hr1 Hr2].
    apply Z.leb_le in Hr1. apply Z.ltb_lt in Hr2.
    destruct (getitem_first_row m (r + dr)) as (row0 & -> & Hlen); [lia|].
    simpl. rewrite Hlen.
    destruct ((0 <=? c + dc) && (c + dc <? ncols m)) eqn:Hc.
    + apply andb_true_iff in Hc as [Hc1 Hc2].
      apply Z.leb_le in Hc1. apply Z.ltb_lt in Hc2.
      assert (Hb : in_bounds m (r + dr, c + dc)).
      { unfold in_bounds, nrows. simpl. lia. }
      destruct (in_bounds_cell m _ Hrect Hb) as (s & Hs & Hget).
      simpl in Hget. rewrite Hget. simpl.
      unfold is_openb. apply in_boundsb_spec in Hb. rewrite Hb, Hs. simpl.
      destruct (neighbors_dirs m r c ds); simpl; try done.
      destruct (decide (s ≠ WALL)) as [Hs'|Hs'].
      * by rewrite bool_decide_eq_true_2.
      * by rewrite bool_decide_eq_false_2.
    + apply Hskip. unfold in_boundsb. simpl.
      rewrite <- !andb_assoc, Hc. by rewrite !andb_false_r.
  - apply Hskip. unfold in_boundsb, nrows. simpl. by rewrite Hr.
Qed.

Lemma neighbors_dirs_filter (m : Maze) (r c : Z) (ds : list (Z * Z)) :
  rectangular m →
  neighbors_dirs m r c ds =
    Ok (filter (λ p, is_openb m p = true) (map (λ d, (r + d.1, c + d.2)) ds)).
Proof.
  intros Hrect. induction ds as [|[dr dc] ds IH]; [done|].
  rewrite neighbors_dirs_cons, IH by done. simpl.
  rewrite filter_cons. by destruct (is_openb m (r + dr, c + dc)) eqn:Ho;
    [rewrite decide_True|rewrite decide_False; [|congruence]].
Qed.

Lemma neighbors_filter (m : Maze) (rc : Coord) :
  rectangular m →
  neighbors m rc = Ok (filter (λ p, is_openb m p = true) (around rc)).
Proof.
  intros Hrect. destruct rc as [r c]. unfold neighbors.
  rewrite neighbors_dirs_filter by done. do 2 f_equal.
  unfold around, directions. simpl. repeat f_equal; lia.
Qed.

Lemma elem_of_around (p q : Coord) : q ∈ around p ↔ adjacent p q.
Proof.
  destruct p as [r c], q as [r' c']. unfold around, adjacent. simpl.
  rewrite !elem_of_cons, elem_of_nil.
  split.
  - intros [[= -> ->]|[[= -> ->]|[[= -> ->]|[[= -> ->]|[]]]]]; lia.
  - intros [[-> [->| ->]]|[-> [->| ->]]]; auto 6.
Qed.

Lemma neighbors_spec (m : Maze) (u : Coord) :
  rectangular m →
  ∃ nbs, neighbors m u = Ok nbs ∧ ∀ v, v ∈ nbs ↔ nbr m u v.
Proof.
  intros Hrect. eexists. split; [by apply neighbors_filter|].
  intros v. rewrite list_elem_of_filter, is_openb_spec, elem_of_around.
  unfold nbr. tauto.
Qed.

(** ** Branches of the search tree and [reconstruct_path] *)

Lemma adjacent_chain_snoc (p : list Coord) (u v : Coord) :
  adjacent_chain (p ++ [u]) → adjacent u v → adjacent_chain ((p ++ [u]) ++ [v]).
Proof.
  intros Hp Huv. induction p as [|a p IH]; simpl in *; [done|].
  destruct (p ++ [u]) as [|b rest] eqn:E.
  - by destruct p.
  - simpl. destruct Hp as [Hab Hrest]. split; [done|]. by apply IH.
Qed.

Section Branch.

Context (m : Maze) (vis : gset Coord) (d : Coord → nat).

Lemma branch_snoc_shape (p : list Coord) (v : Coord) :
  branch m vis d p v → ∃ p', p = p' ++ [v].
Proof. intros [|p0 u v0 _ _ _ _]; [by exists []|by exists p0]. Qed.

Lemma branch_head (p : list Coord) (v : Coord) :
  branch m vis d p v → head p = Some (start m).
Proof.
  induction 1 as [|p u v Hp IH _ _ _]; [done|].
  destruct p; [done|]. exact IH.
Qed.

Lemma branch_last (p : list Coord) (v : Coord) :
  branch m vis d p v → last p = Some v.
Proof. intros [|p0 u v0 _ _ _ _]; [done|]. apply last_snoc. Qed.

Lemma branch_length (p : list Coord) (v : Coord) :
  d (start m) = 0%nat → branch m vis d p v → length p = S (d v).
Proof.
  intros d_start. induction 1 as [|p u v Hp IH _ _ Hd]; simpl.
  - by rewrite d_start.
  - rewrite length_app, IH, Hd. simpl. lia.
Qed.

Lemma branch_visited (p : list Coord) (v : Coord) :
  branch m vis d p v → Forall (λ x, x ∈ vis) p.
Proof.
  induction 1 as [|p u v Hp IH Hv _ _]; [by apply Forall_singleton|].
  apply Forall_app. split; [done|]. by apply Forall_singleton.
Qed.

Lemma branch_open (p : list Coord) (v : Coord) :
  is_open m (start m) → branch m vis d p v → Forall (is_open m) p.
Proof.
  intros Hs. induction 1 as [|p u v Hp IH _ [_ Hv] _]; [by apply Forall_singleton|].
  apply Forall_app. split; [done|]. by apply Forall_singleton.
Qed.

Lemma branch_adjacent (p : list Coord) (v : Coord) :
  branch m vis d p v → adjacent_chain p.
Proof.
  induction 1 as [|p u v Hp IH _ [Huv _] _]; [done|].
  destruct (branch_snoc_shape _ _ Hp) as [p' ->].
  by apply adjacent_chain_snoc.
Qed.

Lemma branch_depths (p : list Coord) (v : Coord) :
  branch m vis d p v → Forall (λ x, (d x ≤ d v)%nat) p.
Proof.
  induction 1 as [|p u v Hp IH _ _ Hd]; [by apply Forall_singleton|].
  apply Forall_app. split; [|by apply Forall_singleton].
  eapply Forall_impl; [exact IH|]. simpl. intros x Hx. lia.
Qed.

Lemma branch_NoDup (p : list Coord) (v : Coord) :
  branch m vis d p v → NoDup p.
Proof.
  induction 1 as [|p u v Hp IH _ _ Hd]; [apply NoDup_singleton|].
  apply NoDup_app. split; [done|]. split; [|apply NoDup_singleton].
  intros x Hx Hxv. apply list_elem_of_singleton in Hxv as ->.
  pose proof (branch_depths _ _ Hp) as Hle.
  rewrite Forall_forall in Hle. apply Hle in Hx. lia.
Qed.

Lemma branch_is_path (p : list Coord) :
  is_open m (start m) → branch m vis d p (end_ m) → is_path m p.
Proof.
  intros Hs Hp. unfold is_path. repeat split.
  - by eapply branch_head.
  - by eapply branch_last.
  - by eapply branch_open.
  - by eapply branch_adjacent.
Qed.

(** Following the parent map from a visited cell never misses an entry and
    arrives at [start] after [d v] lookups. *)
Lemma reconstruct_loop_branch (par : gmap Coord Coord) (fuel : nat) :
  tree_inv m par vis d → start m ∈ vis →
  ∀ (v : Coord) (acc : list Coord),
    v ∈ vis → (d v < fuel)%nat →
    ∃ p', branch m vis d (p' ++ [v]) v ∧
          reconstruct_loop fuel par (start m) v acc = Ok (p' ++ reverse acc).
Proof.
  intros [_ Htree] Hs. induction fuel as [|fuel IH]; intros v acc Hv Hd; [lia|].
  simpl. destruct (decide (v ≠ start m)) as [Hne|Heq].
  - destruct (Htree v Hv Hne) as (u & -> & Hu & Hnbr & Hdv).
    destruct (IH u (acc ++ [u]) Hu) as (p' & Hbr & ->); [lia|].
    exists (p' ++ [u]). split.
    + by eapply branch_snoc.
    + by rewrite reverse_app, <- app_assoc.
  - apply dec_stable in Heq as ->. exists []. split; [|done].
    by apply branch_root.
Qed.

Lemma reconstruct_path_branch (par : gmap Coord Coord) (fuel : nat) (v : Coord) :
  tree_inv m par vis d → start m ∈ vis → v ∈ vis → (d v < fuel)%nat →
  ∃ p, reconstruct_path fuel par v (start m) = Ok p ∧ branch m vis d p v.
Proof.
  intros Htree Hs Hv Hd. unfold reconstruct_path.
  destruct (reconstruct_loop_branch par fuel Htree Hs v [v] Hv Hd)
    as (p' & Hbr & ->).
  by exists (p' ++ [v]).
Qed.

End Branch.

(** ** The cells of a grid *)

Lemma length_cell_list (m : Maze) :
  length (cell_list m) = Z.to_nat (nrows m * ncols m).
Proof.
  unfold cell_list.
  assert (H : ∀ l : list Z,
    length (l ≫= λ r, (λ c, (r, c)) <$> seqZ 0 (ncols m))
    = (length l * Z.to_nat (ncols m))%nat).
  { induction l as [|r l IH]; [done|].
    rewrite bind_cons, length_app, length_fmap, length_seqZ, IH. simpl. lia. }
  rewrite H, length_seqZ.
  assert (0 <= nrows m) by (unfold nrows, len; lia).
  assert (0 <= ncols m) by (unfold ncols, len; destruct (grid m); lia).
  lia.
Qed.

Lemma elem_of_cell_list (m : Maze) (p : Coord) :
  p ∈ cell_list m ↔ in_bounds m p.
Proof.
  unfold cell_list, in_bounds. rewrite list_elem_of_bind. split.
  - intros (r & Hp & Hr). apply list_elem_of_fmap in Hp as (c & -> & Hc).
    apply elem_of_seqZ in Hr, Hc. simpl. lia.
  - intros [Hr Hc]. exists p.1. split.
    + apply list_elem_of_fmap. exists p.2. split; [by destruct p|].
      apply elem_of_seqZ. lia.
    + apply elem_of_seqZ. lia.
Qed.

Lemma size_list_to_set_le (l : list Coord) :
  (size (list_to_set l : gset Coord) ≤ length l)%nat.
Proof.
  induction l as [|x l IH].
  - rewrite list_to_set_nil, size_empty. simpl. lia.
  - rewrite list_to_set_cons, size_union_alt, size_singleton. simpl.
    assert (list_to_set l ∖ {[x]} ⊆ (list_to_set l : gset Coord)) as Hsub
      by set_solver.
    apply subseteq_size in Hsub. lia.
Qed.

Lemma size_cells (m : Maze) :
  (size (cells m) ≤ S (Z.to_nat (nrows m * ncols m)))%nat.
Proof.
  unfold cells. rewrite size_union_alt, size_singleton.
  pose proof (size_list_to_set_le (cell_list m)) as Hle.
  rewrite length_cell_list in Hle.
  assert (list_to_set (cell_list m) ∖ {[start m]}
            ⊆ (list_to_set (cell_list m) : gset Coord)) as Hsub by set_solver.
  apply subseteq_size in Hsub. lia.
Qed.

Lemma open_in_cells (m : Maze) (p : Coord) : is_open m p → p ∈ cells m.
Proof.
  intros [Hb _]. unfold cells. apply elem_of_union_r, elem_of_list_to_set.
  by apply elem_of_cell_list.
Qed.

Lemma start_in_cells (m : Maze) : start m ∈ cells m.
Proof. unfold cells. set_solver. Qed.

Lemma size_unvisited_shrinks (m : Maze) (vis : gset Coord) (y : Coord) :
  y ∈ cells m → y ∉ vis →
  (S (size (cells m ∖ ({[y]} ∪ vis))) ≤ size (cells m ∖ vis))%nat.
Proof.
  intros Hy Hv.
  assert (cells m ∖ ({[y]} ∪ vis) ⊂ cells m ∖ vis) as Hsub.
  { split; [set_solver|]. intros Hsub.
    assert (y ∈ cells m ∖ ({[y]} ∪ vis)) as Hy'; [|set_solver].
    apply Hsub. set_solver. }
  apply subset_size in Hsub. lia.
Qed.

Lemma NoDup_length_le_size (l : list Coord) (X : gset Coord) :
  NoDup l → Forall (λ x, x ∈ X) l → (length l ≤ size X)%nat.
Proof.
  intros Hnd Hall. rewrite <- (size_list_to_set (C := gset Coord) l) by done.
  apply subseteq_size. intros x Hx. apply elem_of_list_to_set in Hx.
  rewrite Forall_forall in Hall. by apply Hall.
Qed.

(** The depth of a visited cell is less than the number of visited cells. *)
Lemma tree_depth_bound (m : Maze) (par : gmap Coord Coord) (vis : gset Coord)
    (d : Coord → nat) (v : Coord) :
  tree_inv m par vis d → start m ∈ vis → v ∈ vis → (d v < size vis)%nat.
Proof.
  intros Htree Hs Hv.
  pose proof Htree as [Hd0 _].
  destruct (reconstruct_path_branch m vis d par (S (d v)) v) as (p & _ & Hbr);
    [done..|lia|].
  pose proof (branch_length m vis d p v Hd0 Hbr) as Hlen.
  pose proof (NoDup_length_le_size p vis (branch_NoDup m vis d p v Hbr)
                (branch_visited m vis d p v Hbr)).
  lia.
Qed.

(** ** Breadth-first search *)

Lemma upd_eq (d : Coord → nat) (y : Coord) (n : nat) : upd d y n y = n.
Proof. unfold upd. by rewrite decide_True. Qed.

Lemma upd_ne (d : Coord → nat) (y v : Coord) (n : nat) :
  v ≠ y → upd d y n v = d v.
Proof. intros Hne. unfold upd. by rewrite decide_False. Qed.

Lemma sorted_snoc (d : Coord → nat) (l : list Coord) (y : Coord) :
  StronglySorted (λ a b, d a ≤ d b)%nat l →
  (∀ a, a ∈ l → (d a ≤ d y)%nat) →
  StronglySorted (λ a b, d a ≤ d b)%nat (l ++ [y]).
Proof.
  induction 1 as [|a l Hl IH Ha]; intros Hle; simpl.
  - repeat constructor.
  - constructor.
    + apply IH. intros b Hb. apply Hle. by right.
    + apply Forall_app. split; [done|].
      apply Forall_singleton, Hle. by left.
Qed.

Lemma sorted_agree (d d' : Coord → nat) (l : list Coord) :
  (∀ a, a ∈ l → d' a = d a) →
  StronglySorted (λ a b, d a ≤ d b)%nat l →
  StronglySorted (λ a b, d' a ≤ d' b)%nat l.
Proof.
  intros Hag. induction 1 as [|a l Hl IH Ha]; constructor.
  - apply IH. intros b Hb. apply Hag. by right.
  - rewrite Forall_forall in Ha |- *. intros b Hb.
    rewrite !Hag; [by apply Ha|by right|by left].
Qed.

Lemma tree_inv_insert (m : Maze) (par : gmap Coord Coord) (vis : gset Coord)
    (d : Coord → nat) (y u : Coord) :
  tree_inv m par vis d → y ∉ vis → tree_inv m (<[y := u]> par) vis d.
Proof.
  intros [Hd0 Htree] Hy. split; [done|]. intros v Hv Hne.
  destruct (Htree v Hv Hne) as (p & Hp & Hrest). exists p. split; [|done].
  rewrite lookup_insert_ne; [done|]. by intros ->.
Qed.

(** Visiting a fresh cell [y] from its visited parent [x]. *)
Lemma tree_inv_visit (m : Maze) (par : gmap Coord Coord) (vis : gset Coord)
    (d : Coord → nat) (x y : Coord) :
  tree_inv m par vis d → start m ∈ vis → x ∈ vis → y ∉ vis →
  par !! y = Some x → nbr m x y →
  tree_inv m par ({[y]} ∪ vis) (upd d y (S (d x))).
Proof.
  intros [Hd0 Htree] Hs Hx Hy Hpar Hnbr. split.
  - rewrite upd_ne; [done|]. by intros <-.
  - intros v Hv Hne. destruct (decide (v = y)) as [->|Hvy].
    + exists x. rewrite upd_eq, upd_ne by (by intros ->).
      repeat split; [done|set_solver|apply Hnbr..].
    + assert (v ∈ vis) as Hv' by set_solver.
      destruct (Htree v Hv' Hne) as (u & Hu & Huv & Hn & Hd).
      exists u. rewrite !upd_ne; [|by intros ->|done].
      repeat split; [done|set_solver|apply Hn..|done].
Qed.

Lemma bfs_visit_mid (m : Maze) (d : Coord → nat) (done : gset Coord)
    (x y : Coord) (handled : list Coord) (st : bfs_state) :
  bfs_mid m d done x handled st → nbr m x y →
  ∃ d', bfs_mid m d' done x (handled ++ [y]) (bfs_visit x st y) ∧
        (bfs_measure m (bfs_visit x st y) ≤ bfs_measure m st)%nat.
Proof.
  intros [Htree Hs Hcov Hcells Hsort Hnear Hdone Hclosed Hend Hhand] Hnbr.
  assert (x ∈ bfs_visited st) as Hx by (apply Hcov; auto).
  unfold bfs_visit. destruct (decide (y ∉ bfs_visited st)) as [Hy|Hy].
  - (* a new cell *)
    set (d' := upd d y (S (d x))).
    assert (∀ v, v ∈ bfs_visited st → d' v = d v) as Hag.
    { intros v Hv. apply upd_ne. by intros ->. }
    assert (∀ v, v ∈ bfs_q st → v ∈ bfs_visited st) as Hq.
    { intros v Hv. apply Hcov. auto. }
    assert (∀ v, v ∈ done → v ∈ bfs_visited st) as Hd.
    { intros v Hv. apply Hcov. auto. }
    exists d'. split; [constructor; simpl|].
    + apply tree_inv_visit; try done.
      * by apply tree_inv_insert.
      * apply lookup_insert_eq.
    + set_solver.
    + intros v. rewrite elem_of_union, elem_of_singleton, Hcov, elem_of_app,
        list_elem_of_singleton. tauto.
    + pose proof (open_in_cells m y (proj2 Hnbr)). set_solver.
    + change (x :: bfs_q st ++ [y]) with ((x :: bfs_q st) ++ [y]).
      apply sorted_snoc.
      * eapply sorted_agree; [|exact Hsort].
        intros a [->|Ha]%elem_of_cons; apply Hag; auto.
      * intros a Ha. unfold d' at 2. rewrite upd_eq.
        apply elem_of_cons in Ha as [->|Ha].
        -- rewrite Hag by done. lia.
        -- rewrite Hag by auto. by apply Hnear.
    + intros v [Hv| ->%list_elem_of_singleton]%elem_of_app.
      * rewrite !Hag by auto. by apply Hnear.
      * unfold d' at 1. rewrite upd_eq, Hag by done. lia.
    + intros v Hv. rewrite !Hag by auto. by apply Hdone.
    + intros x' y' Hx' Hn. destruct (Hclosed x' y' Hx' Hn) as [Hy' Hle].
      split; [set_solver|]. rewrite !Hag by auto. done.
    + done.
    + intros y' [Hy'| ->%list_elem_of_singleton]%elem_of_app.
      * destruct (Hhand y' Hy') as [Hv Hle]. split; [set_solver|].
        rewrite !Hag by auto. done.
      * split; [set_solver|]. unfold d' at 1. rewrite upd_eq, Hag by done. lia.
    + unfold bfs_measure. simpl. rewrite length_app. simpl.
      pose proof (size_unvisited_shrinks m (bfs_visited st) y
                    (open_in_cells m y (proj2 Hnbr)) Hy).
      lia.
  - (* already visited *)
    apply dec_stable in Hy. exists d. split; [|done].
    constructor; try done.
    intros y' [Hy'| ->%list_elem_of_singleton]%elem_of_app; [by apply Hhand|].
    split; [done|].
    apply Hcov in Hy as [Hy|[->|Hy]].
    + pose proof (Hdone y Hy). lia.
    + lia.
    + by apply Hnear.
Qed.

Lemma bfs_foldl_mid (m : Maze) (done : gset Coord) (x : Coord) (nbs : list Coord) :
  (∀ y, y ∈ nbs → nbr m x y) →
  ∀ (d : Coord → nat) (handled : list Coord) (st : bfs_state),
    bfs_mid m d done x handled st →
    ∃ d', bfs_mid m d' done x (handled ++ nbs) (foldl (bfs_visit x) st nbs) ∧
          (bfs_measure m (foldl (bfs_visit x) st nbs) ≤ bfs_measure m st)%nat.
Proof.
  induction nbs as [|y nbs IH]; intros Hnbs d handled st Hmid.
  - exists d. rewrite app_nil_r. done.
  - destruct (bfs_visit_mid m d done x y handled st Hmid) as (d1 & Hmid1 & Hle1).
    { apply Hnbs. by left. }
    destruct (IH (λ y' Hy', Hnbs y' (list_elem_of_further _ _ _ Hy'))
                d1 (handled ++ [y]) _ Hmid1) as (d2 & Hmid2 & Hle2).
    exists d2. simpl. rewrite <- app_assoc in Hmid2. split; [done|lia].
Qed.

Lemma bfs_inv_pop (m : Maze) (d : Coord → nat) (done : gset Coord)
    (x : Coord) (q : list Coord) (par : gmap Coord Coord) (vis : gset Coord) :
  bfs_inv m d done (mkBfs (x :: q) par vis) →
  bfs_mid m d done x [] (mkBfs q par vis).
Proof.
  intros [Htree Hs Hcov Hcells Hsort Hnear Hdone Hclosed Hend]. simpl in *.
  constructor; simpl; try done.
  - intros v. rewrite Hcov, elem_of_cons. tauto.
  - intros v Hv. apply (Hnear x v); [done|by right].
  - intros v Hv. apply Hdone; [done|by left].
  - intros y Hy. by apply elem_of_nil in Hy.
Qed.

Lemma bfs_mid_finish (m : Maze) (d : Coord → nat) (done : gset Coord)
    (x : Coord) (nbs : list Coord) (st : bfs_state) :
  bfs_mid m d done x nbs st → (∀ y, nbr m x y → y ∈ nbs) → x ≠ end_ m →
  bfs_inv m d ({[x]} ∪ done) st.
Proof.
  intros [Htree Hs Hcov Hcells Hsort Hnear Hdone Hclosed Hend Hhand] Hall Hne.
  apply StronglySorted_inv in Hsort as [Hsort Hx].
  rewrite Forall_forall in Hx.
  constructor; try done.
  - intros v. rewrite Hcov, elem_of_union, elem_of_singleton. tauto.
  - intros h v Hh Hv. pose proof (Hnear v Hv).
    assert (d x ≤ d h)%nat; [|lia].
    apply Hx. destruct (bfs_q st); [done|]. injection Hh as ->. by left.
  - intros v w [->%elem_of_singleton|Hv]%elem_of_union Hw.
    + by apply Hx.
    + pose proof (Hdone v Hv). pose proof (Hx w Hw). simpl in *. lia.
  - intros x' y [->%elem_of_singleton|Hx']%elem_of_union Hn.
    + by apply Hhand, Hall.
    + by apply Hclosed.
  - set_solver.
Qed.

(** Under the invariant, a walk from [start] either ends in a visited cell
    no deeper than the walk is long, or passes through the queue. *)
Lemma bfs_inv_walk (m : Maze) (d : Coord → nat) (done : gset Coord)
    (st : bfs_state) (v : Coord) (n : nat) :
  bfs_inv m d done st → walk m (start m) v n →
  (v ∈ bfs_visited st ∧ (d v ≤ n)%nat) ∨ (∃ w, w ∈ bfs_q st ∧ (d w ≤ n)%nat).
Proof.
  intros [[Hd0 _] Hs Hcov _ _ _ _ Hclosed _].
  induction 1 as [_|b c n Hw IH Hn].
  - left. split; [done|lia].
  - destruct IH as [[Hb Hle]|(w & Hw' & Hle)].
    + apply Hcov in Hb as [Hb|Hb].
      * destruct (Hclosed b c Hb Hn) as [Hc Hc']. left. split; [done|lia].
      * right. exists b. split; [done|lia].
    + right. exists w. split; [done|lia].
Qed.

Lemma bfs_loop_correct (m : Maze) (fuel : nat) :
  rectangular m →
  ∀ (d : Coord → nat) (done : gset Coord) (st : bfs_state),
    bfs_inv m d done st →
    (bfs_measure m st + size (cells m) < fuel)%nat →
    ∃ res, bfs_loop fuel m st = Ok res ∧ bfs_post m res.
Proof.
  intros Hrect. induction fuel as [|fuel IH]; intros d done st Hinv Hfuel; [lia|].
  destruct st as [q par vis]. simpl. destruct q as [|cur q].
  - (* the queue is exhausted *)
    eexists. split; [done|]. destruct Hinv as [Htree Hs Hcov Hcells _ _ _ Hclosed Hend].
    simpl in *. exists d, par. simpl. split_and!; try done.
    + intros Hv. apply Hcov in Hv as [Hv|Hv]; [done|by apply elem_of_nil in Hv].
    + assert (∀ v, v ∈ vis → v ∈ done) as Hvd.
      { intros v [Hv|Hv]%Hcov; [done|by apply elem_of_nil in Hv]. }
      intros v n. induction 1 as [_|b c n Hw IHw Hn]; [done|].
      by apply (Hclosed b c); [apply Hvd|].
  - destruct (decide (cur = end_ m)) as [->|Hne].
    + (* the end is taken from the queue *)
      pose proof Hinv as [Htree Hs Hcov Hcells Hsort _ _ _ _]. simpl in *.
      assert (end_ m ∈ vis) as Hv by (apply Hcov; right; by left).
      pose proof (tree_depth_bound m par vis d (end_ m) Htree Hs Hv) as Hd.
      pose proof (subseteq_size _ _ Hcells) as Hsize.
      destruct (reconstruct_path_branch m vis d par (S fuel) (end_ m))
        as (p & -> & Hbr); [done..|lia|].
      simpl. eexists. split; [done|]. exists d, par. simpl.
      split_and!; try done.
      intros n Hw.
      destruct (bfs_inv_walk m d done _ (end_ m) n Hinv Hw)
        as [[_ Hle]|(w & Hw' & Hle)]; [done|].
      simpl in Hw'. apply elem_of_cons in Hw' as [->|Hw']; [done|].
      apply StronglySorted_inv in Hsort as [_ Hx].
      rewrite Forall_forall in Hx. pose proof (Hx w Hw'). simpl in *. lia.
    + destruct (neighbors_spec m cur Hrect) as (nbs & -> & Hnbs). simpl.
      destruct (bfs_foldl_mid m done cur nbs (λ y Hy, proj1 (Hnbs y) Hy)
                  d [] _ (bfs_inv_pop m d done cur q par vis Hinv))
        as (d' & Hmid & Hle).
      apply (IH d' ({[cur]} ∪ done)).
      * eapply bfs_mid_finish; [exact Hmid| |done].
        intros y Hy. by apply Hnbs.
      * unfold bfs_measure in *. simpl in *. lia.
Qed.

Lemma bfs_inv_init (m : Maze) :
  bfs_inv m (λ _, 0%nat) ∅ (mkBfs [start m] ∅ {[start m]}).
Proof.
  constructor; simpl.
  - split; [done|]. intros v ->%elem_of_singleton Hne. done.
  - set_solver.
  - intros v. rewrite elem_of_singleton, list_elem_of_singleton. set_solver.
  - pose proof (start_in_cells m). set_solver.
  - repeat constructor.
  - intros. lia.
  - intros. lia.
  - intros x y Hx. set_solver.
  - set_solver.
Qed.

Lemma enough_fuel_cells (m : Maze) : (3 * size (cells m) ≤ enough_fuel m)%nat.
Proof. pose proof (size_cells m). unfold enough_fuel. lia. Qed.

(** [bfs] returns, and its result satisfies [bfs_post]. *)
Lemma bfs_correct (m : Maze) (fuel : nat) :
  rectangular m → (enough_fuel m ≤ fuel)%nat →
  ∃ res, bfs fuel m = Ok res ∧ bfs_post m res.
Proof.
  intros Hrect Hfuel. unfold bfs.
  apply (bfs_loop_correct m fuel Hrect _ _ _ (bfs_inv_init m)).
  pose proof (enough_fuel_cells m). unfold bfs_measure. simpl.
  assert (S (size (cells m ∖ {[start m]})) ≤ size (cells m))%nat.
  { pose proof (size_unvisited_shrinks m ∅ (start m) (start_in_cells m)) as H1.
    rewrite union_empty_r_L, difference_empty_L in H1. apply H1. set_solver. }
  lia.
Qed.

(** ** Depth-first search *)

Lemma tree_inv_root (m : Maze) (par : gmap Coord Coord) (vis : gset Coord)
    (d : Coord → nat) :
  tree_inv m par vis d → tree_inv m par ({[start m]} ∪ vis) d.
Proof.
  intros [Hd0 Htree]. split; [done|]. intros v Hv Hne.
  assert (v ∈ vis) as Hv' by set_solver.
  destruct (Htree v Hv' Hne) as (u & Hu & Huv & Hrest).
  exists u. split_and!; [done|set_solver|apply Hrest..].
Qed.

Lemma size_unvisited_mono (m : Maze) (vis vis' : gset Coord) :
  vis ⊆ vis' → (size (cells m ∖ vis') ≤ size (cells m ∖ vis))%nat.
Proof. intros Hsub. apply subseteq_size. set_solver. Qed.

(** Entering [dfs(u)] before the end is found: [u] joins the visited set. *)
Lemma dfs_enter (m : Maze) (d : Coord → nat) (u : Coord) (st : dfs_state) :
  dfs_inv m d st → dfs_call_ok m u st → dfs_found st = false →
  ∃ d', tree_inv m (dfs_parents st) ({[u]} ∪ dfs_visited st) d' ∧
        start m ∈ {[u]} ∪ dfs_visited st ∧
        {[u]} ∪ dfs_visited st ⊆ cells m.
Proof.
  intros [Htree Hcells _] [_ Hcall] Hnf.
  destruct (Hcall Hnf) as (Hu & Huc & Hpar).
  destruct Hpar as [->|(Hs & p & Hp & Hpv & Hnbr)].
  - exists d. split_and!; [by apply tree_inv_root|set_solver..].
  - exists (upd d u (S (d p))). split_and!; [|set_solver..].
    by apply tree_inv_visit.
Qed.

Lemma dfs_correct (m : Maze) (fuel : nat) :
  rectangular m →
  ∀ (u : Coord) (st : dfs_state) (d : Coord → nat),
    dfs_inv m d st → dfs_call_ok m u st →
    (size (cells m ∖ dfs_visited st) < fuel)%nat →
    ∃ st' d', dfs fuel m u st = Ok st' ∧ dfs_inv m d' st' ∧
              start m ∈ dfs_visited st' ∧ dfs_visited st ⊆ dfs_visited st'.
Proof.
  intros Hrect. induction fuel as [|fuel IH]; intros u st d Hinv Hcall Hfuel; [lia|].
  simpl. destruct (dfs_found st) eqn:Hfound.
  { exists st, d. split_and!; [done..|by apply Hcall|done]. }
  destruct (dfs_enter m d u st Hinv Hcall Hfound) as (d1 & Htree1 & Hs1 & Hcells1).
  destruct Hcall as [_ Hcall]. destruct (Hcall Hfound) as (Hu & Huc & _).
  pose proof (size_unvisited_shrinks m (dfs_visited st) u Huc Hu) as Hshrink.
  destruct (decide (u = end_ m)) as [Hend|Hend].
  { eexists _, d1. simpl. split_and!; [done| |done|set_solver].
    constructor; simpl; [done..|]. intros _. set_solver. }
  destruct (neighbors_spec m u Hrect) as (nbs & -> & Hnbs). simpl.
  set (body := λ (v : Coord) (s : dfs_state),
         if decide (v ∉ dfs_visited s)
         then dfs fuel m v
                {| dfs_visited := dfs_visited s;
                   dfs_parents := <[v:=u]> (dfs_parents s);
                   dfs_found := dfs_found s |}
         else Ok s).
  assert (Hloop : ∀ (l : list Coord) (s : dfs_state) (ds : Coord → nat),
    (∀ v, v ∈ l → nbr m u v) →
    dfs_inv m ds s → start m ∈ dfs_visited s → u ∈ dfs_visited s →
    (size (cells m ∖ dfs_visited s) < fuel)%nat →
    ∃ s' d', for_each body l s = Ok s' ∧ dfs_inv m d' s' ∧
             start m ∈ dfs_visited s' ∧ dfs_visited s ⊆ dfs_visited s').
  { induction l as [|v l IHl]; intros s ds Hl Hinvs Hss Hus Hsize; simpl.
    { exists s, ds. done. }
    assert (nbr m u v) as Hnbr by (apply Hl; by left).
    assert (∃ s1 d2, body v s = Ok s1 ∧ dfs_inv m d2 s1 ∧
              start m ∈ dfs_visited s1 ∧ dfs_visited s ⊆ dfs_visited s1)
      as (s1 & d2 & -> & Hinv1 & Hs1' & Hsub1).
    { unfold body. destruct (decide (v ∉ dfs_visited s)) as [Hv|Hv].
      - destruct Hinvs as [Htree Hcells Hfnd].
        destruct (IH v {| dfs_visited := dfs_visited s;
                          dfs_parents := <[v:=u]> (dfs_parents s);
                          dfs_found := dfs_found s |} ds)
          as (s1 & d2 & Hrun & Hrest); simpl; [|split; simpl|done|by exists s1, d2].
        + constructor; simpl; [by apply tree_inv_insert|done..].
        + done.
        + intros _. split_and!; [done|by apply open_in_cells, Hnbr|].
          right. split; [done|]. exists u. by rewrite lookup_insert_eq.
      - exists s, ds. done. }
    simpl.
    destruct (IHl s1 d2) as (s2 & d3 & Hrun & Hinv2 & Hs2 & Hsub2).
    - intros w Hw. apply Hl. by right.
    - done.
    - done.
    - set_solver.
    - pose proof (size_unvisited_mono m _ _ Hsub1). lia.
    - exists s2, d3. split_and!; [done..|set_solver]. }
  destruct (Hloop nbs
              {| dfs_visited := {[u]} ∪ dfs_visited st;
                 dfs_parents := dfs_parents st; dfs_found := dfs_found st |} d1)
    as (s' & d' & Hrun & Hinv' & Hs' & Hsub'); simpl.
  - intros v Hv. by apply Hnbs.
  - constructor; simpl; [done..|]. by rewrite Hfound.
  - done.
  - set_solver.
  - lia.
  - rewrite Hfound in Hrun. exists s', d'. split_and!; [done..|set_solver].
Qed.

(** [dfs_backtracking] returns, and its result satisfies [search_post]. *)
Lemma dfs_backtracking_correct (m : Maze) (fuel : nat) :
  rectangular m → (enough_fuel m ≤ fuel)%nat →
  ∃ res, dfs_backtracking fuel m = Ok res ∧ search_post m res.
Proof.
  intros Hrect Hfuel. unfold dfs_backtracking.
  pose proof (enough_fuel_cells m) as Hcells.
  destruct (dfs_correct m fuel Hrect (start m)
              {| dfs_visited := ∅; dfs_parents := ∅; dfs_found := false |}
              (λ _, 0%nat))
    as (st & d & -> & [Htree Hsub Hfnd] & Hs & _); simpl.
  - constructor; simpl; [|set_solver|done].
    split; [done|]. set_solver.
  - split; simpl; [done|]. intros _.
    split_and!; [set_solver|apply start_in_cells|by left].
  - rewrite difference_empty_L. pose proof (size_cells m).
    unfold enough_fuel in Hfuel. lia.
  - destruct (dfs_found st) eqn:Hfound.
    + assert (end_ m ∈ dfs_visited st) as Hv by auto.
      pose proof (tree_depth_bound m _ _ d (end_ m) Htree Hs Hv) as Hd.
      pose proof (subseteq_size _ _ Hsub) as Hsize.
      destruct (reconstruct_path_branch m (dfs_visited st) d (dfs_parents st)
                  fuel (end_ m)) as (p & -> & Hbr); [done..|lia|].
      simpl. eexists. split; [done|]. exists d, (dfs_parents st). done.
    + eexists. split; [done|]. exists d, (dfs_parents st). done.
Qed.

(** [bfs] guarantees what every search does. *)
Lemma bfs_post_search_post (m : Maze) (res : option (list Coord) * gset Coord) :
  bfs_post m res → search_post m res.
Proof.
  intros (d & par & Htree & Hs & Hsub & Hres). exists d, par.
  split_and!; [done..|]. destruct (res.1); [apply Hres|done].
Qed.

(** ** More fuel does not change a result *)

Lemma approx_refl {A : Type} (r : result A) : approx r r.
Proof. by right. Qed.

Lemma approx_Ok {A : Type} (r r' : result A) (a : A) :
  approx r r' → r = Ok a → r' = Ok a.
Proof. intros [->| ->]; [done|auto]. Qed.

Lemma approx_bind {A B : Type} (x x' : result A) (k k' : A → result B) :
  approx x x' → (∀ a, approx (k a) (k' a)) → approx (x ≫= k) (x' ≫= k').
Proof.
  intros [->| ->] Hk; [by left|]. destruct x' as [a|exc|]; simpl; [apply Hk|..];
    by right.
Qed.

Lemma approx_for_each {A S : Type} (body body' : A → S → result S) (l : list A) :
  (∀ x s, approx (body x s) (body' x s)) →
  ∀ s, approx (for_each body l s) (for_each body' l s).
Proof.
  intros Hbody. induction l as [|x l IH]; intros s; simpl; [apply approx_refl|].
  apply approx_bind; [apply Hbody|apply IH].
Qed.

Lemma reconstruct_loop_fuel (par : gmap Coord Coord) (s : Coord) (fuel fuel' : nat) :
  (fuel ≤ fuel')%nat →
  ∀ cur path, approx (reconstruct_loop fuel par s cur path)
                     (reconstruct_loop fuel' par s cur path).
Proof.
  revert fuel'. induction fuel as [|fuel IH]; intros fuel' Hle cur path; [by left|].
  destruct fuel' as [|fuel']; [lia|]. simpl.
  destruct (decide (cur ≠ s)); [|apply approx_refl].
  destruct (par !! cur); [|apply approx_refl]. apply IH. lia.
Qed.

Lemma bfs_loop_fuel (m : Maze) (fuel fuel' : nat) :
  (fuel ≤ fuel')%nat →
  ∀ st, approx (bfs_loop fuel m st) (bfs_loop fuel' m st).
Proof.
  revert fuel'. induction fuel as [|fuel IH]; intros fuel' Hle st; [by left|].
  destruct fuel' as [|fuel']; [lia|]. simpl.
  destruct (bfs_q st) as [|cur q]; [apply approx_refl|].
  destruct (decide (cur = end_ m)).
  - apply approx_bind; [|intros; apply approx_refl].
    by apply reconstruct_loop_fuel.
  - apply approx_bind; [apply approx_refl|]. intros nbs. apply IH. lia.
Qed.

Lemma dfs_fuel (m : Maze) (fuel fuel' : nat) :
  (fuel ≤ fuel')%nat →
  ∀ u st, approx (dfs fuel m u st) (dfs fuel' m u st).
Proof.
  revert fuel'. induction fuel as [|fuel IH]; intros fuel' Hle u st; [by left|].
  destruct fuel' as [|fuel']; [lia|]. simpl.
  destruct (dfs_found st); [apply approx_refl|].
  destruct (decide (u = end_ m)); [apply approx_refl|].
  apply approx_bind; [apply approx_refl|]. intros nbs.
  apply approx_for_each. intros v s.
  destruct (decide (v ∉ dfs_visited s)); [|apply approx_refl].
  apply IH. lia.
Qed.

Lemma dfs_backtracking_fuel (m : Maze) (fuel fuel' : nat) :
  (fuel ≤ fuel')%nat →
  approx (dfs_backtracking fuel m) (dfs_backtracking fuel' m).
Proof.
  intros Hle. unfold dfs_backtracking.
  apply approx_bind; [by apply dfs_fuel|]. intros st.
  destruct (dfs_found st); [|apply approx_refl].
  apply approx_bind; [|intros; apply approx_refl].
  by apply reconstruct_loop_fuel.
Qed.

(** Whatever a search returns, with any fuel, satisfies its postcondition. *)
Lemma bfs_returns_post (m : Maze) (fuel : nat)
    (res : option (list Coord) * gset Coord) :
  rectangular m → bfs fuel m = Ok res → bfs_post m res.
Proof.
  intros Hrect Hrun.
  destruct (bfs_correct m (fuel `max` enough_fuel m) Hrect) as (res' & Hrun' & Hpost);
    [lia|].
  pose proof (bfs_loop_fuel m fuel (fuel `max` enough_fuel m)
                ltac:(lia) (mkBfs [start m] ∅ {[start m]})) as Happ.
  pose proof (approx_Ok _ _ res Happ Hrun) as Hrun''.
  unfold bfs in Hrun'. congruence.
Qed.

Lemma dfs_backtracking_returns_post (m : Maze) (fuel : nat)
    (res : option (list Coord) * gset Coord) :
  rectangular m → dfs_backtracking fuel m = Ok res → search_post m res.
Proof.
  intros Hrect Hrun.
  destruct (dfs_backtracking_correct m (fuel `max` enough_fuel m) Hrect)
    as (res' & Hrun' & Hpost); [lia|].
  pose proof (dfs_backtracking_fuel m fuel (fuel `max` enough_fuel m)
                ltac:(lia)) as Happ.
  pose proof (approx_Ok _ _ res Happ Hrun). congruence.
Qed.

(** ** Paths and walks *)

Lemma walk_prepend (m : Maze) (a a' b : Coord) (n : nat) :
  is_open m a → adjacent a a' → walk m a' b n → walk m a b (S n).
Proof.
  intros Ha Hadj. induction 1 as [Ha'|c c' n Hw IH Hn].
  - eapply walk_step; [by apply walk_here|]. by split.
  - eapply walk_step; [exact IH|done].
Qed.

Lemma chain_walk (m : Maze) (p : list Coord) :
  ∀ a b, head p = Some a → last p = Some b →
         Forall (is_open m) p → adjacent_chain p →
         walk m a b (Nat.pred (length p)).
Proof.
  induction p as [|x p IH]; intros a b Hhd Hlast Hopen Hadj; [done|].
  injection Hhd as ->. apply Forall_cons in Hopen as [Ha Hopen].
  destruct p as [|a' p].
  - injection Hlast as ->. by apply walk_here.
  - destruct Hadj as [Haa' Hadj]. simpl.
    eapply walk_prepend; [done..|]. by apply (IH a' b).
Qed.

Lemma is_path_walk (m : Maze) (p : list Coord) :
  is_path m p → walk m (start m) (end_ m) (edge_count p).
Proof. intros (Hhd & Hlast & Hopen & Hadj). by apply chain_walk. Qed.

Lemma branch_walk (m : Maze) (vis : gset Coord) (d : Coord → nat)
    (p : list Coord) (v : Coord) :
  is_open m (start m) → d (start m) = 0%nat →
  branch m vis d p v → walk m (start m) v (d v).
Proof.
  intros Hs Hd0. induction 1 as [|p u v Hp IH _ Hn Hd].
  - rewrite Hd0. by apply walk_here.
  - rewrite Hd. by eapply walk_step.
Qed.

Lemma branch_valid_simple_path (m : Maze) (vis : gset Coord) (d : Coord → nat)
    (p : list Coord) :
  is_open m (start m) → branch m vis d p (end_ m) → valid_simple_path m p.
Proof.
  intros Hs Hbr. pose proof (branch_open m vis d p _ Hs Hbr) as Hopen.
  split_and!.
  - by eapply branch_head.
  - by eapply branch_last.
  - eapply Forall_impl; [exact Hopen|]. by intros x [Hx _].
  - done.
  - by eapply branch_adjacent.
  - by eapply branch_NoDup.
Qed.

Lemma tree_visited_walk (m : Maze) (par : gmap Coord Coord) (vis : gset Coord)
    (d : Coord → nat) (v : Coord) :
  is_open m (start m) → tree_inv m par vis d → start m ∈ vis → v ∈ vis →
  ∃ n, walk m (start m) v n.
Proof.
  intros Hopen Htree Hs Hv.
  destruct (reconstruct_path_branch m vis d par (S (d v)) v) as (p & _ & Hbr);
    [done..|lia|].
  exists (d v). eapply branch_walk; [done|apply Htree|done].
Qed.

(** ** Grids as values: reading and writing cells *)

Lemma shape_grid_set (g : list (list string)) (p : Coord) (x : string) :
  shape (grid_set g p x) = shape g.
Proof.
  unfold grid_set, shape. destruct (g !! Z.to_nat p.1) as [row|] eqn:Hrow; [|done].
  rewrite list_fmap_insert, length_insert.
  apply list_insert_id. by rewrite list_lookup_fmap, Hrow.
Qed.

Lemma inside_shape (g g' : list (list string)) (p : Coord) :
  shape g = shape g' → inside g p → inside g' p.
Proof.
  unfold inside, grid_get, shape. intros Hsh (Hr & Hc & [s Hs]).
  split_and!; [done..|].
  destruct (g !! Z.to_nat p.1) as [row|] eqn:Hrow; [|done]. simpl in Hs.
  assert ((length <$> g') !! Z.to_nat p.1 = Some (length row)) as Hrow'.
  { by rewrite <- Hsh, list_lookup_fmap, Hrow. }
  rewrite list_lookup_fmap in Hrow'.
  destruct (g' !! Z.to_nat p.1) as [row'|]; [|done]. simpl in *.
  injection Hrow' as Hlen. apply lookup_lt_is_Some_2. rewrite Hlen.
  by eapply lookup_lt_Some.
Qed.

Lemma getitem2_grid_get (g : list (list string)) (p : Coord) (s : string) :
  0 <= p.1 → 0 <= p.2 → grid_get g p = Some s → getitem2 g p.1 p.2 = Ok s.
Proof.
  unfold grid_get, getitem2. intros Hr Hc Hs.
  destruct (g !! Z.to_nat p.1) as [row|] eqn:Hrow; [|done]. simpl in Hs.
  rewrite (getitem_lookup g p.1 row Hr Hrow). simpl.
  by apply getitem_lookup.
Qed.

Lemma setitem2_grid_set (g : list (list string)) (p : Coord) (x : string) :
  inside g p → setitem2 g p.1 p.2 x = Ok (grid_set g p x).
Proof.
  unfold inside, grid_get, setitem2, grid_set. intros (Hr & Hc & [s Hs]).
  destruct (g !! Z.to_nat p.1) as [row|] eqn:Hrow; [|done]. simpl in Hs.
  rewrite (getitem_lookup g p.1 row Hr Hrow). simpl.
  apply lookup_lt_Some in Hs, Hrow.
  rewrite setitem_in_range by (unfold len; lia). simpl.
  rewrite setitem_in_range by (unfold len; lia). done.
Qed.

Lemma grid_get_grid_set (g : list (list string)) (p q : Coord) (x : string) :
  inside g p → 0 <= q.1 → 0 <= q.2 →
  grid_get (grid_set g p x) q = if decide (q = p) then Some x else grid_get g q.
Proof.
  unfold inside, grid_get, grid_set. intros (Hr & Hc & [s Hs]) Hqr Hqc.
  destruct (g !! Z.to_nat p.1) as [row|] eqn:Hrow; [|done]. simpl in Hs.
  pose proof (lookup_lt_Some _ _ _ Hs) as Hlc.
  pose proof (lookup_lt_Some _ _ _ Hrow) as Hlr.
  destruct (decide (q = p)) as [->|Hne].
  - rewrite list_lookup_insert_eq by done. simpl.
    by rewrite list_lookup_insert_eq.
  - destruct (decide (Z.to_nat q.1 = Z.to_nat p.1)) as [Heq|Hner].
    + rewrite Heq, list_lookup_insert_eq, Hrow by done. simpl.
      rewrite list_lookup_insert_ne; [done|].
      intros Heq'. apply Hne. destruct p, q. simpl in *. f_equal; lia.
    + by rewrite list_lookup_insert_ne.
Qed.

Lemma plain_grid_set (g : list (list string)) (p : Coord) (x : string) :
  Forall (Forall (λ s, s = WALL ∨ s = OPEN)) g → x = WALL ∨ x = OPEN →
  Forall (Forall (λ s, s = WALL ∨ s = OPEN)) (grid_set g p x).
Proof.
  intros Hg Hx. unfold grid_set.
  destruct (g !! Z.to_nat p.1) as [row|] eqn:Hrow; [|done].
  apply Forall_insert; [done|]. apply Forall_insert; [|done].
  rewrite Forall_forall in Hg. apply Hg. by eapply list_elem_of_lookup_2.
Qed.

(** A grid whose shape is [rows] rows of [cols] cells. *)
Lemma shape_replicate (m : Maze) (rows cols : nat) :
  shape (grid m) = replicate rows cols → (0 < rows)%nat →
  rectangular m ∧ nrows m = Z.of_nat rows ∧ ncols m = Z.of_nat cols.
Proof.
  unfold shape, rectangular, nrows, ncols, len. intros Hsh Hrows.
  assert (length (grid m) = rows) as Hlen.
  { by rewrite <- (length_fmap length), Hsh, length_replicate. }
  assert (∀ row, row ∈ grid m → length row = cols) as Hrow.
  { intros row Hin.
    assert (length row ∈ replicate rows cols) as Hin'.
    { rewrite <- Hsh. by apply list_elem_of_fmap_2. }
    by apply elem_of_replicate in Hin' as [-> _]. }
  assert (match grid m with [] => 0 | row0 :: _ => Z.of_nat (length row0) end
          = Z.of_nat cols) as Hcols.
  { destruct (grid m) as [|row0 rest]; [simpl in Hlen; lia|].
    rewrite (Hrow row0); [done|by left]. }
  split_and!; [|lia|done].
  apply Forall_forall. intros row Hin. rewrite Hcols, (Hrow row Hin). done.
Qed.

Lemma inside_in_bounds (m : Maze) (p : Coord) :
  rectangular m → (in_bounds m p ↔ inside (grid m) p).
Proof.
  intros Hrect. split.
  - intros Hb. destruct (in_bounds_cell m p Hrect Hb) as (s & Hs & _).
    destruct Hb as [Hr Hc]. split_and!; [lia..|by exists s].
  - unfold inside, grid_get. intros (Hr & Hc & [s Hs]).
    destruct (grid m !! Z.to_nat p.1) as [row|] eqn:Hrow; [|done]. simpl in Hs.
    pose proof (rectangular_row m p.1 row Hrect Hrow) as Hlen.
    apply lookup_lt_Some in Hs, Hrow. unfold in_bounds, nrows, len in *. lia.
Qed.

(** ** The random source and [Maze.random] *)

Section GeneratorProofs.

Context (Rng : Type) (rng_random : Rng → float * Rng).

#[local] Abbreviation skip := (rng_skip Rng rng_random).
#[local] Abbreviation cell_of := (drawn_cell Rng rng_random).
#[local] Abbreviation gen_row := (random_row Rng rng_random).
#[local] Abbreviation gen_rows := (random_rows Rng rng_random).
#[local] Abbreviation generate := (Maze_random Rng rng_random).

Lemma rng_skip_add (a b : nat) (rng : Rng) :
  skip (a + b) rng = skip b (skip a rng).
Proof. revert rng. induction a as [|a IH]; intros rng; simpl; [done|apply IH]. Qed.

Lemma drawn_cell_skip (density : float) (a k : nat) (rng : Rng) :
  cell_of density (skip a rng) k = cell_of density rng (a + k).
Proof.
  unfold drawn_cell, draw. by rewrite rng_skip_add.
Qed.

Lemma random_row_spec (n : nat) (density : float) (rng : Rng) :
  gen_row n density rng = (cell_of density rng <$> seq 0 n, skip n rng).
Proof.
  revert rng. induction n as [|n IH]; intros rng; [done|].
  simpl. destruct (rng_random rng) as [x rng1] eqn:Hdraw. rewrite IH.
  simpl. f_equal. f_equal.
  - unfold drawn_cell, draw. simpl. by rewrite Hdraw.
  - rewrite <- fmap_S_seq, <- list_fmap_compose.
    apply list_fmap_ext. intros _ k _. simpl.
    replace rng1 with (skip 1 rng) by (simpl; by rewrite Hdraw).
    by rewrite drawn_cell_skip.
Qed.

(** The rows are drawn in row-major order, one draw per cell: cell
    [(i, j)] is decided by draw number [i * cols + j]. *)
Lemma random_rows_spec (rows cols : nat) (density : float) (rng : Rng) :
  gen_rows rows cols density rng =
    ((λ i, (λ j, cell_of density rng (i * cols + j)%nat) <$> seq 0 cols)
       <$> seq 0 rows,
     skip (rows * cols) rng).
Proof.
  revert rng. induction rows as [|rows IH]; intros rng; [done|].
  simpl. rewrite random_row_spec, IH. f_equal.
  - f_equal. rewrite <- fmap_S_seq, <- list_fmap_compose.
    apply list_fmap_ext. intros _ i _. simpl.
    apply list_fmap_ext. intros _ j _. simpl.
    rewrite drawn_cell_skip. f_equal. lia.
  - by rewrite rng_skip_add.
Qed.

Lemma random_rows_shape (rows cols : nat) (density : float) (rng : Rng) :
  shape (gen_rows rows cols density rng).1 = replicate rows cols.
Proof.
  rewrite random_rows_spec. simpl. unfold shape.
  assert (H : ∀ (f : nat → nat → string) (l : list nat),
    length <$> ((λ i, f i <$> seq 0 cols) <$> l) = replicate (length l) cols).
  { intros f l. induction l as [|i l IHl]; [done|].
    simpl. rewrite length_fmap, length_seq. f_equal. exact IHl. }
  rewrite (H (λ i j, cell_of density rng (i * cols + j)%nat)).
  by rewrite length_seq.
Qed.

Lemma random_rows_plain (rows cols : nat) (density : float) (rng : Rng) :
  Forall (Forall (λ s, s = WALL ∨ s = OPEN)) (gen_rows rows cols density rng).1.
Proof.
  rewrite random_rows_spec. simpl.
  apply Forall_fmap, Forall_forall. intros i _. simpl.
  apply Forall_fmap, Forall_forall. intros j _. simpl.
  unfold drawn_cell. destruct (_ <? _)%float; auto.
Qed.

Lemma random_rows_get (rows cols : nat) (density : float) (rng : Rng) (p : Coord) :
  coord_valid (Z.of_nat rows) (Z.of_nat cols) p →
  grid_get (gen_rows rows cols density rng).1 p =
    Some (cell_of density rng (Z.to_nat p.1 * cols + Z.to_nat p.2)%nat).
Proof.
  intros [Hr Hc]. rewrite random_rows_spec. simpl. unfold grid_get.
  rewrite list_lookup_fmap, lookup_seq_lt by lia. simpl.
  rewrite list_lookup_fmap, lookup_seq_lt by lia. done.
Qed.

Lemma coord_in_range_spec (rows cols : Z) (p : Coord) :
  coord_in_range rows cols p = true ↔ coord_valid rows cols p.
Proof.
  unfold coord_in_range, coord_valid.
  rewrite !andb_true_iff, !Z.leb_le, !Z.ltb_lt. tauto.
Qed.

Lemma density_in_range_spec (density : float) :
  density_in_range density = true ↔ density_valid density.
Proof. unfold density_in_range, density_valid. by rewrite andb_true_iff. Qed.

(** What [Maze.random] returns on valid parameters. *)
Lemma Maze_random_ok (rows cols : Z) (s e : Coord) (density : float)
    (rng : Rng) :
  valid_params rows cols s e density →
  ∃ m, generate rows cols s e density rng
         = Ok (m, skip (Z.to_nat rows * Z.to_nat cols) rng) ∧
       start m = s ∧ end_ m = e ∧
       shape (grid m) = replicate (Z.to_nat rows) (Z.to_nat cols) ∧
       plain_grid m ∧
       ∀ p, coord_valid rows cols p →
         cell_at m p =
           Some (if decide (p = s ∨ p = e) then OPEN
                 else cell_of density rng
                        (Z.to_nat p.1 * Z.to_nat cols + Z.to_nat p.2)%nat).
Proof.
  intros (Hrows & Hcols & Hs & He & Hne & Hd). unfold Maze_random.
  assert ((rows <=? 1) || (cols <=? 1) = false) as ->.
  { apply orb_false_iff. split; apply Z.leb_gt; lia. }
  rewrite (proj2 (coord_in_range_spec rows cols s) Hs).
  rewrite (proj2 (coord_in_range_spec rows cols e) He).
  rewrite decide_False by done.
  rewrite (proj2 (density_in_range_spec density) Hd). simpl.
  pose proof (random_rows_shape (Z.to_nat rows) (Z.to_nat cols) density rng) as Hsh.
  pose proof (random_rows_plain (Z.to_nat rows) (Z.to_nat cols) density rng) as Hpl.
  pose proof (random_rows_get (Z.to_nat rows) (Z.to_nat cols) density rng) as Hget.
  rewrite !Z2Nat.id in Hget by lia.
  pose proof (random_rows_spec (Z.to_nat rows) (Z.to_nat cols) density rng) as Hspec.
  destruct (gen_rows (Z.to_nat rows) (Z.to_nat cols) density rng) as [g rng'].
  injection Hspec as _ ->. simpl in Hsh, Hpl, Hget.
  assert (∀ p, coord_valid rows cols p → inside g p) as Hin.
  { intros p Hp. pose proof Hp as [Hr Hc].
    split_and!; [lia..|]. rewrite Hget by done. eauto. }
  rewrite (setitem2_grid_set g s) by auto. simpl.
  assert (∀ p, coord_valid rows cols p → inside (grid_set g s OPEN) p) as Hin1.
  { intros p Hp. eapply inside_shape; [|by apply Hin].
    by rewrite shape_grid_set. }
  rewrite (setitem2_grid_set _ e) by auto. simpl.
  eexists. split; [done|]. simpl. split_and!; try done.
  - by rewrite !shape_grid_set.
  - unfold plain_grid. simpl. apply plain_grid_set; [|by right].
    apply plain_grid_set; [done|by right].
  - intros p Hp. unfold cell_at. simpl. pose proof Hp as [Hr Hc].
    rewrite grid_get_grid_set by (auto; lia).
    destruct (decide (p = e)) as [->|Hpe].
    { rewrite decide_True by auto. done. }
    rewrite grid_get_grid_set by (auto; lia).
    destruct (decide (p = s)) as [->|Hps].
    { rewrite decide_True by auto. done. }
    rewrite decide_False by tauto. by apply Hget.
Qed.

(** The maze of valid parameters is a well-formed grid of the requested
    size, with open endpoints. *)
Lemma Maze_random_well_formed (rows cols : Z) (s e : Coord)
    (density : float) (rng : Rng) (m : Maze) (rng' : Rng) :
  valid_params rows cols s e density →
  generate rows cols s e density rng = Ok (m, rng') →
  rectangular m ∧ nrows m = rows ∧ ncols m = cols ∧
  is_open m (start m) ∧ is_open m (end_ m).
Proof.
  intros Hvalid Hrun.
  destruct (Maze_random_ok rows cols s e density rng Hvalid)
    as (m' & Hrun' & Hs & He & Hsh & _ & Hcell).
  rewrite Hrun in Hrun'. injection Hrun' as <- _.
  destruct Hvalid as (Hrows & Hcols & Hsv & Hev & Hne & _).
  destruct (shape_replicate m _ _ Hsh) as (Hrect & Hnr & Hnc); [lia|].
  rewrite Z2Nat.id in Hnr, Hnc by lia.
  assert (∀ p, coord_valid rows cols p → p = s ∨ p = e → is_open m p) as Hop.
  { intros p Hp Hor. split.
    - unfold in_bounds. rewrite Hnr, Hnc. exact Hp.
    - exists OPEN. rewrite (Hcell p Hp), decide_True by done. done. }
  rewrite Hs, He. split_and!; auto.
Qed.

End GeneratorProofs.

Lemma valid_params_dec (rows cols : Z) (s e : Coord) (density : float) :
  valid_params rows cols s e density ↔
  ¬ (rows < 2 ∨ cols < 2 ∨ ¬ coord_valid rows cols s ∨
     ¬ coord_valid rows cols e ∨ s = e ∨ ¬ density_valid density).
Proof.
  unfold valid_params. split.
  - intros (? & ? & ? & ? & ? & ?) [?|[?|[?|[?|[?|?]]]]]; try lia; done.
  - intros Hno. split_and!.
    + destruct (decide (2 <= rows)); [done|]. exfalso. apply Hno. left. lia.
    + destruct (decide (2 <= cols)); [done|]. exfalso. apply Hno. right. left. lia.
    + destruct (coord_in_range rows cols s) eqn:E;
        [by apply coord_in_range_spec|].
      exfalso. apply Hno. do 2 right. left. intros H%coord_in_range_spec. congruence.
    + destruct (coord_in_range rows cols e) eqn:E;
        [by apply coord_in_range_spec|].
      exfalso. apply Hno. do 3 right. left. intros H%coord_in_range_spec. congruence.
    + intros ->. apply Hno. do 4 right. by left.
    + destruct (density_in_range density) eqn:E;
        [by apply density_in_range_spec|].
      exfalso. apply Hno. do 5 right. intros H%density_in_range_spec. congruence.
Qed.

Lemma Maze_random_cases (Rng : Type) (rng_random : Rng → float * Rng)
    (rows cols : Z) (s e : Coord) (density : float) (rng : Rng) :
  (valid_params rows cols s e density ∧
   ∃ m rng', Maze_random Rng rng_random rows cols s e density rng = Ok (m, rng')) ∨
  ((rows < 2 ∨ cols < 2 ∨ ¬ coord_valid rows cols s ∨
    ¬ coord_valid rows cols e ∨ s = e ∨ ¬ density_valid density) ∧
   ∃ msg, Maze_random Rng rng_random rows cols s e density rng
            = Raise (ValueError msg)).
Proof.
  destruct (decide (2 <= rows)) as [Hr|Hr]; cycle 1.
  { right. split; [left; lia|]. unfold Maze_random.
    assert ((rows <=? 1) = true) as -> by (apply Z.leb_le; lia). simpl. eauto. }
  destruct (decide (2 <= cols)) as [Hc|Hc]; cycle 1.
  { right. split; [right; left; lia|]. unfold Maze_random.
    assert ((cols <=? 1) = true) as -> by (apply Z.leb_le; lia).
    rewrite orb_true_r. eauto. }
  assert ((rows <=? 1) || (cols <=? 1) = false) as Hdim.
  { apply orb_false_iff. split; apply Z.leb_gt; lia. }
  destruct (coord_in_range rows cols s) eqn:Hs; cycle 1.
  { right. split.
    - do 2 right. left. intros H%coord_in_range_spec. congruence.
    - unfold Maze_random. rewrite Hdim, Hs. simpl. eauto. }
  destruct (coord_in_range rows cols e) eqn:He; cycle 1.
  { right. split.
    - do 3 right. left. intros H%coord_in_range_spec. congruence.
    - unfold Maze_random. rewrite Hdim, Hs, He. simpl. eauto. }
  destruct (decide (s = e)) as [Heq|Hne].
  { right. split; [do 4 right; by left|].
    unfold Maze_random. rewrite Hdim, Hs, He, decide_True by done. simpl. eauto. }
  destruct (density_in_range density) eqn:Hd; cycle 1.
  { right. split.
    - do 5 right. intros H%density_in_range_spec. congruence.
    - unfold Maze_random. rewrite Hdim, Hs, He, decide_False, Hd by done.
      simpl. eauto. }
  left. apply coord_in_range_spec in Hs, He. apply density_in_range_spec in Hd.
  assert (valid_params rows cols s e density) as Hv.
  { unfold valid_params. split_and!; done. }
  split; [done|].
  destruct (Maze_random_ok Rng rng_random rows cols s e density rng Hv)
    as (m & Hrun & _). eauto.
Qed.

(** ** The retry loop *)

Section RetryProofs.

Context (Rng : Type) (rng_random : Rng → float * Rng).
Context (rows cols : Z) (s e : Coord) (density : float).
Context (algo : string) (ensure : bool) (fuel : nat).

Hypothesis params_ok : valid_params rows cols s e density.
Hypothesis fuel_ok : (3 * S (Z.to_nat (rows * cols)) ≤ fuel)%nat.

#[local] Abbreviation generate := (Maze_random Rng rng_random rows cols s e density).
#[local] Abbreviation next_rng := (next_cycle_rng Rng rng_random rows cols s e density).
#[local] Abbreviation cycle :=
  (nth_cycle Rng rng_random fuel rows cols s e density algo).
#[local] Abbreviation loop :=
  (main_loop Rng rng_random).

(** One cycle on valid parameters: the generator and the search both
    return. *)
Lemma cycle_returns (rng : Rng) :
  ∃ m path visited,
    generate rng = Ok (m, next_rng rng) ∧ search fuel algo m = Ok (path, visited).
Proof.
  destruct (Maze_random_ok Rng rng_random rows cols s e density rng params_ok)
    as (m & Hrun & _).
  destruct (Maze_random_well_formed Rng rng_random rows cols s e density rng
              m _ params_ok Hrun) as (Hrect & Hnr & Hnc & _).
  assert (enough_fuel m ≤ fuel)%nat as Hfuel.
  { unfold enough_fuel. rewrite Hnr, Hnc. exact fuel_ok. }
  assert (∃ res, search fuel algo m = Ok res) as [[path visited] Hsearch].
  { unfold search. destruct (decide (algo = "bfs")).
    - destruct (bfs_correct m fuel Hrect Hfuel) as (res & Hres & _). eauto.
    - destruct (dfs_backtracking_correct m fuel Hrect Hfuel) as (res & Hres & _).
      eauto. }
  exists m, path, visited. split; [|done].
  unfold next_cycle_rng. by rewrite Hrun.
Qed.

Lemma nth_cycle_O (rng : Rng) (m : Maze) (rng' : Rng)
    (path : option (list Coord)) (visited : gset Coord) :
  generate rng = Ok (m, rng') → search fuel algo m = Ok (path, visited) →
  cycle 0%nat rng = Ok (m, path, visited).
Proof. intros Hgen Hsearch. unfold nth_cycle. simpl. by rewrite Hgen; simpl; rewrite Hsearch. Qed.

Lemma nth_cycle_S (j : nat) (rng : Rng) :
  cycle (S j) rng = cycle j (next_rng rng).
Proof. done. Qed.

Lemma main_loop_from (iters : nat) :
  ∀ (attempt : Z) (rng : Rng),
    0 <= attempt < max_tries → (Z.to_nat (max_tries - attempt) ≤ iters)%nat →
    ∃ (j : nat) m path visited,
      loop iters fuel rows cols s e density algo ensure attempt rng
        = Ok (Some (mkOutcome m path visited (attempt + 1 + Z.of_nat j))) ∧
      attempt + 1 + Z.of_nat j <= max_tries ∧
      cycle j rng = Ok (m, path, visited) ∧
      (ensure = false → j = 0%nat) ∧
      (ensure = true →
         (path ≠ None ∨ attempt + 1 + Z.of_nat j = max_tries) ∧
         ∀ i, (i < j)%nat → ∃ mi vi, cycle i rng = Ok (mi, None, vi)).
Proof.
  unfold max_tries.
  induction iters as [|iters IH]; intros attempt rng Hatt Hiters; [lia|].
  destruct (cycle_returns rng) as (m & path & visited & Hgen & Hsearch).
  simpl. rewrite Hgen, Hsearch. simpl.
  destruct (bool_decide (path ≠ None) || negb ensure || (max_tries <=? attempt + 1))
    eqn:Hstop.
  - exists 0%nat, m, path, visited. rewrite Z.add_0_r.
    split_and!; [done|lia|by eapply nth_cycle_O|done|].
    intros ->. split; [|intros i Hi; lia].
    simpl in Hstop. rewrite orb_false_r in Hstop.
    apply orb_true_iff in Hstop as [Hp|Hmax].
    + left. by apply bool_decide_eq_true in Hp.
    + right. apply Z.leb_le in Hmax. unfold max_tries in Hmax. lia.
  - apply orb_false_iff in Hstop as [Hstop Hmax].
    apply orb_false_iff in Hstop as [Hp Hens].
    apply Z.leb_gt in Hmax. unfold max_tries in Hmax.
    apply bool_decide_eq_false in Hp. apply dec_stable in Hp as ->.
    apply negb_false_iff in Hens as ->.
    destruct (IH (attempt + 1) (next_rng rng)) as
      (j & m' & path' & visited' & Hrun & Hle & Hcyc & _ & Hens); [lia..|].
    destruct (Hens eq_refl) as [Hlast Hbefore].
    exists (S j), m', path', visited'.
    replace (attempt + 1 + Z.of_nat (S j)) with (attempt + 1 + 1 + Z.of_nat j) by lia.
    split_and!; [done|done|by rewrite nth_cycle_S|done|].
    intros _. split; [done|]. intros [|i] Hi.
    + exists m, visited. by eapply nth_cycle_O.
    + rewrite nth_cycle_S. apply Hbefore. lia.
Qed.

End RetryProofs.

(** ** Reproducibility *)

Section SameDraws.

Context (R1 R2 : Type) (random1 : R1 → float * R1) (random2 : R2 → float * R2).
Context (rows cols : Z) (s e : Coord) (density : float).

#[local] Abbreviation same_draws := (same_draws random1 random2).

Lemma same_draws_skip (n : nat) (a : R1) (b : R2) :
  same_draws a b →
  same_draws (rng_skip R1 random1 n a) (rng_skip R2 random2 n b).
Proof.
  intros Hsame k. unfold draw.
  rewrite <- !rng_skip_add. apply (Hsame (n + k)%nat).
Qed.

Lemma same_draws_rows (a : R1) (b : R2) (nr nc : nat) :
  same_draws a b →
  (random_rows R1 random1 nr nc density a).1
  = (random_rows R2 random2 nr nc density b).1 ∧
  same_draws (random_rows R1 random1 nr nc density a).2
             (random_rows R2 random2 nr nc density b).2.
Proof.
  intros Hsame. rewrite !random_rows_spec. simpl. split.
  - apply list_fmap_ext. intros _ i _. simpl.
    apply list_fmap_ext. intros _ j _. simpl.
    unfold drawn_cell. by rewrite Hsame.
  - by apply same_draws_skip.
Qed.

(** On sources with the same draws [Maze.random] does the same: the same
    exception, or the same maze and sources that still agree. *)
Lemma Maze_random_same_draws (a : R1) (b : R2) :
  same_draws a b →
  match Maze_random R1 random1 rows cols s e density a,
        Maze_random R2 random2 rows cols s e density b with
  | Ok (m1, a'), Ok (m2, b') => m1 = m2 ∧ same_draws a' b'
  | Raise e1, Raise e2 => e1 = e2
  | OutOfFuel, OutOfFuel => True
  | _, _ => False
  end.
Proof.
  intros Hsame. unfold Maze_random.
  destruct ((rows <=? 1) || (cols <=? 1)); [done|].
  destruct (negb (coord_in_range rows cols s)); [done|].
  destruct (negb (coord_in_range rows cols e)); [done|].
  destruct (decide (s = e)); [done|].
  destruct (negb (density_in_range density)); [done|].
  destruct (same_draws_rows a b (Z.to_nat rows) (Z.to_nat cols) Hsame)
    as [Hgrid Hrest].
  destruct (random_rows R1 random1 _ _ density a) as [g1 a'].
  destruct (random_rows R2 random2 _ _ density b) as [g2 b'].
  simpl in Hgrid, Hrest. subst g2.
  destruct (setitem2 g1 s.1 s.2 OPEN) as [g|exc|]; simpl; [|done..].
  destruct (setitem2 g e.1 e.2 OPEN) as [g'|exc|]; simpl; done.
Qed.

Lemma main_loop_same_draws (algo : string) (ensure : bool) (iters fuel : nat) :
  ∀ (attempt : Z) (a : R1) (b : R2),
    same_draws a b →
    main_loop R1 random1 iters fuel rows cols s e density algo ensure attempt a
    = main_loop R2 random2 iters fuel rows cols s e density algo ensure attempt b.
Proof.
  induction iters as [|iters IH]; intros attempt a b Hsame; [done|].
  simpl. pose proof (Maze_random_same_draws a b Hsame) as Hgen.
  destruct (Maze_random R1 random1 rows cols s e density a) as [[m1 a']|e1|],
           (Maze_random R2 random2 rows cols s e density b) as [[m2 b']|e2|];
    try done.
  destruct Hgen as [<- Hsame'].
  destruct (search fuel algo m1) as [[path visited]|exc|]; simpl; [|done..].
  destruct (bool_decide (path ≠ None) || negb ensure || (max_tries <=? attempt + 1));
    [done|]. by apply IH.
Qed.

End SameDraws.

Lemma counter_skip (k n : nat) : rng_skip nat counter_random k n = (k + n)%nat.
Proof.
  revert n. induction k as [|k IH]; intros n; [done|].
  simpl. rewrite IH. lia.
Qed.

Lemma zcounter_skip (k : nat) (z : Z) :
  rng_skip Z zcounter_random k z = z + Z.of_nat k.
Proof.
  revert z. induction k as [|k IH]; intros z; [simpl; lia|].
  simpl rng_skip. rewrite IH. simpl. lia.
Qed.

Lemma counters_same_draws : same_draws counter_random zcounter_random 0%nat 0.
Proof.
  intros k. unfold draw. rewrite counter_skip, zcounter_skip.
  unfold counter_random, zcounter_random. simpl fst.
  replace (Z.to_nat (0 + Z.of_nat k)) with (k + 0)%nat by lia. done.
Qed.

(** ** The rendering *)

Section Marking.

(** A loop body that reads a cell and overwrites it with [x] when the
    character there satisfies [P]. *)
Context (P : string → Prop) `{!∀ s, Decision (P s)} (x : string).
Context (f : Coord → list (list string) → result (list (list string))).
Hypothesis f_def : ∀ c g,
  f c g = (cell ← getitem2 g c.1 c.2;
           if decide (P cell) then setitem2 g c.1 c.2 x else Ok g).

Lemma mark_step (g : list (list string)) (c : Coord) :
  inside g c →
  ∃ g', f c g = Ok g' ∧ shape g' = shape g ∧
        ∀ q, 0 <= q.1 → 0 <= q.2 →
          grid_get g' q =
            (s ← grid_get g q; Some (if decide (q = c ∧ P s) then x else s)).
Proof.
  intros Hin. pose proof Hin as (Hr & Hc & [s0 Hs0]).
  rewrite f_def, (getitem2_grid_get g c s0) by done. simpl.
  destruct (decide (P s0)) as [HP|HP].
  - rewrite setitem2_grid_set by done. eexists. split; [done|].
    split; [apply shape_grid_set|]. intros q Hqr Hqc.
    rewrite grid_get_grid_set by done.
    destruct (decide (q = c)) as [->|Hne].
    + rewrite Hs0. simpl. by rewrite decide_True.
    + destruct (grid_get g q) as [s|]; [|done]. simpl.
      rewrite decide_False; [done|]. by intros [? _].
  - exists g. split_and!; [done..|]. intros q Hqr Hqc.
    destruct (grid_get g q) as [s|] eqn:Hs; [|done]. simpl.
    rewrite decide_False; [done|]. intros [-> HPs]. congruence.
Qed.

Lemma mark_loop (l : list Coord) :
  ∀ g, Forall (inside g) l →
    ∃ g', for_each f l g = Ok g' ∧ shape g' = shape g ∧
          ∀ q, 0 <= q.1 → 0 <= q.2 →
            grid_get g' q =
              (s ← grid_get g q; Some (if decide (q ∈ l ∧ P s) then x else s)).
Proof.
  induction l as [|c l IH]; intros g Hall.
  - exists g. split_and!; [done..|]. intros q _ _.
    by destruct (grid_get g q) as [s|].
  - apply Forall_cons in Hall as [Hc Hall].
    destruct (mark_step g c Hc) as (g1 & Hrun1 & Hsh1 & Hget1).
    destruct (IH g1) as (g' & Hrun & Hsh & Hget).
    { eapply Forall_impl; [exact Hall|]. intros q. by apply inside_shape. }
    exists g'. simpl. rewrite Hrun1. simpl. split_and!; [done|congruence|].
    intros q Hqr Hqc. rewrite Hget, Hget1 by done.
    destruct (grid_get g q) as [s|]; [|done]. simpl. f_equal.
    destruct (decide (q = c ∧ P s)) as [[-> HP]|Hno].
    + rewrite (decide_True (P := c ∈ c :: l ∧ P s)) by (split; [by left|done]).
      by destruct (decide (c ∈ l ∧ P x)).
    + destruct (decide (q ∈ l ∧ P s)) as [[Hq HP]|Hno'].
      * rewrite decide_True; [done|]. split; [by right|done].
      * rewrite decide_False; [done|].
        intros [[->|Hq]%elem_of_cons HP]; tauto.
Qed.

End Marking.

Lemma draw_cells_phases (m : Maze) (path : option (list Coord))
    (visited : option (gset Coord)) :
  draw_cells m path visited =
    (g ← for_each mark_visited (elements (overlay_cells visited)) (grid m);
     g ← for_each mark_path (path_cells path) g;
     g ← mark_endpoint "S" (start m) g;
     mark_endpoint "E" (end_ m) g).
Proof.
  unfold draw_cells.
  assert (match visited with
          | Some vs => if decide (vs ≠ ∅)
                       then for_each mark_visited (elements vs) (grid m)
                       else Ok (grid m)
          | None => Ok (grid m)
          end
          = for_each mark_visited (elements (overlay_cells visited)) (grid m)) as ->.
  { destruct visited as [vs|]; simpl; [|by rewrite elements_empty].
    destruct (decide (vs ≠ ∅)) as [|Hvs]; [done|].
    apply dec_stable in Hvs as ->. by rewrite elements_empty. }
  destruct (for_each mark_visited _ (grid m)) as [g| |]; simpl; [|done..].
  assert (match path with
          | Some p => if decide (p ≠ []) then for_each mark_path p g else Ok g
          | None => Ok g
          end = for_each mark_path (path_cells path) g) as ->; [|done].
  destruct path as [p|]; simpl; [|done].
  destruct (decide (p ≠ [])) as [|Hp]; [done|].
  by apply dec_stable in Hp as ->.
Qed.

(** The character grid that [draw_with_path] joins. *)
Lemma draw_cells_spec (m : Maze) (path : option (list Coord))
    (visited : option (gset Coord)) :
  plain_grid m →
  inside (grid m) (start m) → inside (grid m) (end_ m) →
  Forall (inside (grid m)) (path_cells path) →
  (∀ c, c ∈ overlay_cells visited → inside (grid m) c) →
  ∃ g, draw_cells m path visited = Ok g ∧ shape g = shape (grid m) ∧
       ∀ c s, 0 <= c.1 → 0 <= c.2 → cell_at m c = Some s →
         grid_get g c = Some (overlay_char m path visited c s).
Proof.
  intros Hplain Hs He Hpath Hvis. rewrite draw_cells_phases.
  destruct (mark_loop (λ s, s = OPEN) MIDDOT mark_visited (λ _ _, eq_refl)
              (elements (overlay_cells visited)) (grid m))
    as (g1 & -> & Hsh1 & Hget1).
  { apply Forall_forall. intros c Hc. apply Hvis. by apply elem_of_elements. }
  simpl.
  destruct (mark_loop (λ s, s ∉ ["S"; "E"]) STAR mark_path (λ _ _, eq_refl)
              (path_cells path) g1) as (g2 & -> & Hsh2 & Hget2).
  { eapply Forall_impl; [exact Hpath|]. intros c. by apply inside_shape. }
  simpl.
  destruct (mark_step (λ s, s ≠ STAR) "S" (mark_endpoint "S") (λ _ _, eq_refl)
              g2 (start m)) as (g3 & -> & Hsh3 & Hget3).
  { eapply inside_shape; [|exact Hs]. congruence. }
  simpl.
  destruct (mark_step (λ s, s ≠ STAR) "E" (mark_endpoint "E") (λ _ _, eq_refl)
              g3 (end_ m)) as (g4 & -> & Hsh4 & Hget4).
  { eapply inside_shape; [|exact He]. congruence. }
  exists g4. split_and!; [done|congruence|].
  intros c s Hr Hc Hcell. unfold cell_at in Hcell.
  rewrite Hget4, Hget3, Hget2, Hget1, Hcell by done. simpl. f_equal.
  assert (s = WALL ∨ s = OPEN) as Hws.
  { unfold plain_grid in Hplain. rewrite Forall_forall in Hplain.
    unfold grid_get in Hcell.
    destruct (grid m !! Z.to_nat c.1) as [row|] eqn:Hrow; [|done]. simpl in Hcell.
    pose proof (Hplain row (list_elem_of_lookup_2 _ _ _ Hrow)) as Hrowp.
    rewrite Forall_forall in Hrowp. apply Hrowp.
    by eapply list_elem_of_lookup_2. }
  unfold overlay_char.
  assert (∀ t : string, t ∈ ["S"; "E"] ↔ t = "S" ∨ t = "E") as Hse.
  { intros t. rewrite !elem_of_cons, elem_of_nil. tauto. }
  set (s1 := if decide (c ∈ elements (overlay_cells visited) ∧ s = OPEN)
             then MIDDOT else s).
  assert ((s1 ∉ ["S"; "E"]) ∧ s1 ≠ STAR ∧
          s1 = if decide (c ∈ overlay_cells visited ∧ s = OPEN)
               then MIDDOT else s) as (Hs1 & Hs1' & Heq).
  { unfold s1. rewrite Hse.
    destruct (decide (c ∈ elements (overlay_cells visited) ∧ s = OPEN))
      as [[Hv Ho]|Hno].
    - rewrite decide_True by (by rewrite <- elem_of_elements).
      unfold MIDDOT, STAR. split_and!; [intros [?|?]; done|done..].
    - rewrite decide_False by (by rewrite <- elem_of_elements).
      unfold WALL, OPEN, STAR in *.
      destruct Hws as [-> | ->]; split_and!; try done; intros [?|?]; done. }
  rewrite <- Heq. clearbody s1.
  destruct (decide (c ∈ path_cells path)) as [Hp|Hp].
  - destruct (decide (c ∈ path_cells path ∧ s1 ∉ ["S"; "E"])); [|tauto].
    destruct (decide (c = start m ∧ STAR ≠ STAR)) as [[_ ?]|_]; [done|].
    by destruct (decide (c = end_ m ∧ STAR ≠ STAR)) as [[_ ?]|_].
  - destruct (decide (c ∈ path_cells path ∧ s1 ∉ ["S"; "E"])); [tauto|].
    destruct (decide (c = start m)) as [Hcs|Hcs].
    + destruct (decide (c = start m ∧ s1 ≠ STAR)); [|tauto].
      destruct (decide (c = end_ m)) as [Hce|Hce].
      * by destruct (decide (c = end_ m ∧ "S" ≠ STAR)) as [|[]].
      * by destruct (decide (c = end_ m ∧ "S" ≠ STAR)) as [[? _]|].
    + destruct (decide (c = start m ∧ s1 ≠ STAR)); [tauto|].
      destruct (decide (c = end_ m)) as [Hce|Hce].
      * by destruct (decide (c = end_ m ∧ s1 ≠ STAR)) as [|[]].
      * by destruct (decide (c = end_ m ∧ s1 ≠ STAR)) as [[? _]|].
Qed.

(** * The properties of the specification *)

Lemma sample_maze_rectangular : rectangular sample_maze.
Proof. unfold rectangular. simpl. repeat constructor. Qed.

Lemma sample_maze_start_open : is_open sample_maze (start sample_maze).
Proof. by apply is_openb_spec. Qed.

Lemma sample_maze_fuel : (enough_fuel sample_maze ≤ 30)%nat.
Proof. vm_compute. lia. Qed.

(** ** The grid model *)

(** C6.  On a grid whose rows all have the length of the first,
    [neighbors(cell)] yields the cells among down, up, right, left (in this
    order) that are in bounds and not a wall: each of them once, nothing
    else, and never an exception.  The sequence is a function of the grid
    and the cell, so it is the same on every invocation. *)
Theorem neighbors_exact (m : Maze) (r c : Z) :
  rectangular m →
  neighbors m (r, c) =
    Ok (filter (λ p, is_openb m p = true)
          [(r + 1, c); (r - 1, c); (r, c + 1); (r, c - 1)]) ∧
  ∀ nbs, neighbors m (r, c) = Ok nbs →
    NoDup nbs ∧
    ∀ v, v ∈ nbs ↔ adjacent (r, c) v ∧ in_bounds m v ∧ is_open m v.
Proof.
  intros Hrect. pose proof (neighbors_filter m (r, c) Hrect) as Heq.
  split; [exact Heq|]. intros nbs Hnbs. rewrite Heq in Hnbs.
  injection Hnbs as <-. split.
  - apply NoDup_filter. unfold around. simpl.
    repeat (apply NoDup_cons; split;
            [rewrite ?elem_of_cons, elem_of_nil; intros H;
             repeat (destruct H as [H|H]); try done;
             injection H; lia|]).
    apply NoDup_nil_2.
  - intros v. rewrite list_elem_of_filter, is_openb_spec, elem_of_around.
    unfold is_open. tauto.
Qed.

Lemma neighbors_exact_sample :
  rectangular sample_maze ∧
  neighbors sample_maze (0, 1) = Ok [(0, 2); (0, 0)].
Proof.
  split; [exact sample_maze_rectangular|].
  destruct (neighbors_exact sample_maze 0 1 sample_maze_rectangular) as [Heq _].
  exact Heq.
Defined.

(** ** The searches

    Each theorem has two parts: with fuel from [enough_fuel] on, the search
    returns; and whatever a search returns, with any fuel, has the stated
    property.  The second part also covers a run of [dfs_backtracking]
    whose recursion depth is limited. *)

(** C1.  On a rectangular grid with an open start cell, [bfs] returns.  If
    some path of open, 4-adjacent cells leads from start to end, it returns
    such a path and no path has fewer edges.  If there is none, it returns
    [None] for the path (not an empty list) together with the visited set,
    which then holds exactly the cells reachable from start. *)
Theorem bfs_shortest_path (m : Maze) :
  rectangular m → is_open m (start m) →
  (∀ fuel, (enough_fuel m ≤ fuel)%nat →
     ∃ path visited, bfs fuel m = Ok (path, visited)) ∧
  (∀ fuel path visited, bfs fuel m = Ok (path, visited) →
     ((∃ p', is_path m p') →
        ∃ p, path = Some p ∧ is_path m p ∧
             ∀ p', is_path m p' → (edge_count p ≤ edge_count p')%nat) ∧
     ((∀ p', ¬ is_path m p') →
        path = None ∧ ∀ v, v ∈ visited ↔ ∃ n, walk m (start m) v n)).
Proof.
  intros Hrect Hopen. split.
  { intros fuel Hfuel.
    destruct (bfs_correct m fuel Hrect Hfuel) as ([path visited] & Hrun & _).
    eauto. }
  intros fuel path visited Hrun.
  destruct (bfs_returns_post m fuel _ Hrect Hrun)
    as (d & par & Htree & Hs & Hsub & Hres).
  simpl in *. destruct path as [p|].
  - destruct Hres as [Hbr Hmin].
    pose proof (branch_is_path m visited d p Hopen Hbr) as Hp.
    split.
    + intros _. exists p. split_and!; [done..|].
      intros p' Hp'. apply is_path_walk, Hmin in Hp'.
      pose proof (branch_length m visited d p _ (proj1 Htree) Hbr) as Hlen.
      unfold edge_count at 1. rewrite Hlen. simpl. done.
    + intros Hno. by destruct (Hno p).
  - destruct Hres as [Hend Hreach]. split.
    + intros [p' Hp']. apply is_path_walk, Hreach in Hp'. done.
    + intros _. split; [done|]. intros v. split.
      * intros Hv. by eapply tree_visited_walk.
      * intros [n Hw]. by eapply Hreach.
Qed.

Lemma bfs_shortest_path_sample :
  rectangular sample_maze ∧ is_open sample_maze (start sample_maze) ∧
  (∃ path visited, bfs 30 sample_maze = Ok (path, visited)) ∧
  (∀ fuel path visited, bfs fuel sample_maze = Ok (path, visited) →
     ((∃ p', is_path sample_maze p') →
        ∃ p, path = Some p ∧ is_path sample_maze p ∧
             ∀ p', is_path sample_maze p' → (edge_count p ≤ edge_count p')%nat) ∧
     ((∀ p', ¬ is_path sample_maze p') →
        path = None ∧
        ∀ v, v ∈ visited ↔ ∃ n, walk sample_maze (start sample_maze) v n)).
Proof.
  destruct (bfs_shortest_path sample_maze sample_maze_rectangular
              sample_maze_start_open) as [Hret Hany].
  split_and!;
    [exact sample_maze_rectangular|exact sample_maze_start_open
    |exact (Hret 30%nat sample_maze_fuel)|exact Hany].
Defined.

(** What [bfs] computes on the sample grid: a path of four steps. *)
Example bfs_sample :
  ∃ visited, bfs 30 sample_maze = Ok (Some sample_path, visited).
Proof. eexists. vm_compute. reflexivity. Qed.

(** C2.  On a rectangular grid with an open start cell, both [bfs] and
    [dfs_backtracking] return, and a path they return starts at start, ends
    at end, consists of in-bounds open cells, moves by exactly one unit in
    exactly one of row and column at each step, and repeats no cell. *)
Theorem search_path_valid (m : Maze) :
  rectangular m → is_open m (start m) →
  (∀ fuel, (enough_fuel m ≤ fuel)%nat →
     (∃ path visited, bfs fuel m = Ok (path, visited)) ∧
     (∃ path visited, dfs_backtracking fuel m = Ok (path, visited))) ∧
  (∀ fuel p visited,
     bfs fuel m = Ok (Some p, visited) ∨
     dfs_backtracking fuel m = Ok (Some p, visited) →
     valid_simple_path m p).
Proof.
  intros Hrect Hopen. split.
  { intros fuel Hfuel. split.
    - destruct (bfs_correct m fuel Hrect Hfuel) as ([path visited] & Hrun & _).
      eauto.
    - destruct (dfs_backtracking_correct m fuel Hrect Hfuel)
        as ([path visited] & Hrun & _). eauto. }
  intros fuel p visited Hrun.
  assert (search_post m (Some p, visited)) as (d & par & _ & _ & _ & Hbr).
  { destruct Hrun as [Hrun|Hrun].
    - by eapply bfs_post_search_post, bfs_returns_post.
    - by eapply dfs_backtracking_returns_post. }
  simpl in Hbr. by eapply branch_valid_simple_path.
Qed.

Lemma search_path_valid_sample :
  rectangular sample_maze ∧ is_open sample_maze (start sample_maze) ∧
  (∃ path visited, bfs 30 sample_maze = Ok (path, visited)) ∧
  (∃ path visited, dfs_backtracking 30 sample_maze = Ok (path, visited)) ∧
  (∀ fuel p visited,
     bfs fuel sample_maze = Ok (Some p, visited) ∨
     dfs_backtracking fuel sample_maze = Ok (Some p, visited) →
     valid_simple_path sample_maze p).
Proof.
  destruct (search_path_valid sample_maze sample_maze_rectangular
              sample_maze_start_open) as [Hret Hany].
  destruct (Hret 30%nat sample_maze_fuel) as [Hbfs Hdfs].
  split_and!;
    [exact sample_maze_rectangular|exact sample_maze_start_open
    |exact Hbfs|exact Hdfs|exact Hany].
Defined.

(** What [dfs_backtracking] computes on the sample grid: the same path
    here, with fewer cells visited. *)
Example dfs_sample :
  ∃ visited, dfs_backtracking 30 sample_maze = Ok (Some sample_path, visited) ∧
             elements visited = [(0, 0); (2, 0); (1, 0); (2, 1); (2, 2)].
Proof. eexists. split; vm_compute; reflexivity. Qed.

(** C8.  On a rectangular grid both searches return a visited set that
    contains start, and every cell of a returned path is in that set. *)
Theorem search_visited_covers (m : Maze) :
  rectangular m →
  (∀ fuel, (enough_fuel m ≤ fuel)%nat →
     (∃ path visited, bfs fuel m = Ok (path, visited)) ∧
     (∃ path visited, dfs_backtracking fuel m = Ok (path, visited))) ∧
  (∀ fuel path visited,
     bfs fuel m = Ok (path, visited) ∨
     dfs_backtracking fuel m = Ok (path, visited) →
     start m ∈ visited ∧ ∀ p, path = Some p → ∀ c, c ∈ p → c ∈ visited).
Proof.
  intros Hrect. split.
  { intros fuel Hfuel. split.
    - destruct (bfs_correct m fuel Hrect Hfuel) as ([path visited] & Hrun & _).
      eauto.
    - destruct (dfs_backtracking_correct m fuel Hrect Hfuel)
        as ([path visited] & Hrun & _). eauto. }
  intros fuel path visited Hrun.
  assert (search_post m (path, visited)) as (d & par & _ & Hs & _ & Hres).
  { destruct Hrun as [Hrun|Hrun].
    - by eapply bfs_post_search_post, bfs_returns_post.
    - by eapply dfs_backtracking_returns_post. }
  split; [done|]. intros p -> c Hc. simpl in Hres.
  pose proof (branch_visited m visited d p _ Hres) as Hall.
  rewrite Forall_forall in Hall. by apply Hall.
Qed.

Lemma search_visited_covers_sample :
  rectangular sample_maze ∧
  (∃ path visited, bfs 30 sample_maze = Ok (path, visited)) ∧
  (∃ path visited, dfs_backtracking 30 sample_maze = Ok (path, visited)) ∧
  (∀ fuel path visited,
     bfs fuel sample_maze = Ok (path, visited) ∨
     dfs_backtracking fuel sample_maze = Ok (path, visited) →
     start sample_maze ∈ visited ∧
     ∀ p, path = Some p → ∀ c, c ∈ p → c ∈ visited).
Proof.
  destruct (search_visited_covers sample_maze sample_maze_rectangular)
    as [Hret Hany].
  destruct (Hret 30%nat sample_maze_fuel) as [Hbfs Hdfs].
  split_and!; [exact sample_maze_rectangular|exact Hbfs|exact Hdfs|exact Hany].
Defined.

(** C10.  On a rectangular grid neither search ends in an exception, and
    with enough fuel both return: in particular the lookups [parents[cur]]
    of [reconstruct_path], the only source of [KeyError], all succeed and
    its loop ends.  Reconstruction is run only with the end cell visited,
    and the sequence it returns begins with start and ends with end. *)
Theorem reconstruction_total (m : Maze) :
  rectangular m →
  (∀ fuel, (enough_fuel m ≤ fuel)%nat →
     (∃ path visited, bfs fuel m = Ok (path, visited)) ∧
     (∃ path visited, dfs_backtracking fuel m = Ok (path, visited))) ∧
  (∀ fuel exc, bfs fuel m ≠ Raise exc ∧ dfs_backtracking fuel m ≠ Raise exc) ∧
  (∀ fuel p visited,
     bfs fuel m = Ok (Some p, visited) ∨
     dfs_backtracking fuel m = Ok (Some p, visited) →
     end_ m ∈ visited ∧ head p = Some (start m) ∧ last p = Some (end_ m)).
Proof.
  intros Hrect. split_and!.
  - intros fuel Hfuel. split.
    + destruct (bfs_correct m fuel Hrect Hfuel) as ([path visited] & Hrun & _).
      eauto.
    + destruct (dfs_backtracking_correct m fuel Hrect Hfuel)
        as ([path visited] & Hrun & _). eauto.
  - intros fuel exc. split; intros Hrun.
    + destruct (bfs_correct m (fuel `max` enough_fuel m) Hrect)
        as (res & Hrun' & _); [lia|].
      destruct (bfs_loop_fuel m fuel (fuel `max` enough_fuel m) ltac:(lia)
                  (mkBfs [start m] ∅ {[start m]})) as [Hout|Heq];
        unfold bfs in *; congruence.
    + destruct (dfs_backtracking_correct m (fuel `max` enough_fuel m) Hrect)
        as (res & Hrun' & _); [lia|].
      destruct (dfs_backtracking_fuel m fuel (fuel `max` enough_fuel m)
                  ltac:(lia)) as [Hout|Heq]; congruence.
  - intros fuel p visited Hrun.
    assert (search_post m (Some p, visited)) as (d & par & _ & _ & _ & Hbr).
    { destruct Hrun as [Hrun|Hrun].
      - by eapply bfs_post_search_post, bfs_returns_post.
      - by eapply dfs_backtracking_returns_post. }
    simpl in Hbr. split_and!.
    + pose proof (branch_visited m visited d p _ Hbr) as Hall.
      rewrite Forall_forall in Hall. apply Hall.
      apply list_elem_of_lookup. exists (Nat.pred (length p)).
      rewrite <- last_lookup. by eapply branch_last.
    + by eapply branch_head.
    + by eapply branch_last.
Qed.

Lemma reconstruction_total_sample :
  rectangular sample_maze ∧
  (∃ path visited, bfs 30 sample_maze = Ok (path, visited)) ∧
  (∃ path visited, dfs_backtracking 30 sample_maze = Ok (path, visited)) ∧
  (∀ fuel exc, bfs fuel sample_maze ≠ Raise exc ∧
               dfs_backtracking fuel sample_maze ≠ Raise exc).
Proof.
  destruct (reconstruction_total sample_maze sample_maze_rectangular)
    as (Hret & Hexc & _).
  destruct (Hret 30%nat sample_maze_fuel) as [Hbfs Hdfs].
  split_and!; [exact sample_maze_rectangular|exact Hbfs|exact Hdfs|exact Hexc].
Defined.

(** ** The generator *)

Lemma sample_params_valid : valid_params 3 3 (0, 0) (2, 2) 0.5%float.
Proof. unfold valid_params, coord_valid, density_valid. simpl. split_and!; try lia; done. Qed.

(** C3.  For a valid parameter bundle and any random source, [Maze.random]
    returns a maze whose start and end are the requested cells and both are
    open, whatever the density and the draws. *)
Theorem generated_endpoints_open (Rng : Type) (rng_random : Rng → float * Rng)
    (rows cols : Z) (s e : Coord) (density : float) (rng : Rng) :
  valid_params rows cols s e density →
  ∃ m rng', Maze_random Rng rng_random rows cols s e density rng = Ok (m, rng') ∧
    start m = s ∧ end_ m = e ∧
    cell_at m s = Some OPEN ∧ cell_at m e = Some OPEN ∧
    is_open m (start m) ∧ is_open m (end_ m).
Proof.
  intros Hvalid.
  destruct (Maze_random_ok Rng rng_random rows cols s e density rng Hvalid)
    as (m & Hrun & Hs & He & _ & _ & Hcell).
  destruct (Maze_random_well_formed Rng rng_random rows cols s e density rng
              m _ Hvalid Hrun) as (_ & _ & _ & Hos & Hoe).
  destruct Hvalid as (_ & _ & Hsv & Hev & _ & _).
  exists m. eexists. split; [exact Hrun|].
  split_and!; try done.
  - rewrite (Hcell s Hsv), decide_True by auto. done.
  - rewrite (Hcell e Hev), decide_True by auto. done.
Qed.

Lemma generated_endpoints_open_sample :
  valid_params 3 3 (0, 0) (2, 2) 0.5%float ∧
  ∃ m rng', Maze_random nat counter_random 3 3 (0, 0) (2, 2) 0.5%float 0%nat
              = Ok (m, rng') ∧
    start m = (0, 0) ∧ end_ m = (2, 2) ∧
    cell_at m (0, 0) = Some OPEN ∧ cell_at m (2, 2) = Some OPEN ∧
    is_open m (start m) ∧ is_open m (end_ m).
Proof.
  split; [exact sample_params_valid|].
  exact (generated_endpoints_open nat counter_random 3 3 (0, 0) (2, 2)
           0.5%float 0%nat sample_params_valid).
Defined.

(** C5.  [Maze.random] raises (a [ValueError]) exactly when rows < 2, or
    cols < 2, or start or end is out of bounds, or start equals end, or the
    density is not in [0.0, 1.0); then no maze is produced.  On every other
    input it returns a maze. *)
Theorem Maze_random_fails_iff (Rng : Type) (rng_random : Rng → float * Rng)
    (rows cols : Z) (s e : Coord) (density : float) (rng : Rng) :
  let outcome := Maze_random Rng rng_random rows cols s e density rng in
  let invalid := rows < 2 ∨ cols < 2 ∨ ¬ coord_valid rows cols s ∨
                 ¬ coord_valid rows cols e ∨ s = e ∨ ¬ density_valid density in
  ((∃ exc, outcome = Raise exc) ↔ invalid) ∧
  (invalid → ∃ msg, outcome = Raise (ValueError msg)) ∧
  ((∃ m rng', outcome = Ok (m, rng')) ↔ ¬ invalid).
Proof.
  intros outcome invalid.
  destruct (Maze_random_cases Rng rng_random rows cols s e density rng)
    as [[Hv (m & rng' & Hok)]|[Hinv (msg & Hraise)]]; fold outcome in Hok || fold outcome in Hraise.
  - apply valid_params_dec in Hv. fold invalid in Hv. split_and!.
    + split; [|done]. intros [exc Hexc]. congruence.
    + done.
    + split; [done|eauto].
  - fold invalid in Hinv. split_and!.
    + split; [done|eauto].
    + eauto.
    + split; [|done]. intros (m & rng' & Hok). congruence.
Qed.

(** Examples for C5: a one-row request and a density of 1.0 are rejected,
    without consuming the random source. *)
Example Maze_random_one_row :
  Maze_random nat counter_random 1 3 (0, 0) (0, 2) 0.5%float 0%nat
  = Raise (ValueError "rows and cols must be >= 2").
Proof. reflexivity. Qed.

Example Maze_random_density_one :
  Maze_random nat counter_random 3 3 (0, 0) (2, 2) 1%float 0%nat
  = Raise (ValueError "density must be in [0.0, 1.0)").
Proof. reflexivity. Qed.

Example Maze_random_sample :
  Maze_random nat counter_random 3 3 (0, 0) (2, 2) 0.5%float 0%nat
  = Ok (mkMaze [["."; "."; "."]; ["."; "#"; "."]; ["."; "."; "."]] (0, 0) (2, 2),
        9%nat).
Proof. reflexivity. Qed.

(** ** The retry loop *)

(** C4.  On a valid parameter bundle the loop of [main] is left with the
    maze, path, visited set and attempt count of its last cycle, after [k]
    cycles with [1 <= k <= max_tries] (200).  Without [ensure] it is one
    cycle, whatever the search found.  With [ensure], cycle [k] is the first
    one that found a path, or it is cycle number [max_tries] and no cycle
    before found one; the result of that last cycle is returned even when
    it has no path. *)
Theorem retry_loop_bounded (Rng : Type) (rng_random : Rng → float * Rng)
    (rows cols : Z) (s e : Coord) (density : float) (algo : string)
    (ensure : bool) (rng : Rng) (iters fuel : nat) :
  valid_params rows cols s e density →
  (Z.to_nat max_tries ≤ iters)%nat →
  (3 * S (Z.to_nat (rows * cols)) ≤ fuel)%nat →
  ∃ (k : nat) m path visited,
    main_loop Rng rng_random iters fuel rows cols s e density algo ensure 0 rng
      = Ok (Some (mkOutcome m path visited (Z.of_nat k))) ∧
    1 <= Z.of_nat k <= max_tries ∧
    nth_cycle Rng rng_random fuel rows cols s e density algo (k - 1) rng
      = Ok (m, path, visited) ∧
    (ensure = false → k = 1%nat) ∧
    (ensure = true →
       (path ≠ None ∨ Z.of_nat k = max_tries) ∧
       ∀ i, (i < k - 1)%nat →
         ∃ mi vi, nth_cycle Rng rng_random fuel rows cols s e density algo i rng
                    = Ok (mi, None, vi)).
Proof.
  intros Hvalid Hiters Hfuel.
  destruct (main_loop_from Rng rng_random rows cols s e density algo ensure fuel
              Hvalid Hfuel iters 0 rng)
    as (j & m & path & visited & Hrun & Hle & Hcyc & Hno & Hens).
  { unfold max_tries. lia. }
  { by rewrite Z.sub_0_r. }
  exists (S j), m, path, visited.
  replace (Z.of_nat (S j)) with (0 + 1 + Z.of_nat j) by lia.
  replace (S j - 1)%nat with j by lia.
  split_and!; [done|lia|done|done| |].
  - intros Hf. by rewrite (Hno Hf).
  - intros Ht. destruct (Hens Ht) as [Hlast Hbefore]. done.
Qed.

Lemma retry_loop_bounded_sample :
  valid_params 3 3 (0, 0) (2, 2) 0.5%float ∧
  (Z.to_nat max_tries ≤ 200)%nat ∧
  (3 * S (Z.to_nat (3 * 3)) ≤ 30)%nat ∧
  ∃ (k : nat) m path visited,
    main_loop nat counter_random 200 30 3 3 (0, 0) (2, 2) 0.5%float "bfs" true
      0 0%nat
      = Ok (Some (mkOutcome m path visited (Z.of_nat k))) ∧
    1 <= Z.of_nat k <= max_tries ∧
    nth_cycle nat counter_random 30 3 3 (0, 0) (2, 2) 0.5%float "bfs" (k - 1) 0%nat
      = Ok (m, path, visited) ∧
    (true = false → k = 1%nat) ∧
    (true = true →
       (path ≠ None ∨ Z.of_nat k = max_tries) ∧
       ∀ i, (i < k - 1)%nat →
         ∃ mi vi, nth_cycle nat counter_random 30 3 3 (0, 0) (2, 2) 0.5%float
                    "bfs" i 0%nat
                  = Ok (mi, None, vi)).
Proof.
  assert (Z.to_nat max_tries ≤ 200)%nat as Hiters by (vm_compute; lia).
  assert (3 * S (Z.to_nat (3 * 3)) ≤ 30)%nat as Hfuel by (vm_compute; lia).
  split_and!; [exact sample_params_valid|exact Hiters|exact Hfuel|].
  exact (retry_loop_bounded nat counter_random 3 3 (0, 0) (2, 2) 0.5%float
           "bfs" true 0%nat 200 30 sample_params_valid Hiters Hfuel).
Defined.

(** An invalid bundle ends [main] at the first attempt, without a result. *)
Example main_loop_input_error :
  main_loop nat counter_random 200 30 3 3 (0, 0) (3, 3) 0.5%float "bfs" true
    0 0%nat = Ok None.
Proof. reflexivity. Qed.

(** ** Reproducibility *)

(** C7.  Two runs on the same parameter bundle, each with a random source
    of its own, where the two sources produce the same draws (as two
    sources seeded alike do), generate the same maze and leave the loop of
    [main] with the same maze, path, visited set and attempt count.  The
    generator takes one draw per cell in row-major order: on valid
    parameters it consumes [rows * cols] draws and cell [(r, c)], unless it
    is start or end, is a wall exactly when draw number [r * cols + c] is
    below the density. *)
Theorem same_seed_same_results (R1 R2 : Type) (random1 : R1 → float * R1)
    (random2 : R2 → float * R2) (a : R1) (b : R2)
    (rows cols : Z) (s e : Coord) (density : float) (algo : string)
    (ensure : bool) (iters fuel : nat) :
  same_draws random1 random2 a b →
  maze_of (Maze_random R1 random1 rows cols s e density a)
  = maze_of (Maze_random R2 random2 rows cols s e density b) ∧
  main_loop R1 random1 iters fuel rows cols s e density algo ensure 0 a
  = main_loop R2 random2 iters fuel rows cols s e density algo ensure 0 b ∧
  (valid_params rows cols s e density →
   ∃ m, Maze_random R1 random1 rows cols s e density a
          = Ok (m, rng_skip R1 random1 (Z.to_nat rows * Z.to_nat cols) a) ∧
        ∀ p, coord_valid rows cols p →
          cell_at m p =
            Some (if decide (p = s ∨ p = e) then OPEN
                  else if (draw R1 random1
                             (Z.to_nat p.1 * Z.to_nat cols + Z.to_nat p.2) a
                           <? density)%float
                       then WALL else OPEN)).
Proof.
  intros Hsame. split_and!.
  - pose proof (Maze_random_same_draws R1 R2 random1 random2
                  rows cols s e density a b Hsame) as Hgen.
    unfold maze_of.
    destruct (Maze_random R1 random1 rows cols s e density a) as [[m1 a']|e1|],
             (Maze_random R2 random2 rows cols s e density b) as [[m2 b']|e2|];
      try done; simpl.
    + by destruct Hgen as [-> _].
    + by rewrite Hgen.
  - by apply main_loop_same_draws.
  - intros Hvalid.
    destruct (Maze_random_ok R1 random1 rows cols s e density a Hvalid)
      as (m & Hrun & _ & _ & _ & _ & Hcell).
    exists m. split; [done|]. exact Hcell.
Qed.

Lemma same_seed_same_results_sample :
  same_draws counter_random zcounter_random 0%nat 0 ∧
  maze_of (Maze_random nat counter_random 3 3 (0, 0) (2, 2) 0.5%float 0%nat)
  = maze_of (Maze_random Z zcounter_random 3 3 (0, 0) (2, 2) 0.5%float 0) ∧
  main_loop nat counter_random 200 30 3 3 (0, 0) (2, 2) 0.5%float "dfs" true 0 0%nat
  = main_loop Z zcounter_random 200 30 3 3 (0, 0) (2, 2) 0.5%float "dfs" true 0 0.
Proof.
  split; [exact counters_same_draws|].
  destruct (same_seed_same_results nat Z counter_random zcounter_random 0%nat 0
              3 3 (0, 0) (2, 2) 0.5%float "dfs" true 200 30 counters_same_draws)
    as (Hmaze & Hloop & _).
  split; [exact Hmaze|exact Hloop].
Defined.

(** ** The rendering *)

Lemma sample_maze_plain : plain_grid sample_maze.
Proof.
  unfold plain_grid, sample_maze, WALL, OPEN. simpl.
  repeat (apply Forall_cons; split); try apply Forall_nil; auto.
Qed.

Lemma sample_path_in_bounds : Forall (in_bounds sample_maze) sample_path.
Proof.
  unfold sample_path.
  repeat (constructor; [by apply in_boundsb_spec|]). constructor.
Qed.

Lemma sample_overlay_in_bounds :
  ∀ c, c ∈ overlay_cells (Some ({[(0, 0); (0, 1); (1, 0); (2, 0); (2, 1); (2, 2)]}
                                  : gset Coord)) →
       in_bounds sample_maze c.
Proof.
  intros c. simpl. rewrite !elem_of_union, !elem_of_singleton.
  intros [[[[[->| ->]| ->]| ->]| ->]| ->]; by apply in_boundsb_spec.
Qed.

(** C9, as the code has it.  On a rectangular grid of walls and open cells,
    with the path and the overlay cells in bounds, the rendering has the
    shape of the grid and shows at each cell: [*] on every path cell, the
    start and end cells included; else [E] and [S] on the end and start
    cell; else the middle dot on a visited open cell, when an overlay is
    given; else the grid's own character.  So with a path from start to
    end, start and end show [*], and every visited open cell off the path
    shows the middle dot. *)
Theorem draw_overlay_cells (m : Maze) (path : list Coord)
    (visited : option (gset Coord)) :
  rectangular m → plain_grid m →
  in_bounds m (start m) → in_bounds m (end_ m) →
  Forall (in_bounds m) path →
  (∀ c, c ∈ overlay_cells visited → in_bounds m c) →
  ∃ g, draw_cells m (Some path) visited = Ok g ∧
       draw_with_path m (Some path) visited
         = Ok (String.concat NEWLINE (map (String.concat "") g)) ∧
       shape g = shape (grid m) ∧
       (∀ c s, in_bounds m c → cell_at m c = Some s →
          grid_get g c = Some (overlay_char m (Some path) visited c s)) ∧
       (∀ c, c ∈ path → grid_get g c = Some STAR) ∧
       (∀ c, c ∈ overlay_cells visited → c ∉ path →
          c ≠ start m → c ≠ end_ m → cell_at m c = Some OPEN →
          grid_get g c = Some MIDDOT).
Proof.
  intros Hrect Hplain Hs He Hpath Hvis.
  destruct (draw_cells_spec m (Some path) visited) as (g & Hrun & Hsh & Hget).
  - done.
  - by apply inside_in_bounds.
  - by apply inside_in_bounds.
  - simpl. eapply Forall_impl; [exact Hpath|]. intros c. by apply inside_in_bounds.
  - intros c Hc. by apply inside_in_bounds, Hvis.
  - exists g. split_and!; [done| |done| | |].
    + unfold draw_with_path. by rewrite Hrun.
    + intros c s [[Hr _] [Hc _]] Hcell. by apply Hget.
    + intros c Hc. rewrite Forall_forall in Hpath.
      pose proof (Hpath c Hc) as Hb.
      destruct (in_bounds_cell m c Hrect Hb) as (s & Hcell & _).
      destruct Hb as [[Hr _] [Hcc _]].
      rewrite (Hget c s Hr Hcc Hcell). unfold overlay_char. simpl.
      by rewrite decide_True.
    + intros c Hc Hnp Hns Hne Hcell.
      destruct (Hvis c Hc) as [[Hr _] [Hcc _]].
      rewrite (Hget c OPEN Hr Hcc Hcell). unfold overlay_char. simpl.
      rewrite !decide_False by done. by rewrite decide_True.
Qed.

Lemma draw_overlay_cells_sample :
  rectangular sample_maze ∧ plain_grid sample_maze ∧
  in_bounds sample_maze (start sample_maze) ∧
  in_bounds sample_maze (end_ sample_maze) ∧
  Forall (in_bounds sample_maze) sample_path ∧
  ∃ g, draw_cells sample_maze (Some sample_path)
         (Some {[(0, 0); (0, 1); (1, 0); (2, 0); (2, 1); (2, 2)]}) = Ok g ∧
       (∀ c, c ∈ sample_path → grid_get g c = Some STAR) ∧
       grid_get g (0, 1) = Some MIDDOT.
Proof.
  assert (in_bounds sample_maze (start sample_maze)) as Hs
    by (by apply in_boundsb_spec).
  assert (in_bounds sample_maze (end_ sample_maze)) as He
    by (by apply in_boundsb_spec).
  split_and!; [exact sample_maze_rectangular|exact sample_maze_plain|exact Hs
              |exact He|exact sample_path_in_bounds|].
  destruct (draw_overlay_cells sample_maze sample_path
              (Some {[(0, 0); (0, 1); (1, 0); (2, 0); (2, 1); (2, 2)]})
              sample_maze_rectangular sample_maze_plain Hs He
              sample_path_in_bounds sample_overlay_in_bounds)
    as (g & Hrun & _ & _ & _ & Hstar & Hdot).
  exists g. split_and!; [exact Hrun|exact Hstar|].
  apply Hdot;
    [apply (bool_decide_unpack _); vm_compute; exact I
    |apply (bool_decide_unpack _); vm_compute; exact I
    |discriminate|discriminate|reflexivity].
Defined.

(** The path [bfs] returns on the sample grid has start and end on it, and
    the rendering then shows [*] there: neither [S] nor [E] appears. *)
Lemma draw_with_path_hides_endpoints :
  (∃ visited, bfs 30 sample_maze = Ok (Some sample_path, visited)) ∧
  draw_cells sample_maze (Some sample_path) None
    = Ok [["*"; "."; "."]; ["*"; "#"; "."]; ["*"; "*"; "*"]] ∧
  draw_with_path sample_maze (Some sample_path) None
    = Ok ("*.." +:+ NEWLINE +:+ "*#." +:+ NEWLINE +:+ "***") ∧
  getitem2 [["*"; "."; "."]; ["*"; "#"; "."]; ["*"; "*"; "*"]] 0 0 ≠ Ok "S" ∧
  getitem2 [["*"; "."; "."]; ["*"; "#"; "."]; ["*"; "*"; "*"]] 2 2 ≠ Ok "E".
Proof.
  split_and!.
  - eexists. vm_compute. reflexivity.
  - vm_compute. reflexivity.
  - vm_compute. reflexivity.
  - vm_compute. discriminate.
  - vm_compute. discriminate.
Qed.

(** Without a path the endpoint letters do appear. *)
Example draw_without_path :
  draw_cells sample_maze None None
  = Ok [["S"; "."; "."]; ["."; "#"; "."]; ["."; "."; "E"]].
Proof. reflexivity. Qed.

(** * Further properties of the code *)

(** ** [reconstruct_path] on an arbitrary parent map *)

Lemma linked_lookup (parents : gmap Coord Coord) (s : Coord) (l : list Coord) :
  linked parents s l →
  ∀ i a b, l !! i = Some a → l !! S i = Some b → parents !! b = Some a ∧ b ≠ s.
Proof.
  induction l as [|x l IH]; intros Hl i a b Ha Hb; [done|].
  destruct l as [|y l]; [done|]. destruct Hl as (Hxy & Hy & Hrest).
  destruct i as [|i]; simpl in *.
  - by simplify_eq.
  - by apply (IH Hrest i).
Qed.

Lemma head_reverse_last {A : Type} (l : list A) : head (reverse l) = last l.
Proof.
  induction l as [|x l IH] using rev_ind; [done|].
  by rewrite reverse_snoc, last_snoc.
Qed.

Lemma reconstruct_loop_linked (parents : gmap Coord Coord) (s : Coord) (fuel : nat) :
  ∀ cur acc p,
    reconstruct_loop fuel parents s cur acc = Ok p →
    last acc = Some cur → linked parents s (reverse acc) →
    head p = Some s ∧ linked parents s p ∧ ∃ l, p = l ++ reverse acc.
Proof.
  induction fuel as [|fuel IH]; intros cur acc p Hrun Hlast Hlinked; [done|].
  simpl in Hrun. destruct (decide (cur ≠ s)) as [Hne|Heq].
  - destruct (parents !! cur) as [q|] eqn:Hq; [|done].
    destruct (IH q (acc ++ [q]) p Hrun) as (Hhd & Hl & l & ->).
    + apply last_snoc.
    + rewrite reverse_snoc. simpl.
      pose proof (head_reverse_last acc) as Hh. rewrite Hlast in Hh.
      destruct (reverse acc) as [|x rest]; [done|].
      injection Hh as ->. done.
    + split_and!; [done..|]. exists (l ++ [q]).
      by rewrite reverse_snoc, <- app_assoc.
  - apply dec_stable in Heq as ->. injection Hrun as <-.
    split_and!; [by rewrite head_reverse_last|done|by exists []].
Qed.

(** X1.  Whatever the parent map, a list returned by [reconstruct_path]
    begins with [start], ends with [end], and each of its elements is the
    recorded parent of the next one; [start] occurs only at the head. *)
Theorem reconstruct_path_chain (fuel : nat) (parents : gmap Coord Coord)
    (e s : Coord) (p : list Coord) :
  reconstruct_path fuel parents e s = Ok p →
  head p = Some s ∧ last p = Some e ∧
  ∀ i a b, p !! i = Some a → p !! S i = Some b →
           parents !! b = Some a ∧ b ≠ s.
Proof.
  intros Hrun. unfold reconstruct_path in Hrun.
  destruct (reconstruct_loop_linked parents s fuel e [e] p Hrun)
    as (Hhd & Hl & l & ->); [done..|].
  split_and!; [done|apply last_snoc|].
  by apply linked_lookup.
Qed.

Lemma reconstruct_path_chain_sample :
  reconstruct_path 5 {[(0, 1) := (0, 0); (0, 2) := (0, 1)]} (0, 2) (0, 0)
    = Ok [(0, 0); (0, 1); (0, 2)] ∧
  head [(0, 0); (0, 1); (0, 2)] = Some (0, 0) ∧
  last [(0, 0); (0, 1); (0, 2)] = Some (0, 2).
Proof.
  assert (reconstruct_path 5 {[(0, 1) := (0, 0); (0, 2) := (0, 1)]} (0, 2) (0, 0)
          = Ok [(0, 0); (0, 1); (0, 2)]) as Hrun by (vm_compute; reflexivity).
  split; [exact Hrun|].
  destruct (reconstruct_path_chain _ _ _ _ _ Hrun) as (Hhd & Hlast & _).
  split; [exact Hhd|exact Hlast].
Defined.

Lemma reconstruct_loop_raises (parents : gmap Coord Coord) (s : Coord) (fuel : nat) :
  ∀ cur acc exc,
    reconstruct_loop fuel parents s cur acc = Raise exc →
    exc = KeyError ∧
    ∃ x, x ≠ s ∧ parents !! x = None ∧ (x = cur ∨ ∃ y, parents !! y = Some x).
Proof.
  induction fuel as [|fuel IH]; intros cur acc exc Hrun; [done|].
  simpl in Hrun. destruct (decide (cur ≠ s)) as [Hne|Heq]; [|done].
  destruct (parents !! cur) as [q|] eqn:Hq.
  - destruct (IH q _ exc Hrun) as (-> & x & Hx & Hnone & Hor).
    split; [done|]. exists x. split_and!; [done..|]. right.
    destruct Hor as [->|Hy]; [by exists cur|done].
  - injection Hrun as <-. split; [done|]. exists cur. auto.
Qed.

(** X2.  The only exception of [reconstruct_path] is [KeyError], and it is
    raised only when the walk back from [end] arrives at a cell other than
    [start] that has no entry in the parent map. *)
Theorem reconstruct_path_raises (fuel : nat) (parents : gmap Coord Coord)
    (e s : Coord) (exc : exn) :
  reconstruct_path fuel parents e s = Raise exc →
  exc = KeyError ∧
  ∃ x, x ≠ s ∧ parents !! x = None ∧ (x = e ∨ ∃ y, parents !! y = Some x).
Proof. apply reconstruct_loop_raises. Qed.

Lemma reconstruct_path_raises_sample :
  reconstruct_path 5 {[(0, 2) := (0, 1)]} (0, 2) (0, 0) = Raise KeyError ∧
  ∃ x, x ≠ (0, 0) ∧ ({[(0, 2) := (0, 1)]} : gmap Coord Coord) !! x = None ∧
       (x = (0, 2) ∨ ∃ y, ({[(0, 2) := (0, 1)]} : gmap Coord Coord) !! y = Some x).
Proof.
  assert (reconstruct_path 5 {[(0, 2) := (0, 1)]} (0, 2) (0, 0) = Raise KeyError)
    as Hrun by (vm_compute; reflexivity).
  split; [exact Hrun|].
  exact (proj2 (reconstruct_path_raises _ _ _ _ _ Hrun)).
Defined.

(** X3.  On a parent map that leads from [end] around a cycle, without ever
    meeting [start], the loop of [reconstruct_path] does not end: no amount
    of fuel gives a result. *)
Theorem reconstruct_path_cycle (parents : gmap Coord Coord) (cyc : gset Coord)
    (e s : Coord) :
  e ∈ cyc →
  (∀ x, x ∈ cyc → x ≠ s ∧ ∃ y, parents !! x = Some y ∧ y ∈ cyc) →
  ∀ fuel, reconstruct_path fuel parents e s = OutOfFuel.
Proof.
  intros He Hcyc fuel. unfold reconstruct_path.
  generalize [e]. revert e He.
  induction fuel as [|fuel IH]; intros cur Hcur acc; [done|].
  simpl. destruct (Hcyc cur Hcur) as (Hne & y & Hy & Hyc).
  rewrite decide_True, Hy by done. by apply IH.
Qed.

Lemma reconstruct_path_cycle_sample :
  (0, 2) ∈ ({[(0, 1); (0, 2)]} : gset Coord) ∧
  ∀ fuel,
    reconstruct_path fuel {[(0, 1) := (0, 2); (0, 2) := (0, 1)]} (0, 2) (0, 0)
    = OutOfFuel.
Proof.
  assert ((0, 2) ∈ ({[(0, 1); (0, 2)]} : gset Coord)) as Hin
    by (apply (bool_decide_unpack _); vm_compute; exact I).
  split; [exact Hin|].
  apply (reconstruct_path_cycle _ {[(0, 1); (0, 2)]}).
  - apply (bool_decide_unpack _). vm_compute. exact I.
  - intros x Hx. apply elem_of_union in Hx as [Hx|Hx];
      apply elem_of_singleton in Hx as ->.
    + split; [done|]. exists (0, 2). split; [done|].
      apply (bool_decide_unpack _). vm_compute. exact I.
    + split; [done|]. exists (0, 1). split; [done|].
      apply (bool_decide_unpack _). vm_compute. exact I.
Defined.

(** ** What the searches visit and how long their paths are *)

Lemma walk_open (m : Maze) (a b : Coord) (n : nat) : walk m a b n → is_open m b.
Proof. intros [Ha|c d k _ [_ Hd]]; done. Qed.

Lemma walk_manhattan (m : Maze) (a b : Coord) (n : nat) :
  walk m a b n → (manhattan a b ≤ n)%nat.
Proof.
  induction 1 as [_|b c n _ IH [Hadj _]].
  - unfold manhattan. lia.
  - unfold manhattan, adjacent in *. lia.
Qed.

Lemma size_in_bounds (m : Maze) (X : gset Coord) :
  (∀ v, v ∈ X → in_bounds m v) → (size X ≤ Z.to_nat (nrows m * ncols m))%nat.
Proof.
  intros HX. rewrite <- length_cell_list.
  etrans; [|apply size_list_to_set_le]. apply subseteq_size.
  intros v Hv. apply elem_of_list_to_set, elem_of_cell_list. by apply HX.
Qed.

(** Both searches establish [search_post], with any fuel. *)
Lemma search_returns_post (m : Maze) (fuel : nat)
    (res : option (list Coord) * gset Coord) :
  rectangular m →
  bfs fuel m = Ok res ∨ dfs_backtracking fuel m = Ok res → search_post m res.
Proof.
  intros Hrect [Hrun|Hrun].
  - by eapply bfs_post_search_post, bfs_returns_post.
  - by eapply dfs_backtracking_returns_post.
Qed.

(** X4.  On a rectangular grid with an open start cell, every cell in the
    visited set of either search is an open cell that can be reached from
    start, so the set never has more than rows * cols cells. *)
Theorem search_visited_reachable (m : Maze) (fuel : nat)
    (path : option (list Coord)) (visited : gset Coord) :
  rectangular m → is_open m (start m) →
  bfs fuel m = Ok (path, visited) ∨ dfs_backtracking fuel m = Ok (path, visited) →
  (∀ v, v ∈ visited → is_open m v ∧ ∃ n, walk m (start m) v n) ∧
  (size visited ≤ Z.to_nat (nrows m * ncols m))%nat.
Proof.
  intros Hrect Hopen Hrun.
  destruct (search_returns_post m fuel _ Hrect Hrun)
    as (d & par & Htree & Hs & _ & _). simpl in *.
  assert (∀ v, v ∈ visited → is_open m v ∧ ∃ n, walk m (start m) v n) as Hvis.
  { intros v Hv.
    destruct (tree_visited_walk m par visited d v Hopen Htree Hs Hv) as [n Hw].
    split; [by eapply walk_open|by exists n]. }
  split; [done|]. apply size_in_bounds. intros v Hv. by apply Hvis.
Qed.

Lemma search_visited_reachable_sample :
  rectangular sample_maze ∧ is_open sample_maze (start sample_maze) ∧
  ∃ path visited,
    dfs_backtracking 30 sample_maze = Ok (path, visited) ∧
    (∀ v, v ∈ visited →
       is_open sample_maze v ∧ ∃ n, walk sample_maze (start sample_maze) v n) ∧
    (size visited ≤ Z.to_nat (nrows sample_maze * ncols sample_maze))%nat.
Proof.
  split_and!; [exact sample_maze_rectangular|exact sample_maze_start_open|].
  destruct (dfs_backtracking_correct sample_maze 30 sample_maze_rectangular
              sample_maze_fuel) as ([path visited] & Hrun & _).
  exists path, visited. split; [exact Hrun|].
  exact (search_visited_reachable sample_maze 30 path visited
           sample_maze_rectangular sample_maze_start_open (or_intror Hrun)).
Defined.

(** X5.  A path returned by either search has at least as many steps as
    the row distance plus the column distance between start and end, and at
    most rows * cols cells. *)
Theorem search_path_length (m : Maze) (fuel : nat) (p : list Coord)
    (visited : gset Coord) :
  rectangular m → is_open m (start m) →
  bfs fuel m = Ok (Some p, visited) ∨
  dfs_backtracking fuel m = Ok (Some p, visited) →
  (manhattan (start m) (end_ m) ≤ edge_count p)%nat ∧
  (length p ≤ Z.to_nat (nrows m * ncols m))%nat.
Proof.
  intros Hrect Hopen Hrun.
  destruct (search_returns_post m fuel _ Hrect Hrun)
    as (d & par & Htree & Hs & _ & Hbr). simpl in *.
  split.
  - apply (walk_manhattan m). apply is_path_walk. by eapply branch_is_path.
  - etrans; [|apply (size_in_bounds m (list_to_set p))].
    + rewrite size_list_to_set; [done|]. by eapply branch_NoDup.
    + intros v Hv%elem_of_list_to_set.
      pose proof (branch_open m visited d p _ Hopen Hbr) as Hall.
      rewrite Forall_forall in Hall. by apply Hall.
Qed.

Lemma search_path_length_sample :
  rectangular sample_maze ∧ is_open sample_maze (start sample_maze) ∧
  ∃ visited,
    bfs 30 sample_maze = Ok (Some sample_path, visited) ∧
    (manhattan (start sample_maze) (end_ sample_maze) ≤ edge_count sample_path)%nat ∧
    (length sample_path ≤ Z.to_nat (nrows sample_maze * ncols sample_maze))%nat.
Proof.
  split_and!; [exact sample_maze_rectangular|exact sample_maze_start_open|].
  assert (∃ visited, bfs 30 sample_maze = Ok (Some sample_path, visited))
    as [visited Hrun] by (eexists; vm_compute; reflexivity).
  exists visited. split; [exact Hrun|].
  exact (search_path_length sample_maze 30 sample_path visited
           sample_maze_rectangular sample_maze_start_open (or_introl Hrun)).
Defined.

(** X6.  On the same grid a path returned by [bfs] never has more steps
    than a path returned by [dfs_backtracking]. *)
Theorem bfs_no_longer_than_dfs (m : Maze) (fuel fuel' : nat)
    (p p' : list Coord) (visited visited' : gset Coord) :
  rectangular m → is_open m (start m) →
  bfs fuel m = Ok (Some p, visited) →
  dfs_backtracking fuel' m = Ok (Some p', visited') →
  (edge_count p ≤ edge_count p')%nat.
Proof.
  intros Hrect Hopen Hbfs Hdfs.
  destruct (bfs_returns_post m fuel _ Hrect Hbfs)
    as (d & par & Htree & _ & _ & Hbr & Hmin). simpl in *.
  destruct (dfs_backtracking_returns_post m fuel' _ Hrect Hdfs)
    as (d' & par' & _ & _ & _ & Hbr'). simpl in *.
  pose proof (branch_length m visited d p _ (proj1 Htree) Hbr) as Hlen.
  unfold edge_count at 1. rewrite Hlen. simpl.
  apply Hmin, is_path_walk. by eapply branch_is_path.
Qed.

Lemma bfs_no_longer_than_dfs_sample :
  rectangular sample_maze ∧ is_open sample_maze (start sample_maze) ∧
  ∃ p p' visited visited',
    bfs 30 sample_maze = Ok (Some p, visited) ∧
    dfs_backtracking 30 sample_maze = Ok (Some p', visited') ∧
    (edge_count p ≤ edge_count p')%nat.
Proof.
  split_and!; [exact sample_maze_rectangular|exact sample_maze_start_open|].
  assert (∃ visited, bfs 30 sample_maze = Ok (Some sample_path, visited))
    as [visited Hbfs] by (eexists; vm_compute; reflexivity).
  assert (∃ visited, dfs_backtracking 30 sample_maze = Ok (Some sample_path, visited))
    as [visited' Hdfs] by (eexists; vm_compute; reflexivity).
  exists sample_path, sample_path, visited, visited'.
  split_and!; [exact Hbfs|exact Hdfs|].
  exact (bfs_no_longer_than_dfs sample_maze 30 30 _ _ _ _
           sample_maze_rectangular sample_maze_start_open Hbfs Hdfs).
Defined.

(** ** [dfs_backtracking] finds a path whenever there is one *)

Section DfsComplete.

Context (m : Maze).
Hypothesis rect : rectangular m.

#[local] Abbreviation dfs_body fuel u :=
  (λ (v : Coord) (s : dfs_state),
     if decide (v ∉ dfs_visited s)
     then dfs fuel m v
            {| dfs_visited := dfs_visited s;
               dfs_parents := <[v:=u]> (dfs_parents s);
               dfs_found := dfs_found s |}
     else Ok s).

(** Once [found] is set, the rest of a [for] loop leaves it set. *)
Lemma dfs_loop_found (fuel : nat) (u : Coord) (l : list Coord) :
  ∀ s s', for_each (dfs_body fuel u) l s = Ok s' →
          dfs_found s = true → dfs_found s' = true.
Proof.
  induction l as [|v l IH]; intros s s' Hrun Hfound; simpl in Hrun.
  - by injection Hrun as <-.
  - destruct (decide (v ∉ dfs_visited s)).
    + destruct fuel as [|fuel]; [done|]. simpl in Hrun. rewrite Hfound in Hrun.
      simpl in Hrun. by apply IH in Hrun.
    + simpl in Hrun. by apply IH in Hrun.
Qed.

Lemma dfs_closes (fuel : nat) :
  ∀ u st stack st',
    dfs fuel m u st = Ok st' → dfs_found st = false →
    closed_except m stack (dfs_visited st) → end_ m ∉ dfs_visited st →
    dfs_found st' = true ∨
    (dfs_found st' = false ∧ closed_except m stack (dfs_visited st') ∧
     u ∈ dfs_visited st' ∧ dfs_visited st ⊆ dfs_visited st' ∧
     end_ m ∉ dfs_visited st').
Proof.
  induction fuel as [|fuel IH]; intros u st stack st' Hrun Hnf Hclosed Hend; [done|].
  simpl in Hrun. rewrite Hnf in Hrun.
  destruct (decide (u = end_ m)) as [Heq|Hne].
  { injection Hrun as <-. by left. }
  destruct (neighbors_spec m u rect) as (nbs & Hnbs_eq & Hnbs).
  rewrite Hnbs_eq in Hrun. simpl in Hrun.
  assert (Hloop : ∀ (l handled : list Coord) (s s' : dfs_state),
    for_each (dfs_body fuel u) l s = Ok s' → dfs_found s = false →
    (∀ y, y ∈ l → nbr m u y) →
    closed_except m ({[u]} ∪ stack) (dfs_visited s) →
    (∀ y, y ∈ handled → y ∈ dfs_visited s) → end_ m ∉ dfs_visited s →
    dfs_found s' = true ∨
    (dfs_found s' = false ∧ closed_except m ({[u]} ∪ stack) (dfs_visited s') ∧
     (∀ y, y ∈ handled ++ l → y ∈ dfs_visited s') ∧
     dfs_visited s ⊆ dfs_visited s' ∧ end_ m ∉ dfs_visited s')).
  { induction l as [|v l IHl]; intros handled s s' Hl Hsnf Hnb Hcl Hh He.
    { simpl in Hl. injection Hl as <-. right. rewrite app_nil_r. done. }
    simpl in Hl.
    match type of Hl with
    | ?x ≫= _ = _ => destruct x as [s1| |] eqn:Hbody; [|done..]
    end.
    simpl in Hl.
    assert (dfs_found s1 = true ∨
            (dfs_found s1 = false ∧
             closed_except m ({[u]} ∪ stack) (dfs_visited s1) ∧
             v ∈ dfs_visited s1 ∧ dfs_visited s ⊆ dfs_visited s1 ∧
             end_ m ∉ dfs_visited s1)) as [Hf1|(Hnf1 & Hcl1 & Hv1 & Hsub1 & He1)].
    { destruct (decide (v ∉ dfs_visited s)) as [Hv|Hv].
      - by apply (IH v _ ({[u]} ∪ stack) s1 Hbody).
      - injection Hbody as <-. apply dec_stable in Hv. by right. }
    - left. by eapply dfs_loop_found.
    - destruct (IHl (handled ++ [v]) s1 s' Hl Hnf1) as [Hf|(? & ? & Hall & ? & ?)];
        [intros y Hy; apply Hnb; by right|done| |done|by left|].
      + intros y [Hy| ->%list_elem_of_singleton]%elem_of_app; [|done].
        by apply Hsub1, Hh.
      + right. rewrite <- app_assoc in Hall. split_and!; [done..|set_solver|done]. }
  destruct (Hloop nbs [] _ st' Hrun) as [Hf|(Hnf' & Hcl & Hall & Hsub & He)];
    simpl; [done| | | | |by left|].
  - intros y Hy. by apply Hnbs.
  - intros x y Hx Hxs Hn. apply elem_of_union_r. apply (Hclosed x y); set_solver.
  - intros y Hy. by apply elem_of_nil in Hy.
  - set_solver.
  - right. simpl in *. split_and!; [done| |set_solver..|done].
    intros x y Hx Hxs Hn. destruct (decide (x = u)) as [->|Hxu].
    + by apply Hall, Hnbs.
    + apply (Hcl x y); [done|set_solver|done].
Qed.

(** A search that did not find the end has visited every reachable cell. *)
Lemma closed_reaches (vis : gset Coord) (v : Coord) (n : nat) :
  closed_except m ∅ vis → start m ∈ vis → walk m (start m) v n → v ∈ vis.
Proof.
  intros Hcl Hs. induction 1 as [_|b c n _ IH Hn]; [done|].
  apply (Hcl b c); [done|set_solver|done].
Qed.

Lemma dfs_backtracking_complete (fuel : nat) (path : option (list Coord))
    (visited : gset Coord) :
  dfs_backtracking fuel m = Ok (path, visited) →
  path = None →
  (end_ m ∉ visited) ∧ ∀ v n, walk m (start m) v n → v ∈ visited.
Proof.
  unfold dfs_backtracking. intros Hrun ->.
  destruct (dfs fuel m (start m) _) as [st| |] eqn:Hdfs; [|done..].
  simpl in Hrun.
  destruct (dfs_closes fuel (start m) _ ∅ st Hdfs)
    as [Hf|(Hnf & Hcl & Hs & _ & He)]; simpl; [done|by intros x y Hx|set_solver| |].
  - rewrite Hf in Hrun. by destruct (reconstruct_path _ _ _ _).
  - rewrite Hnf in Hrun. injection Hrun as <-. split; [done|].
    intros v n. by apply closed_reaches.
Qed.

End DfsComplete.



(** X8.  On the same grid the two searches agree on whether there is a
    path, and when there is none they return the same visited set. *)
Theorem searches_agree (m : Maze) (fuel fuel' : nat)
    (path path' : option (list Coord)) (visited visited' : gset Coord) :
  rectangular m → is_open m (start m) →
  bfs fuel m = Ok (path, visited) →
  dfs_backtracking fuel' m = Ok (path', visited') →
  (path = None ↔ path' = None) ∧ (path = None → visited = visited').
Proof.
  intros Hrect Hopen Hbfs Hdfs.
  destruct (bfs_returns_post m fuel _ Hrect Hbfs)
    as (d & par & Htree & Hs & _ & Hres). simpl in *.
  destruct (dfs_backtracking_returns_post m fuel' _ Hrect Hdfs)
    as (d' & par' & Htree' & Hs' & _ & Hres'). simpl in *.
  assert (path = None → path' = None) as H1.
  { intros ->. destruct Hres as [Hend Hreach].
    destruct path' as [p'|]; [|done]. exfalso. apply Hend.
    apply (Hreach _ (edge_count p')), is_path_walk. by eapply branch_is_path. }
  assert (path' = None → path = None) as H2.
  { intros ->. destruct path as [p|]; [|done]. exfalso.
    destruct Hres as [Hbr _].
    destruct (dfs_backtracking_complete m Hrect fuel' None visited' Hdfs eq_refl)
      as [Hend Hreach].
    apply Hend, (Hreach _ (edge_count p)), is_path_walk. by eapply branch_is_path. }
  split; [by split|].
  intros Hnone. pose proof (H1 Hnone) as Hnone'. subst path path'.
  destruct Hres as [_ Hreach].
  destruct (dfs_backtracking_complete m Hrect fuel' None visited' Hdfs eq_refl)
    as [_ Hreach'].
  apply set_eq. intros v. split; intros Hv.
  - destruct (tree_visited_walk m par visited d v Hopen Htree Hs Hv) as [n Hw].
    by eapply Hreach'.
  - destruct (tree_visited_walk m par' visited' d' v Hopen Htree' Hs' Hv) as [n Hw].
    by eapply Hreach.
Qed.

Lemma blocked_maze_rectangular : rectangular blocked_maze.
Proof. unfold rectangular. simpl. repeat constructor. Qed.

Lemma blocked_maze_start_open : is_open blocked_maze (start blocked_maze).
Proof. by apply is_openb_spec. Qed.

Lemma searches_agree_sample :
  rectangular blocked_maze ∧ is_open blocked_maze (start blocked_maze) ∧
  ∃ visited visited',
    bfs 30 blocked_maze = Ok (None, visited) ∧
    dfs_backtracking 30 blocked_maze = Ok (None, visited') ∧
    visited = visited'.
Proof.
  split_and!; [exact blocked_maze_rectangular|exact blocked_maze_start_open|].
  assert (∃ visited, bfs 30 blocked_maze = Ok (None, visited))
    as [visited Hbfs] by (eexists; vm_compute; reflexivity).
  assert (∃ visited, dfs_backtracking 30 blocked_maze = Ok (None, visited))
    as [visited' Hdfs] by (eexists; vm_compute; reflexivity).
  exists visited, visited'. split_and!; [exact Hbfs|exact Hdfs|].
  exact (proj2 (searches_agree blocked_maze 30 30 _ _ _ _
                  blocked_maze_rectangular blocked_maze_start_open Hbfs Hdfs)
           eq_refl).
Defined.

(** ** Grids without walls *)

Lemma wall_free_open (m : Maze) (p : Coord) :
  rectangular m → wall_free m → in_bounds m p → is_open m p.
Proof.
  intros Hrect Hfree Hb. split; [done|].
  destruct (in_bounds_cell m p Hrect Hb) as (s & Hs & _).
  exists s. split; [done|].
  unfold cell_at, grid_get in Hs. unfold wall_free in Hfree.
  rewrite Forall_forall in Hfree.
  destruct (grid m !! Z.to_nat p.1) as [row|] eqn:Hrow; [|done]. simpl in Hs.
  pose proof (Hfree row (list_elem_of_lookup_2 _ _ _ Hrow)) as Hrowf.
  rewrite Forall_forall in Hrowf. apply Hrowf.
  by eapply list_elem_of_lookup_2.
Qed.

Lemma wall_free_walk (m : Maze) (a : Coord) :
  rectangular m → wall_free m → in_bounds m a →
  ∀ n b, in_bounds m b → manhattan a b = n → walk m a b n.
Proof.
  intros Hrect Hfree Ha. induction n as [|n IH]; intros b Hb Hn.
  - assert (b = a) as ->.
    { destruct a, b. unfold manhattan in Hn. simpl in Hn. f_equal; lia. }
    by apply walk_here, wall_free_open.
  - assert (∃ b', in_bounds m b' ∧ manhattan a b' = n ∧ adjacent b' b)
      as (b' & Hb' & Hn' & Hadj).
    { destruct a as [ar ac], b as [br bc].
      unfold manhattan, in_bounds, adjacent in *. simpl in *.
      destruct (decide (ar < br)); [exists (br - 1, bc); simpl; lia|].
      destruct (decide (br < ar)); [exists (br + 1, bc); simpl; lia|].
      destruct (decide (ac < bc)); [exists (br, bc - 1); simpl; lia|].
      exists (br, bc + 1). simpl. lia. }
    eapply walk_step; [by apply IH|]. split; [done|]. by apply wall_free_open.
Qed.

Lemma wall_free_search (m : Maze) :
  rectangular m → wall_free m → in_bounds m (start m) → in_bounds m (end_ m) →
  (∀ fuel path visited, bfs fuel m = Ok (path, visited) →
     ∃ p, path = Some p ∧ edge_count p = manhattan (start m) (end_ m)) ∧
  (∀ fuel path visited, dfs_backtracking fuel m = Ok (path, visited) →
     path ≠ None).
Proof.
  intros Hrect Hfree Hs He.
  pose proof (wall_free_walk m (start m) Hrect Hfree Hs _ (end_ m) He eq_refl)
    as Hwalk.
  pose proof (wall_free_open m _ Hrect Hfree Hs) as Hopen.
  split.
  - intros fuel path visited Hrun.
    destruct (bfs_returns_post m fuel _ Hrect Hrun)
      as (d & par & Htree & _ & _ & Hres). simpl in *.
    destruct path as [p|].
    + destruct Hres as [Hbr Hmin]. exists p. split; [done|].
      pose proof (branch_length m visited d p _ (proj1 Htree) Hbr) as Hlen.
      pose proof (Hmin _ Hwalk) as Hle.
      pose proof (walk_manhattan m _ _ _
                    (branch_walk m visited d p _ Hopen (proj1 Htree) Hbr)) as Hge.
      unfold edge_count. rewrite Hlen. simpl. lia.
    + destruct Hres as [Hend Hreach]. exfalso. by eapply Hend, Hreach.
  - intros fuel path visited Hrun ->.
    destruct (dfs_backtracking_complete m Hrect fuel None visited Hrun eq_refl)
      as [Hend Hreach].
    by eapply Hend, Hreach.
Qed.





(** ** [neighbors] is symmetric on open cells *)

Lemma adjacent_sym (p q : Coord) : adjacent p q → adjacent q p.
Proof. unfold adjacent. lia. Qed.

(** X10.  On a rectangular grid, if [v] is among the neighbours of an open
    cell [u], then [u] is among the neighbours of [v]: the searches walk an
    undirected graph. *)
Theorem neighbors_symmetric (m : Maze) (u v : Coord) (nbs : list Coord) :
  rectangular m → is_open m u → neighbors m u = Ok nbs → v ∈ nbs →
  ∃ nbs', neighbors m v = Ok nbs' ∧ u ∈ nbs'.
Proof.
  intros Hrect Hu Hrun Hv.
  destruct (neighbors_spec m u Hrect) as (nbs0 & Hrun0 & Hspec).
  rewrite Hrun in Hrun0. injection Hrun0 as <-.
  apply Hspec in Hv as [Hadj _].
  destruct (neighbors_spec m v Hrect) as (nbs' & Hrun' & Hspec').
  exists nbs'. split; [done|]. apply Hspec'. split; [by apply adjacent_sym|done].
Qed.

Lemma neighbors_symmetric_sample :
  rectangular sample_maze ∧ is_open sample_maze (0, 1) ∧
  neighbors sample_maze (0, 1) = Ok [(0, 2); (0, 0)] ∧
  ∃ nbs', neighbors sample_maze (0, 2) = Ok nbs' ∧ (0, 1) ∈ nbs'.
Proof.
  assert (is_open sample_maze (0, 1)) as Hopen by (by apply is_openb_spec).
  assert (neighbors sample_maze (0, 1) = Ok [(0, 2); (0, 0)]) as Hrun
    by reflexivity.
  split_and!; [exact sample_maze_rectangular|exact Hopen|exact Hrun|].
  apply (neighbors_symmetric sample_maze (0, 1) (0, 2) _
           sample_maze_rectangular Hopen Hrun).
  apply (bool_decide_unpack _). vm_compute. exact I.
Defined.

(** ** More on [Maze.random] *)

Lemma float_nonneg_not_neg (x : float) :
  (0 <=? x)%float = true → (x <? 0)%float = false.
Proof.
  rewrite leb_spec, ltb_spec. change (Prim2SF 0) with (S754_zero false).
  unfold SFleb, SFltb.
  destruct (Prim2SF x) as [[|]|[|]| |[|] mx ex]; simpl; congruence.
Qed.

(** X11.  On valid parameters the generated grid has exactly [rows] rows
    of [cols] cells, every cell is ['#'] or ['.'], and the random source
    has been advanced by exactly [rows * cols] draws. *)
Theorem generated_grid_shape (Rng : Type) (rng_random : Rng → float * Rng)
    (rows cols : Z) (s e : Coord) (density : float) (rng : Rng) :
  valid_params rows cols s e density →
  ∃ m, Maze_random Rng rng_random rows cols s e density rng
         = Ok (m, rng_skip Rng rng_random (Z.to_nat (rows * cols)) rng) ∧
       len (grid m) = rows ∧ Forall (λ row, len row = cols) (grid m) ∧
       Forall (Forall (λ c, c = "#" ∨ c = ".")) (grid m).
Proof.
  intros Hvalid.
  destruct (Maze_random_ok Rng rng_random rows cols s e density rng Hvalid)
    as (m & Hrun & _ & _ & Hsh & Hplain & _).
  destruct Hvalid as (Hrows & Hcols & _).
  destruct (shape_replicate m _ _ Hsh) as (Hrect & Hnr & Hnc); [lia|].
  rewrite Z2Nat.id in Hnr, Hnc by lia.
  exists m. split_and!.
  - rewrite Hrun. do 3 f_equal. lia.
  - exact Hnr.
  - unfold rectangular in Hrect. by rewrite Hnc in Hrect.
  - exact Hplain.
Qed.

Lemma generated_grid_shape_sample :
  valid_params 3 3 (0, 0) (2, 2) 0.5%float ∧
  ∃ m, Maze_random nat counter_random 3 3 (0, 0) (2, 2) 0.5%float 0%nat
         = Ok (m, rng_skip nat counter_random (Z.to_nat (3 * 3)) 0%nat) ∧
       len (grid m) = 3 ∧ Forall (λ row, len row = 3) (grid m) ∧
       Forall (Forall (λ c, c = "#" ∨ c = ".")) (grid m).
Proof.
  split; [exact sample_params_valid|].
  exact (generated_grid_shape nat counter_random 3 3 (0, 0) (2, 2) 0.5%float
           0%nat sample_params_valid).
Defined.

Section DensityZero.

Context (Rng : Type) (rng_random : Rng → float * Rng).
Context (rows cols : Z) (s e : Coord) (rng : Rng).

Hypothesis params_ok : valid_params rows cols s e 0%float.

(** Every draw is at least 0.0, as [random()] promises. *)
Hypothesis draws_nonneg : ∀ r, (0 <=? (rng_random r).1)%float = true.

Lemma density_zero_wall_free (r : Rng) (m : Maze) (r' : Rng) :
  Maze_random Rng rng_random rows cols s e 0%float r = Ok (m, r') →
  wall_free m.
Proof.
  intros Hrun.
  destruct (Maze_random_ok Rng rng_random rows cols s e 0%float r params_ok)
    as (m' & Hrun' & _ & _ & Hsh & _ & Hcell).
  rewrite Hrun in Hrun'. injection Hrun' as <- _.
  destruct params_ok as (Hrows & Hcols & _).
  destruct (shape_replicate m _ _ Hsh) as (Hrect & Hnr & Hnc); [lia|].
  rewrite Z2Nat.id in Hnr, Hnc by lia.
  apply Forall_lookup. intros i row Hrow.
  apply Forall_lookup. intros j c Hc.
  pose proof (rectangular_row m (Z.of_nat i) row Hrect) as Hlen.
  rewrite Nat2Z.id in Hlen. specialize (Hlen Hrow).
  pose proof (lookup_lt_Some _ _ _ Hrow) as Hi.
  pose proof (lookup_lt_Some _ _ _ Hc) as Hj.
  assert (coord_valid rows cols (Z.of_nat i, Z.of_nat j)) as Hp.
  { unfold coord_valid, nrows, len in *. simpl. lia. }
  specialize (Hcell _ Hp). unfold cell_at, grid_get in Hcell. simpl in Hcell.
  rewrite !Nat2Z.id, Hrow in Hcell. simpl in Hcell. rewrite Hc in Hcell.
  injection Hcell as ->. case_decide; [done|].
  unfold drawn_cell, draw. by rewrite float_nonneg_not_neg.
Qed.

End DensityZero.

(** X12.  With density 0.0, valid parameters and a random source whose
    draws are never negative, the generated maze has no wall, and the loop
    of [main] ends at its first attempt with a path; under ["bfs"] the path
    has as many steps as the row distance plus the column distance between
    start and end. *)
Theorem density_zero_first_attempt (Rng : Type) (rng_random : Rng → float * Rng)
    (rows cols : Z) (s e : Coord) (algo : string) (ensure : bool) (rng : Rng)
    (iters fuel : nat) :
  valid_params rows cols s e 0%float →
  (∀ r, (0 <=? (rng_random r).1)%float = true) →
  (1 ≤ iters)%nat → (3 * S (Z.to_nat (rows * cols)) ≤ fuel)%nat →
  ∃ m p visited,
    main_loop Rng rng_random iters fuel rows cols s e 0%float algo ensure 0 rng
      = Ok (Some (mkOutcome m (Some p) visited 1)) ∧
    wall_free m ∧
    (algo = "bfs" → edge_count p = manhattan s e).
Proof.
  intros Hvalid Hdraws Hiters Hfuel.
  destruct iters as [|iters]; [lia|].
  destruct (cycle_returns Rng rng_random rows cols s e 0%float algo fuel
              Hvalid Hfuel rng) as (m & path & visited & Hgen & Hsearch).
  pose proof (density_zero_wall_free Rng rng_random rows cols s e
                Hvalid Hdraws rng m _ Hgen) as Hfree.
  destruct (Maze_random_ok Rng rng_random rows cols s e 0%float rng Hvalid)
    as (m' & Hgen' & Hms & Hme & _).
  rewrite Hgen in Hgen'. injection Hgen' as <- _.
  destruct (Maze_random_well_formed Rng rng_random rows cols s e 0%float rng
              m _ Hvalid Hgen) as (Hrect & _ & _ & [Hsb _] & [Heb _]).
  destruct (wall_free_search m Hrect Hfree Hsb Heb) as [Hbfs Hdfs].
  assert (∃ p, path = Some p ∧ (algo = "bfs" → edge_count p = manhattan s e))
    as (p & -> & Hlen).
  { unfold search in Hsearch. destruct (decide (algo = "bfs")) as [Halgo|Halgo].
    - destruct (Hbfs fuel path visited Hsearch) as (p & -> & Hp).
      exists p. split; [done|]. intros _. by rewrite <- Hms, <- Hme.
    - destruct path as [p|]; [|by destruct (Hdfs fuel None visited Hsearch)].
      exists p. split; [done|]. done. }
  exists m, p, visited. split_and!; [|done..].
  simpl. by rewrite Hgen, Hsearch.
Qed.

Lemma density_zero_first_attempt_sample :
  valid_params 3 3 (0, 0) (2, 2) 0%float ∧
  (∀ r, (0 <=? (counter_random r).1)%float = true) ∧
  ∃ m p visited,
    main_loop nat counter_random 200 30 3 3 (0, 0) (2, 2) 0%float "bfs" true 0 0%nat
      = Ok (Some (mkOutcome m (Some p) visited 1)) ∧
    wall_free m ∧ ("bfs" = "bfs" → edge_count p = manhattan (0, 0) (2, 2)).
Proof.
  assert (valid_params 3 3 (0, 0) (2, 2) 0%float) as Hvalid.
  { unfold valid_params, coord_valid, density_valid. simpl.
    split_and!; try lia; done. }
  assert (∀ r, (0 <=? (counter_random r).1)%float = true) as Hdraws.
  { intros r. change ((0 <=? nth (r mod 4) sample_draws 0)%float = true).
    generalize (r mod 4)%nat. intros [|[|[|[|[|k]]]]]; reflexivity. }
  split_and!; [exact Hvalid|exact Hdraws|].
  exact (density_zero_first_attempt nat counter_random 3 3 (0, 0) (2, 2) "bfs"
           true 0%nat 200 30 Hvalid Hdraws ltac:(lia) ltac:(vm_compute; lia)).
Defined.

(** ** The layout export *)

Lemma plain_cell (m : Maze) (c : Coord) (s : string) :
  plain_grid m → cell_at m c = Some s → s = WALL ∨ s = OPEN.
Proof.
  unfold plain_grid, cell_at, grid_get. intros Hplain Hcell.
  rewrite Forall_forall in Hplain.
  destruct (grid m !! Z.to_nat c.1) as [row|] eqn:Hrow; [|done]. simpl in Hcell.
  pose proof (Hplain row (list_elem_of_lookup_2 _ _ _ Hrow)) as Hrowp.
  rewrite Forall_forall in Hrowp. apply Hrowp.
  by eapply list_elem_of_lookup_2.
Qed.

Lemma mark_endpoint_set (label : string) (c : Coord) (g : list (list string))
    (s : string) :
  0 <= c.1 → 0 <= c.2 → grid_get g c = Some s → s ≠ STAR →
  mark_endpoint label c g = Ok (grid_set g c label).
Proof.
  intros Hr Hc Hs Hne. unfold mark_endpoint.
  rewrite (getitem2_grid_get g c s) by done. simpl.
  rewrite decide_True by done. apply setitem2_grid_set.
  split_and!; [done..|by exists s].
Qed.

(** X13.  On a rectangular grid of walls and open cells with start and end
    in bounds, the exported layout is the grid with [E] on the end cell,
    [S] on the start cell and every other cell unchanged, so it holds no
    path or visited mark; it is the same text as the rendering without path
    and without overlay. *)
Theorem export_is_plain_rendering (m : Maze) :
  rectangular m → plain_grid m → in_bounds m (start m) → in_bounds m (end_ m) →
  ∃ g, export_cells m = Ok g ∧
       draw_cells m None None = Ok g ∧
       export_layout m = draw_with_path m None None ∧
       ∀ c s, in_bounds m c → cell_at m c = Some s →
         grid_get g c = Some (if decide (c = end_ m) then "E"
                              else if decide (c = start m) then "S" else s).
Proof.
  intros Hrect Hplain Hs He.
  apply inside_in_bounds in Hs as Hsi; [|done].
  apply inside_in_bounds in He as Hei; [|done].
  assert (inside (grid_set (grid m) (start m) "S") (end_ m)) as Hei'.
  { eapply inside_shape; [|exact Hei]. by rewrite shape_grid_set. }
  assert (export_cells m
          = Ok (grid_set (grid_set (grid m) (start m) "S") (end_ m) "E")) as Hexp.
  { unfold export_cells. rewrite (setitem2_grid_set _ (start m)) by done. simpl.
    by rewrite (setitem2_grid_set _ (end_ m)). }
  assert (draw_cells m None None
          = Ok (grid_set (grid_set (grid m) (start m) "S") (end_ m) "E")) as Hdraw.
  { unfold draw_cells. simpl.
    destruct Hsi as (Hsr & Hsc & [s0 Hs0]).
    rewrite (mark_endpoint_set "S" (start m) (grid m) s0); [|done..|].
    2:{ destruct (plain_cell m _ _ Hplain Hs0) as [-> | ->]; done. }
    simpl. destruct Hei' as (Her & Hec & [s1 Hs1]).
    apply (mark_endpoint_set "E" (end_ m) _ s1); [done..|].
    rewrite grid_get_grid_set in Hs1; [|by split_and!; [..|eexists]|done..].
    destruct (decide (end_ m = start m)); [by injection Hs1 as <-|].
    destruct (plain_cell m _ _ Hplain Hs1) as [-> | ->]; done. }
  eexists. split_and!; [exact Hexp|exact Hdraw| |].
  - unfold export_layout, draw_with_path. by rewrite Hexp, Hdraw.
  - intros c s [[Hr _] [Hc _]] Hcell.
    rewrite grid_get_grid_set by done.
    destruct (decide (c = end_ m)); [done|].
    rewrite grid_get_grid_set by done.
    by destruct (decide (c = start m)).
Qed.

Lemma export_is_plain_rendering_sample :
  rectangular sample_maze ∧ plain_grid sample_maze ∧
  in_bounds sample_maze (start sample_maze) ∧
  in_bounds sample_maze (end_ sample_maze) ∧
  export_cells sample_maze = Ok [["S"; "."; "."]; ["."; "#"; "."]; ["."; "."; "E"]] ∧
  export_layout sample_maze = draw_with_path sample_maze None None.
Proof.
  assert (in_bounds sample_maze (start sample_maze)) as Hs
    by (by apply in_boundsb_spec).
  assert (in_bounds sample_maze (end_ sample_maze)) as He
    by (by apply in_boundsb_spec).
  destruct (export_is_plain_rendering sample_maze sample_maze_rectangular
              sample_maze_plain Hs He) as (g & _ & _ & Heq & _).
  split_and!; [exact sample_maze_rectangular|exact sample_maze_plain
              |exact Hs|exact He|reflexivity|exact Heq].
Defined.

(** ** The input error of [main] *)

Lemma main_loop_not_input_error (Rng : Type) (rng_random : Rng → float * Rng)
    (rows cols : Z) (s e : Coord) (density : float) (algo : string)
    (ensure : bool) (fuel iters : nat) :
  valid_params rows cols s e density →
  ∀ attempt rng,
    main_loop Rng rng_random iters fuel rows cols s e density algo ensure
      attempt rng ≠ Ok None.
Proof.
  intros Hvalid. induction iters as [|iters IH]; intros attempt rng; [done|].
  simpl.
  destruct (Maze_random_ok Rng rng_random rows cols s e density rng Hvalid)
    as (m & -> & _).
  destruct (search fuel algo m) as [[path visited]| |]; simpl; [|done..].
  destruct (bool_decide (path ≠ None) || negb ensure || (max_tries <=? attempt + 1));
    [done|apply IH].
Qed.

(** X14.  The loop of [main] ends with the input error, without a maze and
    without running a search, exactly when the parameter bundle is invalid:
    rows or cols below 2, start or end out of bounds or equal, or a density
    outside [0.0, 1.0). *)
Theorem main_loop_input_error_iff (Rng : Type) (rng_random : Rng → float * Rng)
    (rows cols : Z) (s e : Coord) (density : float) (algo : string)
    (ensure : bool) (attempt : Z) (rng : Rng) (iters fuel : nat) :
  (1 ≤ iters)%nat →
  (main_loop Rng rng_random iters fuel rows cols s e density algo ensure
     attempt rng = Ok None
   ↔ ¬ valid_params rows cols s e density).
Proof.
  intros Hiters. split.
  - intros Hrun Hvalid.
    by eapply main_loop_not_input_error.
  - intros Hinv. destruct iters as [|iters]; [lia|]. simpl.
    destruct (Maze_random_cases Rng rng_random rows cols s e density rng)
      as [[Hv _]|[_ (msg & ->)]]; [done|done].
Qed.

Lemma main_loop_input_error_iff_sample :
  (1 ≤ 200)%nat ∧
  (main_loop nat counter_random 200 30 3 3 (0, 0) (0, 0) 0.5%float "bfs" true
     0 0%nat = Ok None
   ↔ ¬ valid_params 3 3 (0, 0) (0, 0) 0.5%float).
Proof.
  assert (1 ≤ 200)%nat as Hiters by lia.
  split; [exact Hiters|].
  exact (main_loop_input_error_iff nat counter_random 3 3 (0, 0) (0, 0)
           0.5%float "bfs" true 0 0%nat 200 30 Hiters).
Defined.

(** ** Console input *)

Section FirstAccepted.

(** A prompt loop: it answers with the first line that [accept] takes and
    goes on to the next line otherwise. *)
Context {A : Type} (accept : string → option A) (f : list string → reply A).
Hypothesis f_nil : f [] = EOFError.
Hypothesis f_cons : ∀ line rest,
  f (line :: rest) = match accept line with
                     | Some a => Answer a rest
                     | None => f rest
                     end.

Lemma first_accepted_answer (lines : list string) (a : A) (rest : list string) :
  f lines = Answer a rest ↔
  ∃ skipped line, lines = skipped ++ line :: rest ∧ accept line = Some a ∧
                  Forall (λ l, accept l = None) skipped.
Proof.
  split.
  - induction lines as [|line lines IH]; intros Hrun.
    + by rewrite f_nil in Hrun.
    + rewrite f_cons in Hrun. destruct (accept line) as [a'|] eqn:Hacc.
      * injection Hrun as -> ->. by exists [], line.
      * destruct (IH Hrun) as (skipped & line' & -> & Hacc' & Hsk).
        exists (line :: skipped), line'. split_and!; [done..|by constructor].
  - intros (skipped & line & -> & Hacc & Hsk).
    induction Hsk as [|l skipped Hl _ IH]; simpl.
    + by rewrite f_cons, Hacc.
    + by rewrite f_cons, Hl.
Qed.

Lemma first_accepted_eof (lines : list string) :
  f lines = EOFError ↔ Forall (λ l, accept l = None) lines.
Proof.
  induction lines as [|line lines IH].
  - by rewrite f_nil.
  - rewrite f_cons, Forall_cons. destruct (accept line) as [a|].
    + split; [done|]. by intros [? _].
    + rewrite IH. tauto.
Qed.

Lemma first_accepted_caught (lines : list string) : f lines ≠ UncaughtValueError.
Proof.
  induction lines as [|line lines IH].
  - by rewrite f_nil.
  - rewrite f_cons. by destruct (accept line).
Qed.

Lemma first_accepted_consumes (lines : list string) (a : A) (rest : list string) :
  f lines = Answer a rest →
  rest `suffix_of` lines ∧ (length rest < length lines)%nat.
Proof.
  intros (skipped & line & -> & _ & _)%first_accepted_answer. split.
  - exists (skipped ++ [line]). by rewrite <- app_assoc.
  - rewrite length_app. simpl. lia.
Qed.

End FirstAccepted.

Section ConsoleProofs.

Context (strip lower : string → string).
Context (int_of : string → option Z) (float_of : string → option float).

#[local] Abbreviation ask_int' := (ask_int strip int_of).
#[local] Abbreviation ask_coord' := (ask_coord strip int_of).
#[local] Abbreviation ask_float' := (ask_float strip float_of).
#[local] Abbreviation ask_choice' := (ask_choice strip lower).

#[local] Abbreviation accept_int' := (accept_int strip int_of).
#[local] Abbreviation accept_coord' := (accept_coord strip int_of).
#[local] Abbreviation accept_float' := (accept_float strip float_of).
#[local] Abbreviation accept_choice' := (accept_choice strip lower).

Lemma accept_int_Some (min_val max_val : option Z) (line : string) (v : Z) :
  accept_int' min_val max_val line = Some v ↔
  int_of (strip line) = Some v ∧ int_in_range min_val max_val v.
Proof.
  unfold accept_int, int_in_range.
  destruct (int_of (strip line)) as [w|]; [|by split; [|intros [? _]]].
  destruct min_val as [lo|], max_val as [hi|];
    repeat match goal with
    | |- context [?a <? ?b] => destruct (Z.ltb_spec a b)
    | |- context [?a >? ?b] => destruct (Z.gtb_spec a b)
    end;
    split; try done;
    try (intros [= ->]; split; [done|];
         split; intros ? [= <-]; lia);
    try (intros [[= ->] [Hlo Hhi]];
         try (specialize (Hlo _ eq_refl)); try (specialize (Hhi _ eq_refl));
         first [lia|done]).
Qed.

Lemma accept_int_None (min_val max_val : option Z) (line : string) :
  accept_int' min_val max_val line = None ↔
  ∀ w, int_of (strip line) = Some w → ¬ int_in_range min_val max_val w.
Proof.
  split.
  - intros Hnone w Hw Hrange.
    assert (accept_int' min_val max_val line = Some w) as Hsome
      by (by apply accept_int_Some).
    congruence.
  - intros Hno. destruct (accept_int' min_val max_val line) as [v|] eqn:Hacc; [|done].
    apply accept_int_Some in Hacc as [Hv Hrange]. by destruct (Hno v).
Qed.

Lemma ask_int_cons (min_val max_val : option Z) (line : string)
    (rest : list string) :
  ask_int' min_val max_val (line :: rest) =
    match accept_int' min_val max_val line with
    | Some v => Answer v rest
    | None => ask_int' min_val max_val rest
    end.
Proof.
  simpl. unfold accept_int. destruct (int_of (strip line)) as [v|]; [|done].
  destruct (match min_val with Some lo => v <? lo | None => false end); [done|].
  by destruct (match max_val with Some hi => v >? hi | None => false end).
Qed.

Lemma ask_int_range (min_val max_val : option Z) (lines : list string)
    (v : Z) (rest : list string) :
  ask_int' min_val max_val lines = Answer v rest → int_in_range min_val max_val v.
Proof.
  intros Hrun.
  apply (first_accepted_answer (accept_int' min_val max_val)
           (ask_int' min_val max_val) eq_refl (ask_int_cons min_val max_val))
    in Hrun as (skipped & line & _ & Hacc & _).
  by apply accept_int_Some in Hacc as [_ Hrange].
Qed.

(** X15.  [ask_int] answers with the integer of the first line that parses
    and lies within the optional bounds, leaving the lines after it; every
    line before it either does not parse or is out of range.  It ends with
    [EOFError] exactly when no line is acceptable, and never with another
    exception. *)
Theorem ask_int_first_acceptable (min_val max_val : option Z)
    (lines : list string) :
  (∀ v rest,
     ask_int strip int_of min_val max_val lines = Answer v rest ↔
     ∃ skipped line,
       lines = skipped ++ line :: rest ∧
       int_of (strip line) = Some v ∧ int_in_range min_val max_val v ∧
       Forall (λ l, ∀ w, int_of (strip l) = Some w →
                         ¬ int_in_range min_val max_val w) skipped) ∧
  (ask_int strip int_of min_val max_val lines = EOFError ↔
   Forall (λ l, ∀ w, int_of (strip l) = Some w →
                     ¬ int_in_range min_val max_val w) lines) ∧
  ask_int strip int_of min_val max_val lines ≠ UncaughtValueError.
Proof.
  split_and!.
  - intros v rest.
    rewrite (first_accepted_answer (accept_int' min_val max_val)
               (ask_int' min_val max_val) eq_refl (ask_int_cons min_val max_val)).
    split.
    + intros (skipped & line & Hl & Hacc & Hsk). exists skipped, line.
      apply accept_int_Some in Hacc as [Hv Hr]. split_and!; [done..|].
      eapply Forall_impl; [exact Hsk|]. intros l. by apply accept_int_None.
    + intros (skipped & line & Hl & Hv & Hr & Hsk). exists skipped, line.
      split_and!; [done|by apply accept_int_Some|].
      eapply Forall_impl; [exact Hsk|]. intros l. by apply accept_int_None.
  - rewrite (first_accepted_eof (accept_int' min_val max_val)
               (ask_int' min_val max_val) eq_refl (ask_int_cons min_val max_val)).
    split; intros Hall; (eapply Forall_impl; [exact Hall|]);
      intros l; by apply accept_int_None.
  - apply (first_accepted_caught (accept_int' min_val max_val)
             (ask_int' min_val max_val) eq_refl (ask_int_cons min_val max_val)).
Qed.

Lemma ask_coord_cons (line : string) (rest : list string) :
  ask_coord' (line :: rest) =
    match accept_coord' line with
    | Some rc => Answer rc rest
    | None => ask_coord' rest
    end.
Proof.
  simpl. unfold accept_coord.
  destruct (split_on ","%char (strip line)) as [|a [|b [|c parts]]]; try done.
  destruct (int_of a); [|done]. by destruct (int_of b).
Qed.

Lemma accept_coord_Some (line : string) (r c : Z) :
  accept_coord' line = Some (r, c) ↔
  ∃ r_str c_str, split_on ","%char (strip line) = [r_str; c_str] ∧
                 int_of r_str = Some r ∧ int_of c_str = Some c.
Proof.
  unfold accept_coord. split.
  - destruct (split_on ","%char (strip line)) as [|a [|b [|x parts]]]; try done.
    destruct (int_of a) as [r'|] eqn:Ha; [|done].
    destruct (int_of b) as [c'|] eqn:Hb; [|done].
    intros [= -> ->]. by exists a, b.
  - intros (a & b & -> & -> & ->). done.
Qed.

(** X16.  [ask_coord] answers with the pair of integers of the first line
    that has exactly one comma and an integer on each side of it.  It
    checks no range: any pair of integers is accepted. *)
Theorem ask_coord_first_pair (lines : list string) :
  (∀ r c rest,
     ask_coord strip int_of lines = Answer (r, c) rest ↔
     ∃ skipped line r_str c_str,
       lines = skipped ++ line :: rest ∧
       split_on ","%char (strip line) = [r_str; c_str] ∧
       int_of r_str = Some r ∧ int_of c_str = Some c ∧
       Forall (λ l, accept_coord strip int_of l = None) skipped) ∧
  (ask_coord strip int_of lines = EOFError ↔
   Forall (λ l, accept_coord strip int_of l = None) lines) ∧
  ask_coord strip int_of lines ≠ UncaughtValueError.
Proof.
  split_and!.
  - intros r c rest.
    rewrite (first_accepted_answer accept_coord' ask_coord' eq_refl ask_coord_cons).
    split.
    + intros (skipped & line & Hl & Hacc & Hsk).
      apply accept_coord_Some in Hacc as (a & b & Hsplit & Ha & Hb).
      by exists skipped, line, a, b.
    + intros (skipped & line & a & b & Hl & Hsplit & Ha & Hb & Hsk).
      exists skipped, line. split_and!; [done| |done].
      apply accept_coord_Some. by exists a, b.
  - apply (first_accepted_eof accept_coord' ask_coord' eq_refl ask_coord_cons).
  - apply (first_accepted_caught accept_coord' ask_coord' eq_refl ask_coord_cons).
Qed.

Lemma ask_float_cons (min_val max_val : float) (line : string)
    (rest : list string) :
  ask_float' min_val max_val (line :: rest) =
    match accept_float' min_val max_val line with
    | Some v => Answer v rest
    | None => ask_float' min_val max_val rest
    end.
Proof.
  simpl. unfold accept_float. destruct (float_of (strip line)) as [v|]; [|done].
  by destruct ((min_val <=? v)%float && (v <=? max_val)%float).
Qed.

Lemma accept_float_Some (min_val max_val : float) (line : string) (v : float) :
  accept_float' min_val max_val line = Some v ↔
  float_of (strip line) = Some v ∧
  (min_val <=? v)%float = true ∧ (v <=? max_val)%float = true.
Proof.
  unfold accept_float. destruct (float_of (strip line)) as [w|].
  - destruct ((min_val <=? w)%float && (w <=? max_val)%float) eqn:Hr.
    + apply andb_true_iff in Hr. split.
      * by intros [= <-].
      * by intros [[= ->] _].
    + split; [done|]. intros [[= ->] [H1 H2]]. by rewrite H1, H2 in Hr.
  - split; [done|]. by intros [? _].
Qed.

Lemma ask_float_range (min_val max_val : float) (lines : list string)
    (v : float) (rest : list string) :
  ask_float' min_val max_val lines = Answer v rest →
  (min_val <=? v)%float = true ∧ (v <=? max_val)%float = true ∧
  ∃ skipped line,
    lines = skipped ++ line :: rest ∧ float_of (strip line) = Some v ∧
    Forall (λ l, accept_float' min_val max_val l = None) skipped.
Proof.
  intros Hrun.
  apply (first_accepted_answer (accept_float' min_val max_val)
           (ask_float' min_val max_val) eq_refl (ask_float_cons min_val max_val))
    in Hrun as (skipped & line & Hl & Hacc & Hsk).
  apply accept_float_Some in Hacc as (Hv & Hlo & Hhi).
  split_and!; [done..|]. by exists skipped, line.
Qed.

Lemma ask_choice_cons (choices : list string) (line : string)
    (rest : list string) :
  ask_choice' choices (line :: rest) =
    match accept_choice' choices line with
    | Some s => Answer s rest
    | None => ask_choice' choices rest
    end.
Proof.
  simpl. unfold accept_choice.
  by destruct (decide (lower (strip line) ∈ lower <$> choices)).
Qed.

Lemma accept_choice_Some (choices : list string) (line s : string) :
  accept_choice' choices line = Some s ↔
  s = lower (strip line) ∧ s ∈ lower <$> choices.
Proof.
  unfold accept_choice.
  destruct (decide (lower (strip line) ∈ lower <$> choices)) as [Hin|Hout].
  - split; [by intros [= <-]|by intros [-> _]].
  - split; [done|]. by intros [-> ?].
Qed.

Lemma accept_choice_None (choices : list string) (line : string) :
  accept_choice' choices line = None ↔ lower (strip line) ∉ lower <$> choices.
Proof.
  unfold accept_choice.
  by destruct (decide (lower (strip line) ∈ lower <$> choices)).
Qed.

(** X17.  [ask_choice] answers with the stripped and lowered text of the
    first line that, so folded, is among the lowered choices: the answer
    is compared and returned in lower case, whatever the case of the
    choices and of the line.  It ends with [EOFError] exactly when no line
    matches. *)
Theorem ask_choice_first_member (choices lines : list string) :
  (∀ s rest,
     ask_choice strip lower choices lines = Answer s rest ↔
     ∃ skipped line,
       lines = skipped ++ line :: rest ∧
       s = lower (strip line) ∧ s ∈ lower <$> choices ∧
       Forall (λ l, lower (strip l) ∉ lower <$> choices) skipped) ∧
  (ask_choice strip lower choices lines = EOFError ↔
   Forall (λ l, lower (strip l) ∉ lower <$> choices) lines) ∧
  ask_choice strip lower choices lines ≠ UncaughtValueError.
Proof.
  split_and!.
  - intros s rest.
    rewrite (first_accepted_answer (accept_choice' choices)
               (ask_choice' choices) eq_refl (ask_choice_cons choices)).
    split.
    + intros (skipped & line & Hl & Hacc & Hsk). exists skipped, line.
      apply accept_choice_Some in Hacc as [Hs Hin]. split_and!; [done..|].
      eapply Forall_impl; [exact Hsk|]. intros l. by apply accept_choice_None.
    + intros (skipped & line & Hl & Hs & Hin & Hsk). exists skipped, line.
      split_and!; [done|by apply accept_choice_Some|].
      eapply Forall_impl; [exact Hsk|]. intros l. by apply accept_choice_None.
  - rewrite (first_accepted_eof (accept_choice' choices)
               (ask_choice' choices) eq_refl (ask_choice_cons choices)).
    split; intros Hall; (eapply Forall_impl; [exact Hall|]);
      intros l; by apply accept_choice_None.
  - apply (first_accepted_caught (accept_choice' choices)
             (ask_choice' choices) eq_refl (ask_choice_cons choices)).
Qed.

Lemma ask_choice_member (choices lines : list string) (s : string)
    (rest : list string) :
  ask_choice' choices lines = Answer s rest → s ∈ lower <$> choices.
Proof.
  intros Hrun.
  apply (first_accepted_answer (accept_choice' choices)
           (ask_choice' choices) eq_refl (ask_choice_cons choices))
    in Hrun as (skipped & line & _ & Hacc & _).
  by apply accept_choice_Some in Hacc as [_ Hin].
Qed.

(** *** The nine prompts of [main] *)

#[local] Abbreviation ask_seed' := (ask_seed strip int_of).
#[local] Abbreviation read_params' := (read_params strip lower int_of float_of).

Lemma reply_bind_answer {A B : Type} (r : reply A)
    (k : A → list string → reply B) (b : B) (rest : list string) :
  reply_bind r k = Answer b rest →
  ∃ a rest', r = Answer a rest' ∧ k a rest' = Answer b rest.
Proof. destruct r as [a rest'| |]; [|done..]. simpl. eauto. Qed.

Lemma reply_bind_uncaught {A B : Type} (r : reply A)
    (k : A → list string → reply B) :
  reply_bind r k = UncaughtValueError →
  r = UncaughtValueError ∨
  ∃ a rest', r = Answer a rest' ∧ k a rest' = UncaughtValueError.
Proof. destruct r as [a rest'| |]; [|done|by left]. simpl. eauto. Qed.

Lemma ask_int_consumes (min_val max_val : option Z) (lines : list string)
    (v : Z) (rest : list string) :
  ask_int' min_val max_val lines = Answer v rest →
  rest `suffix_of` lines ∧ (length rest < length lines)%nat.
Proof.
  apply (first_accepted_consumes (accept_int' min_val max_val)
           (ask_int' min_val max_val) eq_refl (ask_int_cons min_val max_val)).
Qed.

Lemma ask_coord_consumes (lines : list string) (rc : Coord) (rest : list string) :
  ask_coord' lines = Answer rc rest →
  rest `suffix_of` lines ∧ (length rest < length lines)%nat.
Proof.
  apply (first_accepted_consumes accept_coord' ask_coord' eq_refl ask_coord_cons).
Qed.

Lemma ask_float_consumes (min_val max_val : float) (lines : list string)
    (v : float) (rest : list string) :
  ask_float' min_val max_val lines = Answer v rest →
  rest `suffix_of` lines ∧ (length rest < length lines)%nat.
Proof.
  apply (first_accepted_consumes (accept_float' min_val max_val)
           (ask_float' min_val max_val) eq_refl (ask_float_cons min_val max_val)).
Qed.

Lemma ask_choice_consumes (choices lines : list string) (s : string)
    (rest : list string) :
  ask_choice' choices lines = Answer s rest →
  rest `suffix_of` lines ∧ (length rest < length lines)%nat.
Proof.
  apply (first_accepted_consumes (accept_choice' choices)
           (ask_choice' choices) eq_refl (ask_choice_cons choices)).
Qed.

Lemma consumes_trans (l1 l2 l3 : list string) (n : nat) :
  l2 `suffix_of` l1 ∧ (length l2 + n ≤ length l1)%nat →
  l3 `suffix_of` l2 ∧ (length l3 < length l2)%nat →
  l3 `suffix_of` l1 ∧ (length l3 + S n ≤ length l1)%nat.
Proof. intros [H1 H2] [H3 H4]. split; [by etrans|lia]. Qed.

Lemma read_params_answer (lines : list string) (p : main_params)
    (rest : list string) :
  read_params' lines = Answer p rest →
  2 <= p_rows p ∧ 2 <= p_cols p ∧
  (0 <=? p_density p)%float = true ∧ (p_density p <=? max_density)%float = true ∧
  p_algo p ∈ lower <$> ["bfs"; "dfs"] ∧
  ∃ l8, l8 `suffix_of` lines ∧ (length l8 + 8 ≤ length lines)%nat ∧
        ask_seed' l8 = Answer (p_seed p) rest.
Proof.
  unfold read_params. intros Hrun.
  apply reply_bind_answer in Hrun as (rows & l1 & H1 & Hrun).
  apply reply_bind_answer in Hrun as (cols & l2 & H2 & Hrun).
  apply reply_bind_answer in Hrun as (s & l3 & H3 & Hrun).
  apply reply_bind_answer in Hrun as (e & l4 & H4 & Hrun).
  apply reply_bind_answer in Hrun as (density & l5 & H5 & Hrun).
  apply reply_bind_answer in Hrun as (algo & l6 & H6 & Hrun).
  apply reply_bind_answer in Hrun as (ens & l7 & H7 & Hrun).
  apply reply_bind_answer in Hrun as (show & l8 & H8 & Hrun).
  apply reply_bind_answer in Hrun as (seed & l9 & H9 & Hrun).
  injection Hrun as <- <-. simpl.
  destruct (ask_int_range _ _ _ _ _ H1) as [Hrows _].
  destruct (ask_int_range _ _ _ _ _ H2) as [Hcols _].
  destruct (ask_float_range _ _ _ _ _ H5) as (Hlo & Hhi & _).
  split_and!; [by apply Hrows|by apply Hcols|done|done
              |exact (ask_choice_member _ _ _ _ H6)|].
  exists l8. apply and_assoc. split; [|done].
  apply ask_int_consumes in H1, H2. apply ask_coord_consumes in H3, H4.
  apply ask_float_consumes in H5. apply ask_choice_consumes in H6, H7, H8.
  assert (l1 `suffix_of` lines ∧ (length l1 + 1 ≤ length lines)%nat) as C1
    by (destruct H1; split; [done|lia]).
  pose proof (consumes_trans _ _ _ _ C1 H2) as C2.
  pose proof (consumes_trans _ _ _ _ C2 H3) as C3.
  pose proof (consumes_trans _ _ _ _ C3 H4) as C4.
  pose proof (consumes_trans _ _ _ _ C4 H5) as C5.
  pose proof (consumes_trans _ _ _ _ C5 H6) as C6.
  pose proof (consumes_trans _ _ _ _ C6 H7) as C7.
  exact (consumes_trans _ _ _ _ C7 H8).
Qed.

Lemma read_params_uncaught (lines : list string) :
  read_params' lines = UncaughtValueError →
  ∃ l8, l8 `suffix_of` lines ∧ (length l8 + 8 ≤ length lines)%nat ∧
        ask_seed' l8 = UncaughtValueError.
Proof.
  unfold read_params. intros Hrun.
  apply reply_bind_uncaught in Hrun as [H1|(rows & l1 & H1 & Hrun)];
    [by apply (first_accepted_caught _ _ eq_refl (ask_int_cons _ _)) in H1|].
  apply reply_bind_uncaught in Hrun as [H2|(cols & l2 & H2 & Hrun)];
    [by apply (first_accepted_caught _ _ eq_refl (ask_int_cons _ _)) in H2|].
  apply reply_bind_uncaught in Hrun as [H3|(s & l3 & H3 & Hrun)];
    [by apply (first_accepted_caught _ _ eq_refl ask_coord_cons) in H3|].
  apply reply_bind_uncaught in Hrun as [H4|(e & l4 & H4 & Hrun)];
    [by apply (first_accepted_caught _ _ eq_refl ask_coord_cons) in H4|].
  apply reply_bind_uncaught in Hrun as [H5|(density & l5 & H5 & Hrun)];
    [by apply (first_accepted_caught _ _ eq_refl (ask_float_cons _ _)) in H5|].
  apply reply_bind_uncaught in Hrun as [H6|(algo & l6 & H6 & Hrun)];
    [by apply (first_accepted_caught _ _ eq_refl (ask_choice_cons _)) in H6|].
  apply reply_bind_uncaught in Hrun as [H7|(ens & l7 & H7 & Hrun)];
    [by apply (first_accepted_caught _ _ eq_refl (ask_choice_cons _)) in H7|].
  apply reply_bind_uncaught in Hrun as [H8|(show & l8 & H8 & Hrun)];
    [by apply (first_accepted_caught _ _ eq_refl (ask_choice_cons _)) in H8|].
  apply reply_bind_uncaught in Hrun as [H9|(seed & l9 & _ & Hrun)]; [|done].
  exists l8. apply and_assoc. split; [|done].
  apply ask_int_consumes in H1, H2. apply ask_coord_consumes in H3, H4.
  apply ask_float_consumes in H5. apply ask_choice_consumes in H6, H7, H8.
  assert (l1 `suffix_of` lines ∧ (length l1 + 1 ≤ length lines)%nat) as C1
    by (destruct H1; split; [done|lia]).
  pose proof (consumes_trans _ _ _ _ C1 H2) as C2.
  pose proof (consumes_trans _ _ _ _ C2 H3) as C3.
  pose proof (consumes_trans _ _ _ _ C3 H4) as C4.
  pose proof (consumes_trans _ _ _ _ C4 H5) as C5.
  pose proof (consumes_trans _ _ _ _ C5 H6) as C6.
  pose proof (consumes_trans _ _ _ _ C6 H7) as C7.
  exact (consumes_trans _ _ _ _ C7 H8).
Qed.

Lemma suffix_split (l8 lines : list string) (n : nat) (line : string)
    (rest : list string) :
  l8 `suffix_of` lines → (length l8 + n ≤ length lines)%nat → l8 = line :: rest →
  ∃ before, lines = before ++ line :: rest ∧ (n ≤ length before)%nat.
Proof.
  intros [before ->] Hlen ->. exists before. split; [done|].
  rewrite length_app in Hlen. lia.
Qed.

(** X18.  The seed line is the one input [main] does not guard.  Reading
    the parameters ends with an uncaught [ValueError] only at the seed
    line, at least eight lines into the input, when that line is not empty
    after stripping and is not an integer; when the parameters are read,
    the seed is [None] for an empty line and the integer of the line
    otherwise, so the text [0] gives the seed 0. *)
Theorem seed_line_unguarded (lines : list string) :
  (read_params strip lower int_of float_of lines = UncaughtValueError →
   ∃ before line rest,
     lines = before ++ line :: rest ∧ (8 ≤ length before)%nat ∧
     strip line ≠ EmptyString ∧ int_of (strip line) = None) ∧
  (∀ p rest,
     read_params strip lower int_of float_of lines = Answer p rest →
     ∃ before line,
       lines = before ++ line :: rest ∧ (8 ≤ length before)%nat ∧
       p_seed p = (if decide (strip line = EmptyString) then None
                   else int_of (strip line)) ∧
       (strip line ≠ EmptyString → is_Some (int_of (strip line)))).
Proof.
  split.
  - intros (l8 & Hsuf & Hlen & Hseed)%read_params_uncaught.
    unfold ask_seed in Hseed. destruct l8 as [|line rest]; [done|].
    destruct (suffix_split _ _ _ line rest Hsuf Hlen eq_refl)
      as (before & Hlines & Hbefore).
    exists before, line, rest.
    destruct (decide (strip line ≠ EmptyString)) as [Hne|]; [|done].
    destruct (int_of (strip line)) eqn:Hint; [done|]. done.
  - intros p rest (_ & _ & _ & _ & _ & l8 & Hsuf & Hlen & Hseed)%read_params_answer.
    unfold ask_seed in Hseed. destruct l8 as [|line rest']; [done|].
    destruct (decide (strip line ≠ EmptyString)) as [Hne|He].
    + destruct (int_of (strip line)) as [seed|] eqn:Hint; [|done].
      injection Hseed as Hp <-.
      destruct (suffix_split _ _ _ line rest' Hsuf Hlen eq_refl)
        as (before & Hlines & Hbefore).
      exists before, line. rewrite decide_False by done.
      split_and!; [done..|by rewrite Hint|by rewrite Hint].
    + apply dec_stable in He. injection Hseed as Hp <-.
      destruct (suffix_split _ _ _ line rest' Hsuf Hlen eq_refl)
        as (before & Hlines & Hbefore).
      exists before, line. rewrite decide_True by done.
      split_and!; [done..|]. by intros [].
Qed.

End ConsoleProofs.

Lemma float_leb_not_nan (x v : float) :
  (x <=? v)%float = true → PrimFloat.is_nan v = false.
Proof.
  unfold PrimFloat.is_nan. rewrite leb_spec, FloatAxioms.eqb_spec. unfold SFleb, SFeqb.
  destruct (Prim2SF v) as [[|]|[|]| |[|] mv ev];
    destruct (Prim2SF x) as [[|]|[|]| |[|] mx ex]; cbn [SFcompare negb];
    try done; intros _; rewrite Z.compare_refl, Pos.compare_cont_refl; done.
Qed.

(** X19.  A value [ask_float] answers with lies between the two bounds,
    both included, and is not NaN; it is the value of the first line that
    parses into the range. *)
Theorem ask_float_in_range (strip : string → string)
    (float_of : string → option float) (min_val max_val : float)
    (lines : list string) (v : float) (rest : list string) :
  ask_float strip float_of min_val max_val lines = Answer v rest →
  (min_val <=? v)%float = true ∧ (v <=? max_val)%float = true ∧
  PrimFloat.is_nan v = false ∧
  ∃ skipped line,
    lines = skipped ++ line :: rest ∧ float_of (strip line) = Some v ∧
    Forall (λ l, ∀ w, float_of (strip l) = Some w →
                      (min_val <=? w)%float && (w <=? max_val)%float = false)
           skipped.
Proof.
  intros Hrun.
  destruct (ask_float_range strip float_of min_val max_val lines v rest Hrun)
    as (Hlo & Hhi & skipped & line & Hl & Hv & Hsk).
  split_and!; [done|done|by eapply float_leb_not_nan|].
  exists skipped, line. split_and!; [done..|].
  eapply Forall_impl; [exact Hsk|]. intros l Hnone w Hw.
  unfold accept_float in Hnone. rewrite Hw in Hnone.
  by destruct ((min_val <=? w)%float && (w <=? max_val)%float).
Qed.

Lemma ask_float_in_range_sample :
  ask_float sample_strip sample_float_of 0 max_density
    ["nan"; "1.5"; "x"; " 0.25 "; "0.5"] = Answer 0.25%float ["0.5"] ∧
  (0 <=? 0.25)%float = true ∧ (0.25 <=? max_density)%float = true ∧
  PrimFloat.is_nan 0.25 = false ∧
  ∃ skipped line,
    ["nan"; "1.5"; "x"; " 0.25 "; "0.5"] = skipped ++ line :: ["0.5"] ∧
    sample_float_of (sample_strip line) = Some 0.25%float ∧
    Forall (λ l, ∀ w, sample_float_of (sample_strip l) = Some w →
                      (0 <=? w)%float && (w <=? max_density)%float = false)
           skipped.
Proof.
  assert (ask_float sample_strip sample_float_of 0 max_density
            ["nan"; "1.5"; "x"; " 0.25 "; "0.5"] = Answer 0.25%float ["0.5"])
    as Hrun by reflexivity.
  split; [exact Hrun|].
  exact (ask_float_in_range sample_strip sample_float_of 0 max_density _ _ _ Hrun).
Defined.

(** ** The parameters [main] hands to its loop *)

(** A density the prompt of [main] accepts, between 0.0 and 0.99, is one
    [Maze.random] accepts. *)
Lemma prompt_density_valid (v : float) :
  (0 <=? v)%float = true → (v <=? max_density)%float = true → density_valid v.
Proof.
  unfold density_valid, max_density. intros Hlo Hhi. split; [done|].
  revert Hlo Hhi. rewrite !leb_spec, ltb_spec.
  change (Prim2SF 0) with (S754_zero false).
  change (Prim2SF 1) with (S754_finite false 4503599627370496 (-52)).
  change (Prim2SF 0x1.fae147ae147aep-1)
    with (S754_finite false 8917127262193582 (-53)).
  unfold SFleb, SFltb.
  destruct (Prim2SF v) as [[|]|[|]| |[|] mv ev]; cbn [SFcompare];
    try (intros; congruence).
  intros _. destruct (Z.compare_spec ev (-53)) as [->|Hlt|Hgt].
  - intros _. reflexivity.
  - intros _. destruct (Z.compare_spec ev (-52)); [lia|reflexivity|lia].
  - intros [=].
Qed.

(** X20.  The parameters [main] has read always have at least two rows and
    two columns, a density [Maze.random] accepts, and an algorithm that is
    one of the two lowered choices.  The coordinates are not checked by the
    prompts, so of the five errors of [Maze.random] only the three about
    coordinates can end [main] with the input error. *)
Theorem read_params_checked (strip lower : string → string)
    (int_of : string → option Z) (float_of : string → option float)
    (lines : list string) (p : main_params) (rest : list string) :
  read_params strip lower int_of float_of lines = Answer p rest →
  2 <= p_rows p ∧ 2 <= p_cols p ∧ density_valid (p_density p) ∧
  p_algo p ∈ lower <$> ["bfs"; "dfs"] ∧
  ∀ (Rng : Type) (rng_random : Rng → float * Rng) (iters fuel : nat)
    (attempt : Z) (rng : Rng),
    (1 ≤ iters)%nat →
    (main_loop Rng rng_random iters fuel (p_rows p) (p_cols p) (p_start p)
       (p_end p) (p_density p) (p_algo p) (p_ensure p) attempt rng = Ok None
     ↔ ¬ coord_valid (p_rows p) (p_cols p) (p_start p) ∨
       ¬ coord_valid (p_rows p) (p_cols p) (p_end p) ∨
       p_start p = p_end p).
Proof.
  intros Hrun.
  destruct (read_params_answer strip lower int_of float_of lines p rest Hrun)
    as (Hrows & Hcols & Hlo & Hhi & Halgo & _).
  pose proof (prompt_density_valid _ Hlo Hhi) as Hdensity.
  split_and!; [done..|].
  intros Rng rng_random iters fuel attempt rng Hiters.
  split.
  - intros Hloop.
    destruct (decide (0 <= (p_start p).1 < p_rows p ∧ 0 <= (p_start p).2 < p_cols p))
      as [Hs|Hs]; [|by left].
    destruct (decide (0 <= (p_end p).1 < p_rows p ∧ 0 <= (p_end p).2 < p_cols p))
      as [He|He]; [|by right; left].
    destruct (decide (p_start p = p_end p)) as [Heq|Hne]; [by right; right|].
    exfalso.
    eapply (main_loop_not_input_error Rng rng_random); [|exact Hloop].
    unfold valid_params. by split_and!.
  - intros Hbad. destruct iters as [|iters]; [lia|]. simpl.
    destruct (Maze_random_cases Rng rng_random (p_rows p) (p_cols p) (p_start p)
                (p_end p) (p_density p) rng)
      as [[(_ & _ & Hs & He & Hne & _) _]|[_ (msg & ->)]]; [|done].
    destruct Hbad as [Hbad|[Hbad|Hbad]]; done.
Qed.

Lemma read_params_checked_sample :
  read_params sample_strip sample_lower sample_int_of sample_float_of sample_lines
    = Answer (mkParams 3 3 (0, 0) (2, 2) 0.25%float "bfs" true false None)
        ["maze.txt"] ∧
  2 <= 3 ∧ 2 <= 3 ∧ density_valid 0.25%float ∧
  "bfs" ∈ sample_lower <$> ["bfs"; "dfs"] ∧
  ∀ (Rng : Type) (rng_random : Rng → float * Rng) (iters fuel : nat)
    (attempt : Z) (rng : Rng),
    (1 ≤ iters)%nat →
    (main_loop Rng rng_random iters fuel 3 3 (0, 0) (2, 2) 0.25%float "bfs" true
       attempt rng = Ok None
     ↔ ¬ coord_valid 3 3 (0, 0) ∨ ¬ coord_valid 3 3 (2, 2) ∨ (0, 0) = (2, 2)).
Proof.
  assert (read_params sample_strip sample_lower sample_int_of sample_float_of
            sample_lines
          = Answer (mkParams 3 3 (0, 0) (2, 2) 0.25%float "bfs" true false None)
              ["maze.txt"]) as Hrun by (vm_compute; reflexivity).
  split; [exact Hrun|].
  exact (read_params_checked sample_strip sample_lower sample_int_of
           sample_float_of sample_lines _ _ Hrun).
Defined.

(** A seed that is not an integer ends the program with the exception. *)
Example read_params_bad_seed :
  read_params sample_strip sample_lower sample_int_of sample_float_of
    sample_lines_bad_seed = UncaughtValueError.
Proof. vm_compute. reflexivity. Qed.

(** Coordinates outside the grid pass the prompts and are refused only by
    [Maze.random]. *)
Example ask_coord_unchecked :
  ask_coord sample_strip sample_int_of ["7"; "1,2,3"; " -5,99 "; "0,0"]
    = Answer (-5, 99) ["0,0"].
Proof. vm_compute. reflexivity. Qed.

(** ** What [main] prints and exports *)

Lemma main_loop_outcome (Rng : Type) (rng_random : Rng → float * Rng)
    (rows cols : Z) (s e : Coord) (density : float) (algo : string)
    (ensure : bool) (fuel iters : nat) (out : outcome) :
  ∀ attempt rng,
    main_loop Rng rng_random iters fuel rows cols s e density algo ensure
      attempt rng = Ok (Some out) →
    ∃ rng0 rng',
      Maze_random Rng rng_random rows cols s e density rng0
        = Ok (out_maze out, rng') ∧
      search fuel algo (out_maze out) = Ok (out_path out, out_visited out).
Proof.
  induction iters as [|iters IH]; intros attempt rng; [done|]. simpl.
  destruct (Maze_random Rng rng_random rows cols s e density rng)
    as [[m rng']| |] eqn:Hgen; [|done..].
  destruct (search fuel algo m) as [[path visited]| |] eqn:Hsearch; simpl; [|done..].
  destruct (bool_decide (path ≠ None) || negb ensure || (max_tries <=? attempt + 1)).
  - intros [= <-]. simpl. eauto.
  - apply IH.
Qed.

Lemma cells_inside (m : Maze) (c : Coord) :
  rectangular m → in_bounds m (start m) → c ∈ cells m → inside (grid m) c.
Proof.
  intros Hrect Hs Hc. apply inside_in_bounds; [done|].
  unfold cells in Hc. apply elem_of_union in Hc as [Hc|Hc].
  - by apply elem_of_singleton in Hc as ->.
  - by apply elem_of_list_to_set, elem_of_cell_list in Hc.
Qed.

(** X21.  Whatever maze, path and visited set the loop of [main] ends with,
    the rendering [main] prints, with or without the visited overlay, and
    the layout it exports are produced without an exception: every cell of
    the path and of the visited set lies inside the generated grid. *)
Theorem main_output_renders (Rng : Type) (rng_random : Rng → float * Rng)
    (rows cols : Z) (s e : Coord) (density : float) (algo : string)
    (ensure show_visited : bool) (attempt : Z) (rng : Rng) (iters fuel : nat)
    (out : outcome) :
  main_loop Rng rng_random iters fuel rows cols s e density algo ensure
    attempt rng = Ok (Some out) →
  Forall (inside (grid (out_maze out))) (path_cells (out_path out)) ∧
  (∀ c, c ∈ out_visited out → inside (grid (out_maze out)) c) ∧
  ∃ text layout,
    draw_with_path (out_maze out) (out_path out)
      (if show_visited then Some (out_visited out) else None) = Ok text ∧
    export_layout (out_maze out) = Ok layout.
Proof.
  intros Hrun.
  destruct (main_loop_outcome _ _ _ _ _ _ _ _ _ _ _ _ _ _ Hrun)
    as (rng0 & rng' & Hgen & Hsearch).
  destruct out as [m path visited k]. simpl in *.
  destruct (Maze_random_cases Rng rng_random rows cols s e density rng0)
    as [[Hvalid _]|[_ (msg & Hraise)]]; [|congruence].
  destruct (Maze_random_ok Rng rng_random rows cols s e density rng0 Hvalid)
    as (m' & Hgen' & _ & _ & _ & Hplain & _).
  rewrite Hgen in Hgen'. injection Hgen' as <- _.
  destruct (Maze_random_well_formed Rng rng_random rows cols s e density rng0
              m rng' Hvalid Hgen) as (Hrect & _ & _ & [Hsb _] & [Heb _]).
  assert (search_post m (path, visited)) as (d & par & Htree & Hstart & Hsub & Hbranch).
  { apply (search_returns_post m fuel); [done|]. unfold search in Hsearch.
    destruct (decide (algo = "bfs")); [by left|by right]. }
  simpl in *.
  assert (∀ c, c ∈ visited → inside (grid m) c) as Hvis.
  { intros c Hc. apply cells_inside; [done..|]. by apply Hsub. }
  assert (Forall (inside (grid m)) (path_cells path)) as Hpath.
  { destruct path as [p|]; simpl; [|done].
    eapply Forall_impl; [exact (branch_visited m visited d p (end_ m) Hbranch)|].
    exact Hvis. }
  split_and!; [done..|].
  apply inside_in_bounds in Hsb as Hsi; [|done].
  apply inside_in_bounds in Heb as Hei; [|done].
  destruct (draw_cells_spec m path (if show_visited then Some visited else None)
              Hplain Hsi Hei Hpath) as (g & Hdraw & _).
  { destruct show_visited; simpl; [exact Hvis|set_solver]. }
  assert (inside (grid_set (grid m) (start m) "S") (end_ m)) as Hei'.
  { eapply inside_shape; [|exact Hei]. by rewrite shape_grid_set. }
  eexists _, _. split.
  - unfold draw_with_path. rewrite Hdraw. done.
  - unfold export_layout, export_cells.
    rewrite (setitem2_grid_set _ (start m)) by done. simpl.
    rewrite (setitem2_grid_set _ (end_ m)) by done. done.
Qed.

Lemma main_output_renders_sample :
  ∃ out,
    main_loop nat counter_random 200 30 3 3 (0, 0) (2, 2) 0.5%float "dfs" true
      0 0%nat = Ok (Some out) ∧
    Forall (inside (grid (out_maze out))) (path_cells (out_path out)) ∧
    (∀ c, c ∈ out_visited out → inside (grid (out_maze out)) c) ∧
    ∃ text layout,
      draw_with_path (out_maze out) (out_path out) (Some (out_visited out))
        = Ok text ∧
      export_layout (out_maze out) = Ok layout.
Proof.
  destruct (main_loop_from nat counter_random 3 3 (0, 0) (2, 2) 0.5%float "dfs"
              true 30 sample_params_valid ltac:(vm_compute; lia) 200 0 0%nat
              ltac:(unfold max_tries; lia) ltac:(vm_compute; lia))
    as (j & m & path & visited & Hrun & _).
  eexists. split; [exact Hrun|].
  exact (main_output_renders nat counter_random 3 3 (0, 0) (2, 2) 0.5%float "dfs"
           true true 0 0%nat 200 30 _ Hrun).
Defined.
